(** * Planar orbit integration wrapper: [integratePlanarOrbit.c]

    A shallow embedding of [src/galpy/orbit_src/orbit_c_ext/integratePlanarOrbit.c],
    the properties its specification states about it, and further properties
    of the code: what every run leaves behind, when the call is defined, what
    the engine is handed.

    The C code computes on [double]s and on [malloc]ed memory.  Both are kept:
    - the arithmetic is an interface, [DoubleOps], with two instances:
      [Binary64] (IEEE binary64, the kernel's primitive floats: what the
      compiled code computes) and [RealArith] (the real numbers: the reading in
      which the specification's formulas are stated);
    - the memory is a heap of [malloc]ed blocks, with the trace of the calls
      to [malloc], [free] and [leapfrog], in a state-and-fault monad.
    The [int]s of the code ([npot], [nargs], the type codes, the loop
    counters) are in [Z]: the counters stay below their bounds, so no
    operation on them can overflow. *)

From Stdlib Require Import ZArith List Lia Reals Lra PrimFloat.
From Stdlib Require FloatAxioms.
From stdpp Require Import base gmap list.


(** ** The arithmetic of [double] *)

(** What the code uses of [double]: the literals [0.], [1.], [2.] and [M_PI],
    the four operations, [sqrt] and [acos] of [math.h], and the test [<]. *)
Class DoubleOps : Type := {
  double : Type;
  d0 : double;
  d1 : double;
  d2 : double;
  M_PI : double;
  dadd : double -> double -> double;
  dsub : double -> double -> double;
  dmul : double -> double -> double;
  ddiv : double -> double -> double;
  dsqrt : double -> double;
  dacos : double -> double;
  dlt : double -> double -> bool
}.

Declare Scope double_scope.
Delimit Scope double_scope with D.
Bind Scope double_scope with double.
Infix "+" := dadd : double_scope.
Infix "-" := dsub : double_scope.
Infix "*" := dmul : double_scope.
Infix "/" := ddiv : double_scope.
Infix "<?" := dlt : double_scope.

(** IEEE binary64.  [sqrt] is the correctly rounded one; [acos] belongs to the
    C library and is left open.  [M_PI] is the macro's literal,
    3.14159265358979323846, which rounds to [0x1.921fb54442d18p+1]. *)
Definition Binary64 (libm_acos : float -> float) : DoubleOps := {|
  double := float;
  d0 := 0%float;
  d1 := 1%float;
  d2 := 2%float;
  M_PI := 0x1.921fb54442d18p+1%float;
  dadd := PrimFloat.add;
  dsub := PrimFloat.sub;
  dmul := PrimFloat.mul;
  ddiv := PrimFloat.div;
  dsqrt := PrimFloat.sqrt;
  dacos := libm_acos;
  dlt := PrimFloat.ltb
|}.

Definition Rltb (x y : R) : bool := if Rlt_dec x y then true else false.

(** Exact real arithmetic, [M_PI] read as the number pi. *)
Definition RealArith : DoubleOps := {|
  double := R;
  d0 := 0%R;
  d1 := 1%R;
  d2 := 2%R;
  M_PI := PI;
  dadd := Rplus;
  dsub := Rminus;
  dmul := Rmult;
  ddiv := Rdiv;
  dsqrt := R_sqrt.sqrt;
  dacos := acos;
  dlt := Rltb
|}.

(** ** Memory: [malloc]ed blocks, pointers, and the trace of calls *)

Definition block : Type := nat.

(** A pointer is a block and an offset counted in elements; [p++] adds 1. *)
Record ptr : Type := mkptr { pblock : block; poff : Z }.

Definition ptr_add (p : ptr) (k : Z) : ptr := mkptr (pblock p) (poff p + k).

Inductive fault : Type :=
| UninitRead   (* a value read before it was written *)
| OutOfBounds  (* an access outside a block or outside an input array *)
| InvalidFree. (* [free] of what [malloc] did not return, or of a freed block *)

Section Program.
Context {D : DoubleOps}.

(** The type of [planarRforce] and [planarphiforce]:
    [double f(double R, double phi, int nargs, double *args)], a pure function
    of [R], [phi] and the [nargs] values it finds at [args]. *)
Definition force_fn : Type := double -> double -> Z -> list double -> double.

(** [struct leapFuncArg] (declared in [bovy_symplecticode.h]).  A field is
    [None] until the code assigns it: [malloc] returns indeterminate memory. *)
Record leapFuncArg : Type := mkLeapFuncArg {
  planarRforce : option force_fn;
  planarphiforce : option force_fn;
  nargs : option Z;
  args : option ptr
}.

Definition indeterminate : leapFuncArg := mkLeapFuncArg None None None None.

Inductive blockval : Type :=
| DoubleArr (ds : list (option double))
| StructArr (ss : list leapFuncArg).

Inductive event : Type :=
| EvMalloc (b : block)
| EvFree (b : block)
| EvLeapfrog (npot : Z) (leapFuncArgs : ptr).

Record mem : Type := mkmem {
  heap : gmap block blockval;
  nextblock : block;
  trace : list event
}.

Definition empty_mem : mem := mkmem ∅ 0 [].

Inductive outcome (A : Type) : Type :=
| Ok (a : A) (m : mem)
| Fault (f : fault) (m : mem).
#[global] Arguments Ok {A} a m.
#[global] Arguments Fault {A} f m.

Definition M (A : Type) : Type := mem -> outcome A.

Definition ret {A} (a : A) : M A := fun m => Ok a m.

Definition raise {A} (f : fault) : M A := fun m => Fault f m.

Definition bind {A B} (c : M A) (k : A -> M B) : M B :=
  fun m => match c m with
           | Ok a m' => k a m'
           | Fault f m' => Fault f m'
           end.

Notation "x <- c ;; k" := (bind c (fun x => k))
  (at level 100, c at next level, right associativity).
Notation "c ;; k" := (bind c (fun _ => k))
  (at level 100, right associativity).

(** [for (ii=0; ii < n; ii++) body], for a body that changes neither [ii] nor
    [n]: the body runs [n] times ([0] times when [n <= 0]); [s] is what the
    body updates (the walking pointers, the accumulator). *)
Fixpoint for_loop {S : Type} (n : nat) (body : S -> M S) (s : S) : M S :=
  match n with
  | O => ret s
  | S n' => s' <- body s ;; for_loop n' body s'
  end.

(** The element of a block's contents that an offset designates. *)
Definition at_off {A} (l : list A) (off : Z) : option A :=
  if (0 <=? off)%Z then l !! Z.to_nat off else None.

(** [*p] and [*p = v] for a caller's input array (read only), a [double]
    cell and a [struct leapFuncArg] cell. *)
Definition read_input {A} (l : list A) (i : Z) : M A :=
  match at_off l i with
  | Some v => ret v
  | None => raise OutOfBounds
  end.

Definition load_double (p : ptr) : M double := fun m =>
  match heap m !! pblock p with
  | Some (DoubleArr ds) =>
      match at_off ds (poff p) with
      | Some (Some v) => Ok v m
      | Some None => Fault UninitRead m
      | None => Fault OutOfBounds m
      end
  | _ => Fault OutOfBounds m
  end.

Definition store_double (p : ptr) (v : double) : M unit := fun m =>
  match heap m !! pblock p with
  | Some (DoubleArr ds) =>
      match at_off ds (poff p) with
      | Some _ =>
          Ok tt (mkmem (<[pblock p := DoubleArr (<[Z.to_nat (poff p) := Some v]> ds)]> (heap m))
                       (nextblock m) (trace m))
      | None => Fault OutOfBounds m
      end
  | _ => Fault OutOfBounds m
  end.

Fixpoint load_doubles (n : nat) (p : ptr) : M (list double) :=
  match n with
  | O => ret []
  | S n' => v <- load_double p ;; vs <- load_doubles n' (ptr_add p 1) ;; ret (v :: vs)
  end.

Definition load_struct (p : ptr) : M leapFuncArg := fun m =>
  match heap m !! pblock p with
  | Some (StructArr ss) =>
      match at_off ss (poff p) with
      | Some s => Ok s m
      | None => Fault OutOfBounds m
      end
  | _ => Fault OutOfBounds m
  end.

Definition store_struct (p : ptr) (s : leapFuncArg) : M unit := fun m =>
  match heap m !! pblock p with
  | Some (StructArr ss) =>
      match at_off ss (poff p) with
      | Some _ =>
          Ok tt (mkmem (<[pblock p := StructArr (<[Z.to_nat (poff p) := s]> ss)]> (heap m))
                       (nextblock m) (trace m))
      | None => Fault OutOfBounds m
      end
  | _ => Fault OutOfBounds m
  end.

(** [p->field] read: the field must have been assigned. *)
Definition get_field {A} (field : leapFuncArg -> option A) (p : ptr) : M A :=
  s <- load_struct p ;;
  match field s with
  | Some v => ret v
  | None => raise UninitRead
  end.

(** [p->field = v]: the other fields keep what they hold. *)
Definition set_planarRforce (p : ptr) (f : force_fn) : M unit :=
  s <- load_struct p ;;
  store_struct p (mkLeapFuncArg (Some f) (planarphiforce s) (nargs s) (args s)).

Definition set_planarphiforce (p : ptr) (f : force_fn) : M unit :=
  s <- load_struct p ;;
  store_struct p (mkLeapFuncArg (planarRforce s) (Some f) (nargs s) (args s)).

Definition set_nargs (p : ptr) (n : Z) : M unit :=
  s <- load_struct p ;;
  store_struct p (mkLeapFuncArg (planarRforce s) (planarphiforce s) (Some n) (args s)).

Definition set_args (p : ptr) (a : ptr) : M unit :=
  s <- load_struct p ;;
  store_struct p (mkLeapFuncArg (planarRforce s) (planarphiforce s) (nargs s) (Some a)).

(** [malloc]: a fresh block of indeterminate cells (allocation itself is taken
    to succeed).  [free]: of a pointer that [malloc] returned and that is
    still allocated; anything else is undefined behaviour in C, a fault here. *)
Definition malloc (v : blockval) : M ptr := fun m =>
  let b := nextblock m in
  Ok (mkptr b 0) (mkmem (<[b := v]> (heap m)) (S b) (trace m ++ [EvMalloc b])).

Definition malloc_structs (n : Z) : M ptr :=
  malloc (StructArr (replicate (Z.to_nat n) indeterminate)).

Definition malloc_doubles (n : Z) : M ptr :=
  malloc (DoubleArr (replicate (Z.to_nat n) None)).

Definition free (p : ptr) : M unit := fun m =>
  match heap m !! pblock p with
  | Some _ =>
      if (poff p =? 0)%Z
      then Ok tt (mkmem (delete (pblock p) (heap m)) (nextblock m)
                        (trace m ++ [EvFree (pblock p)]))
      else Fault InvalidFree m
  | None => Fault InvalidFree m
  end.

(** ** The force evaluation: [calcPlanarRforce], [calcPlanarphiforce],
       [evalPlanarRectForce] *)

(** The arguments a force law is called with at [leapFuncArgs]:
    [leapFuncArgs->nargs] and the values at [leapFuncArgs->args]. *)
Definition force_args (leapFuncArgs : ptr) : M (Z * list double) :=
  n <- get_field nargs leapFuncArgs ;;
  a <- get_field args leapFuncArgs ;;
  vs <- load_doubles (Z.to_nat n) a ;;
  ret (n, vs).

(** Lines 87-99.  The loop state is [(Rforce, leapFuncArgs)]. *)
Definition calcPlanarRforce (R phi t : double) (nargs : Z) (leapFuncArgs : ptr)
  : M double :=
  let Rforce := d0 in
  s <- for_loop (Z.to_nat nargs)
         (fun '(Rforce, leapFuncArgs) =>
            f <- get_field planarRforce leapFuncArgs ;;
            na <- force_args leapFuncArgs ;;
            ret ((Rforce + f R phi (fst na) (snd na))%D, ptr_add leapFuncArgs 1))
         (Rforce, leapFuncArgs) ;;
  let '(Rforce, leapFuncArgs) := s in
  let leapFuncArgs := ptr_add leapFuncArgs (- nargs) in
  ret Rforce.

(** Lines 100-112. *)
Definition calcPlanarphiforce (R phi t : double) (nargs : Z) (leapFuncArgs : ptr)
  : M double :=
  let phiforce := d0 in
  s <- for_loop (Z.to_nat nargs)
         (fun '(phiforce, leapFuncArgs) =>
            f <- get_field planarphiforce leapFuncArgs ;;
            na <- force_args leapFuncArgs ;;
            ret ((phiforce + f R phi (fst na) (snd na))%D, ptr_add leapFuncArgs 1))
         (phiforce, leapFuncArgs) ;;
  let '(phiforce, leapFuncArgs) := s in
  let leapFuncArgs := ptr_add leapFuncArgs (- nargs) in
  ret phiforce.

(** Lines 75-79: the polar coordinates of the rectangular point [(x, y)], and
    the sine and cosine of the angle, taken from [x], [y] and [R]. *)
Definition polar_R (x y : double) : double := dsqrt (x * x + y * y)%D.

Definition polar_phi (x y : double) : double :=
  let R := polar_R x y in
  let phi := dacos (x / R)%D in
  if (y <? d0)%D then (phi + d2 * M_PI)%D else phi.

Definition polar_sinphi (x y : double) : double := (y / polar_R x y)%D.

Definition polar_cosphi (x y : double) : double := (x / polar_R x y)%D.

(** Lines 67-85.  [q] and [a] are the engine's position and acceleration
    buffers. *)
Definition evalPlanarRectForce (t : double) (q a : ptr) (nargs : Z)
  (leapFuncArgs : ptr) : M unit :=
  x <- load_double q ;;
  y <- load_double (ptr_add q 1) ;;
  let R := polar_R x y in
  let phi := polar_phi x y in
  let sinphi := polar_sinphi x y in
  let cosphi := polar_cosphi x y in
  Rforce <- calcPlanarRforce R phi t nargs leapFuncArgs ;;
  phiforce <- calcPlanarphiforce R phi t nargs leapFuncArgs ;;
  store_double a (cosphi * Rforce - d1 / R * sinphi * phiforce)%D ;;
  store_double (ptr_add a 1) (sinphi * Rforce + d1 / R * cosphi * phiforce)%D.

(** ** The driver: [integratePlanarOrbit] *)

(** The force laws of [galpy_potentials.h] and the engine of
    [bovy_symplecticode.h] are outside the file. *)
Section Driver.

Variable LogarithmicHaloPotentialPlanarRforce : force_fn.

(** Modelled from the spec: [ZeroPlanarForce] of [galpy_potentials.h] is not
    in the sources; the specification calls it the constant-zero provider for
    potentials with no angular component. *)
Definition ZeroPlanarForce : force_fn := fun _ _ _ _ => d0.

(** The force callback as the engine sees it: time and position in,
    acceleration out, [None] when the evaluation faults. *)
Definition force_callback : Type := double -> list double -> option (list double).

(** [leapfrog(func, dim, yo, nt, t, nargs, leapFuncArgs, rtol, atol, result)],
    as a function of the callback and of the values it is given; it returns the
    contents of [result].  The engine works in buffers of its own: it neither
    writes to nor frees the caller's blocks. *)
Variable leapfrog :
  force_callback -> Z -> list double -> Z -> list double -> double -> double ->
  list double.

(** [func(t, q, a, nargs, leapFuncArgs)] run on the memory [m], with [q] and
    [a] in two scratch blocks. *)
Definition bound_callback (func : double -> ptr -> ptr -> Z -> ptr -> M unit)
  (dim nargs : Z) (leapFuncArgs : ptr) (m : mem) : force_callback :=
  fun t qv =>
    match (q <- malloc (DoubleArr (map Some qv)) ;;
           a <- malloc_doubles dim ;;
           func t q a nargs leapFuncArgs ;;
           load_doubles (Z.to_nat dim) a) m with
    | Ok av _ => Some av
    | Fault _ _ => None
    end.

Definition call_leapfrog (func : double -> ptr -> ptr -> Z -> ptr -> M unit)
  (dim : Z) (yo : list double) (nt : Z) (t : list double) (nargs : Z)
  (leapFuncArgs : ptr) (rtol atol : double) : M (list double) := fun m =>
  Ok (leapfrog (bound_callback func dim nargs leapFuncArgs m) dim yo nt t rtol atol)
     (mkmem (heap m) (nextblock m) (trace m ++ [EvLeapfrog nargs leapFuncArgs])).

(** Lines 46-50: copy [leapFuncArgs->nargs] values from [pot_args] to
    [leapFuncArgs->args], walking both pointers, then step [args] back.  The
    loop state is the read position in [pot_args]; the body does not write
    [leapFuncArgs->nargs], so the bound read on entry is the bound of every
    test. *)
Definition copy_args (leapFuncArgs : ptr) (pot_args : list double) (pa : Z) : M Z :=
  n <- get_field nargs leapFuncArgs ;;
  pa <- for_loop (Z.to_nat n)
          (fun pa =>
             v <- read_input pot_args pa ;;
             a <- get_field args leapFuncArgs ;;
             store_double a v ;;
             a <- get_field args leapFuncArgs ;;
             set_args leapFuncArgs (ptr_add a 1) ;;
             ret (pa + 1)%Z)
          pa ;;
  a <- get_field args leapFuncArgs ;;
  n <- get_field nargs leapFuncArgs ;;
  set_args leapFuncArgs (ptr_add a (- n)) ;;
  ret pa.

(** Lines 40-52: one turn of the set-up loop.  The state is
    [(leapFuncArgs, pt, pa)], with [pt] and [pa] the read positions in
    [pot_type] and [pot_args].  The [switch] has the single case [0] and no
    [default]. *)
Definition setup_body (pot_type : list Z) (pot_args : list double)
  (s : ptr * Z * Z) : M (ptr * Z * Z) :=
  let '(leapFuncArgs, pt, pa) := s in
  c <- read_input pot_type pt ;;
  pa <- match c with
        | 0%Z =>
            set_planarRforce leapFuncArgs LogarithmicHaloPotentialPlanarRforce ;;
            set_planarphiforce leapFuncArgs ZeroPlanarForce ;;
            set_nargs leapFuncArgs 2 ;;
            n <- get_field nargs leapFuncArgs ;;
            a <- malloc_doubles n ;;
            set_args leapFuncArgs a ;;
            copy_args leapFuncArgs pot_args pa
        | _ => ret pa
        end ;;
  ret (ptr_add leapFuncArgs 1, (pt + 1)%Z, pa).

(** Lines 38-54: the set-up of the forces.  Returns [leapFuncArgs] (stepped
    back to the first element) and the two read positions reached. *)
Definition setup_forces (npot : Z) (pot_type : list Z) (pot_args : list double)
  : M (ptr * Z * Z) :=
  leapFuncArgs <- malloc_structs npot ;;
  s <- for_loop (Z.to_nat npot) (setup_body pot_type pot_args) (leapFuncArgs, 0%Z, 0%Z) ;;
  let '(leapFuncArgs, pt, pa) := s in
  ret (ptr_add leapFuncArgs (- npot), pt, pa).

(** Lines 58-63: free the allocated memory. *)
Definition free_forces (npot : Z) (leapFuncArgs : ptr) : M unit :=
  leapFuncArgs <- for_loop (Z.to_nat npot)
                    (fun leapFuncArgs =>
                       a <- get_field args leapFuncArgs ;;
                       free a ;;
                       ret (ptr_add leapFuncArgs 1))
                    leapFuncArgs ;;
  let leapFuncArgs := ptr_add leapFuncArgs (- npot) in
  free leapFuncArgs.

(** Lines 26-65.  The function returns nothing and has no status: what it
    hands back is what the engine wrote to [result]. *)
Definition integratePlanarOrbit (yo : list double) (nt : Z) (t : list double)
  (npot : Z) (pot_type : list Z) (pot_args : list double) (rtol atol : double)
  : M (list double) :=
  s <- setup_forces npot pot_type pot_args ;;
  let leapFuncArgs := fst (fst s) in
  result <- call_leapfrog evalPlanarRectForce 2 yo nt t npot leapFuncArgs rtol atol ;;
  free_forces npot leapFuncArgs ;;
  ret result.

End Driver.

(** ** What the specification calls things *)

(** A Force Term as a value: the two force laws, the parameter count and the
    parameter values. *)
Record ForceTerm : Type := mkForceTerm {
  radial_force_fn : force_fn;
  angular_force_fn : force_fn;
  param_count : Z;
  params : list double
}.

(** The memory [m] holds the term [tm] at [p], its parameters at [a]: this is
    what the code reads there. *)
Definition holds_term (m : mem) (p : ptr) (tm : ForceTerm) (a : ptr) : Prop :=
  load_struct p m
  = Ok (mkLeapFuncArg (Some (radial_force_fn tm)) (Some (angular_force_fn tm))
                      (Some (param_count tm)) (Some a)) m
  /\ load_doubles (Z.to_nat (param_count tm)) a m = Ok (params tm) m.

(** The memory [m] holds the Force Term Sequence [ts] from [p] on, the
    parameter buffers at [aps]. *)
Fixpoint holds_terms (m : mem) (p : ptr) (ts : list ForceTerm) (aps : list ptr)
  : Prop :=
  match ts, aps with
  | [], [] => True
  | tm :: ts', a :: aps' => holds_term m p tm a /\ holds_terms m (ptr_add p 1) ts' aps'
  | _, _ => False
  end.

(** The forces of one term at [(R, phi)], and their sum over a sequence,
    accumulated from [0.] in the order of the sequence. *)
Definition radial_force (R phi : double) (tm : ForceTerm) : double :=
  radial_force_fn tm R phi (param_count tm) (params tm).

Definition angular_force (R phi : double) (tm : ForceTerm) : double :=
  angular_force_fn tm R phi (param_count tm) (params tm).

Definition sum_forces (f : ForceTerm -> double) (ts : list ForceTerm) : double :=
  fold_left (fun acc tm => (acc + f tm)%D) ts d0.

(** The acceleration as the specification writes it (section 4.3, steps 1-5). *)
Definition spec_acceleration (x y : double) (ts : list ForceTerm) : double * double :=
  let R := polar_R x y in
  let phi := polar_phi x y in
  let cosphi := (x / R)%D in
  let sinphi := (y / R)%D in
  let Rforce := sum_forces (radial_force R phi) ts in
  let phiforce := sum_forces (angular_force R phi) ts in
  ((cosphi * Rforce - d1 / R * sinphi * phiforce)%D,
   (sinphi * Rforce + d1 / R * cosphi * phiforce)%D).

(** The position buffer [q] holds [(x, y)]; the acceleration buffer [a] has
    room for two values. *)
Definition holds_position (m : mem) (q : ptr) (x y : double) : Prop :=
  load_double q m = Ok x m /\ load_double (ptr_add q 1) m = Ok y m.

Definition room_for_two (m : mem) (a : ptr) : Prop :=
  exists ds, heap m !! pblock a = Some (DoubleArr ds)
             /\ (0 <= poff a)%Z /\ (Z.to_nat (poff a) + 1 < length ds)%nat.

(** What the set-up loop makes of the codes: an element set up for
    LogarithmicHaloPotential, its two parameters in the block [blk], for a
    code [0]; an element left as [malloc] returned it for any other code. *)
Definition built_slot (LH : force_fn) (blk : block) : leapFuncArg :=
  mkLeapFuncArg (Some LH) (Some ZeroPlanarForce) (Some 2%Z) (Some (mkptr blk 0)).

Fixpoint slots_of (LH : force_fn) (codes : list Z) (blk : block) : list leapFuncArg :=
  match codes with
  | [] => []
  | 0%Z :: cs => built_slot LH blk :: slots_of LH cs (S blk)
  | _ :: cs => indeterminate :: slots_of LH cs blk
  end.

(** The number of codes [0] in a list of codes. *)
Fixpoint zeros (codes : list Z) : nat :=
  match codes with
  | [] => 0
  | 0%Z :: cs => S (zeros cs)
  | _ :: cs => zeros cs
  end.

(** The parameters of the [i]-th term when every term takes two: the two
    values at the read position [2 * i] of the flat sequence. *)
Definition built_params (pot_args : list double) (i : nat) : list double :=
  take 2 (drop (2 * i) pot_args).

(** A memory in which [malloc] has not yet handed out [nextblock] or later. *)
Definition fresh_above (m : mem) : Prop :=
  forall b, (nextblock m <= b)%nat -> heap m !! b = None.

(** How often the trace frees the block [b]. *)
Definition is_free (b : block) (e : event) : bool :=
  match e with EvFree b' => Nat.eqb b' b | _ => false end.

Definition count (f : event -> bool) (tr : list event) : nat :=
  length (List.filter f tr).

(** ** The properties that depend on the arithmetic *)

(** Stated for a given arithmetic, so that each can be proved over the reals
    and tested in binary64. *)

(** Round trip: for [x > 0] and [R > 0], [R * cosphi] and [R * sinphi] give
    back [x] and [y]. *)
Definition RoundTripAt (x y : double) : Prop :=
  (d0 <? x)%D = true -> (d0 <? polar_R x y)%D = true ->
  (polar_R x y * polar_cosphi x y)%D = x
  /\ (polar_R x y * polar_sinphi x y)%D = y.

(** Order independence: when [ts'] is a permutation of [ts] and [R > 0], the
    sums and the acceleration are the same for the two sequences. *)
Definition OrderIndependentAt (t x y : double) (ts ts' : list ForceTerm) : Prop :=
  Permutation ts ts' ->
  (d0 <? polar_R x y)%D = true ->
  let R := polar_R x y in
  let phi := polar_phi x y in
  sum_forces (radial_force R phi) ts = sum_forces (radial_force R phi) ts'
  /\ sum_forces (angular_force R phi) ts = sum_forces (angular_force R phi) ts'
  /\ forall m q a lfa aps m' q' a' lfa' aps',
       holds_terms m lfa ts aps -> holds_position m q x y -> room_for_two m a ->
       holds_terms m' lfa' ts' aps' -> holds_position m' q' x y -> room_for_two m' a' ->
       exists m1 m1' ax ay,
         evalPlanarRectForce t q a (Z.of_nat (length ts)) lfa m = Ok tt m1
         /\ evalPlanarRectForce t q' a' (Z.of_nat (length ts')) lfa' m' = Ok tt m1'
         /\ load_double a m1 = Ok ax m1 /\ load_double (ptr_add a 1) m1 = Ok ay m1
         /\ load_double a' m1' = Ok ax m1' /\ load_double (ptr_add a' 1) m1' = Ok ay m1'.

(** Radial force: with angular force laws that are constantly zero and
    [R > 0], the sum [phiforce] is zero and the acceleration is along the
    position vector. *)
Definition RadialAt (t x y : double) (ts : list ForceTerm) : Prop :=
  Forall (fun tm => forall R phi n ps, angular_force_fn tm R phi n ps = d0) ts ->
  (d0 <? polar_R x y)%D = true ->
  let R := polar_R x y in
  let phi := polar_phi x y in
  let Rforce := sum_forces (radial_force R phi) ts in
  sum_forces (angular_force R phi) ts = d0
  /\ forall m q a lfa aps,
       holds_terms m lfa ts aps -> holds_position m q x y -> room_for_two m a ->
       exists m' ax ay,
         evalPlanarRectForce t q a (Z.of_nat (length ts)) lfa m = Ok tt m'
         /\ load_double a m' = Ok ax m' /\ load_double (ptr_add a 1) m' = Ok ay m'
         /\ ax = (x / R * Rforce)%D /\ ay = (y / R * Rforce)%D
         /\ (ax * y = ay * x)%D.

(** A memory laid out by hand: the sequence at block 0, its parameter buffers
    from block 3 on, the position in block 1, room for the acceleration in
    block 2. *)
Fixpoint layout_slots (b : block) (ts : list ForceTerm) : list leapFuncArg :=
  match ts with
  | [] => []
  | tm :: ts' =>
      mkLeapFuncArg (Some (radial_force_fn tm)) (Some (angular_force_fn tm))
                    (Some (param_count tm)) (Some (mkptr b 0))
      :: layout_slots (S b) ts'
  end.

Fixpoint layout_params (b : block) (ts : list ForceTerm)
  (h : gmap block blockval) : gmap block blockval :=
  match ts with
  | [] => h
  | tm :: ts' => <[b := DoubleArr (map Some (params tm))]> (layout_params (S b) ts' h)
  end.

Definition layout (ts : list ForceTerm) (x y : double) : mem :=
  mkmem (layout_params 3 ts
           (<[0%nat := StructArr (layout_slots 3 ts)]>
              (<[1%nat := DoubleArr [Some x; Some y]]>
                 (<[2%nat := DoubleArr [None; None]]> ∅))))
        (3 + length ts) [].

Definition layout_ptrs (ts : list ForceTerm) : list ptr :=
  map (fun i => mkptr (3 + i) 0) (seq 0 (length ts)).

(** A force law for examples: the first parameter, whatever [R] and [phi]. *)
Definition first_param : force_fn :=
  fun _ _ _ ps => match ps with v :: _ => v | [] => d0 end.


(** An engine for examples: it evaluates the force once, at the initial
    time and position, and returns the acceleration. *)
Definition probe_engine : force_callback -> Z -> list double -> Z ->
  list double -> double -> double -> list double :=
  fun func _ yo _ t _ _ =>
    match t with
    | t0 :: _ => match func t0 (take 2 yo) with Some a => a | None => [] end
    | [] => []
    end.

End Program.

Notation "x <- c ;; k" := (bind c (fun x => k))
  (at level 100, c at next level, right associativity).
Notation "c ;; k" := (bind c (fun _ => k))
  (at level 100, right associativity).

(** Example terms: the radial force is the first parameter, the angular
    force is zero. *)
Definition real_term (v : R) : @ForceTerm RealArith :=
  @mkForceTerm RealArith first_param ZeroPlanarForce 1%Z [v].

Definition b64_term (libm_acos : float -> float) (v : float)
  : @ForceTerm (Binary64 libm_acos) :=
  @mkForceTerm (Binary64 libm_acos) first_param ZeroPlanarForce 1%Z [v].

(** A force law that depends on the angle: the sine of [phi]. *)
Definition sine_law : @force_fn RealArith := fun _ phi _ _ => sin phi.

Definition sine_term : @ForceTerm RealArith :=
  @mkForceTerm RealArith sine_law ZeroPlanarForce 0%Z [].

(** The acceleration as the specification states it (section 4.3), in exact
    arithmetic: [phi] is the angle of the point [(x, y)], the one in
    [[0, 2 pi)] with [cos phi = x/R] and [sin phi = y/R]; the force laws are
    evaluated at that angle and the result is rotated back with its cosine
    and sine. *)
Definition is_polar_angle (x y phi : R) : Prop :=
  (0 <= phi < 2 * PI)%R
  /\ cos phi = (x / R_sqrt.sqrt (x * x + y * y))%R
  /\ sin phi = (y / R_sqrt.sqrt (x * x + y * y))%R.

Definition claimed_acceleration (x y phi : R) (ts : list (@ForceTerm RealArith))
  : R * R :=
  let r := R_sqrt.sqrt (x * x + y * y) in
  let Rforce := @sum_forces RealArith (@radial_force RealArith r phi) ts in
  let phiforce := @sum_forces RealArith (@angular_force RealArith r phi) ts in
  ((cos phi * Rforce - 1 / r * sin phi * phiforce)%R,
   (sin phi * Rforce + 1 / r * cos phi * phiforce)%R).

Definition AccelerationClaimAt (t x y : R) (ts : list (@ForceTerm RealArith)) : Prop :=
  (0 < R_sqrt.sqrt (x * x + y * y))%R ->
  forall phi, is_polar_angle x y phi ->
  forall (m : @mem RealArith) q a lfa aps,
    holds_terms m lfa ts aps -> holds_position m q x y -> room_for_two m a ->
    exists m' : @mem RealArith,
      @evalPlanarRectForce RealArith t q a (Z.of_nat (length ts)) lfa m = Ok tt m'
      /\ load_double a m' = Ok (fst (claimed_acceleration x y phi ts)) m'
      /\ load_double (ptr_add a 1) m' = Ok (snd (claimed_acceleration x y phi ts)) m'.

(** * Properties *)

(** ** Running the monad *)

Section Running.
Context {D : DoubleOps}.

Lemma bind_Ok {A B} (c : M A) (k : A -> M B) m a m' :
  c m = Ok a m' -> bind c k m = k a m'.
Proof. unfold bind. now intros ->. Qed.

Lemma Ok_inj {A} (a a' : A) (m m' : mem) :
  Ok a m = Ok a' m' -> a = a' /\ m = m'.
Proof. intros H. now inversion H. Qed.

Lemma ptr_add_add p i j : ptr_add (ptr_add p i) j = ptr_add p (i + j).
Proof. unfold ptr_add. simpl. f_equal. lia. Qed.

Lemma ptr_add_0 p : ptr_add p 0 = p.
Proof. destruct p. unfold ptr_add. simpl. f_equal. lia. Qed.

Lemma insert_mid {A} (l1 l2 : list A) x y k :
  length l1 = k -> <[k:=y]> (l1 ++ x :: l2) = l1 ++ y :: l2.
Proof.
  intros <-. rewrite insert_app_r_alt by lia. now rewrite Nat.sub_diag.
Qed.

Lemma at_off_nat {A} (l : list A) (i : nat) : at_off l (Z.of_nat i) = l !! i.
Proof.
  unfold at_off. destruct (Z.leb_spec 0 (Z.of_nat i)); [|lia].
  now rewrite Nat2Z.id.
Qed.

Lemma at_off_lookup {A} (l : list A) off v :
  (0 <= off)%Z -> l !! Z.to_nat off = Some v -> at_off l off = Some v.
Proof.
  unfold at_off. intros H. destruct (Z.leb_spec 0 off); [auto | lia].
Qed.

(** *** What a successful read tells, and reads in a memory that agrees *)

Lemma load_struct_inv p m s m' :
  load_struct p m = Ok s m' ->
  m' = m /\ exists ss, heap m !! pblock p = Some (StructArr ss)
                       /\ at_off ss (poff p) = Some s.
Proof.
  unfold load_struct. destruct (heap m !! pblock p) as [[ds|ss]|]; try discriminate.
  destruct (at_off ss (poff p)) eqn:E; try discriminate.
  intros [= <- <-]. eauto.
Qed.

Lemma load_struct_intro p m ss s :
  heap m !! pblock p = Some (StructArr ss) -> at_off ss (poff p) = Some s ->
  load_struct p m = Ok s m.
Proof. unfold load_struct. now intros -> ->. Qed.

Lemma load_double_inv p m v m' :
  load_double p m = Ok v m' ->
  m' = m /\ exists ds, heap m !! pblock p = Some (DoubleArr ds)
                       /\ at_off ds (poff p) = Some (Some v).
Proof.
  unfold load_double. destruct (heap m !! pblock p) as [[ds|ss]|]; try discriminate.
  destruct (at_off ds (poff p)) as [[w|]|] eqn:E; try discriminate.
  intros [= <- <-]. eauto.
Qed.

Lemma load_double_intro p m ds v :
  heap m !! pblock p = Some (DoubleArr ds) -> at_off ds (poff p) = Some (Some v) ->
  load_double p m = Ok v m.
Proof. unfold load_double. now intros -> ->. Qed.

Lemma load_double_agree p m m' v :
  heap m' !! pblock p = heap m !! pblock p ->
  load_double p m = Ok v m -> load_double p m' = Ok v m'.
Proof.
  intros E H. apply load_double_inv in H as (_ & ds & H1 & H2).
  eapply load_double_intro; [rewrite E; exact H1 | exact H2].
Qed.

Lemma load_doubles_agree n : forall p m m' vs,
  heap m' !! pblock p = heap m !! pblock p ->
  load_doubles n p m = Ok vs m -> load_doubles n p m' = Ok vs m'.
Proof.
  induction n as [|n IH]; intros p m m' vs E; simpl.
  - unfold ret. now intros [= <-].
  - unfold bind at 1. destruct (load_double p m) as [v m1|] eqn:E1; [|discriminate].
    pose proof (load_double_inv _ _ _ _ E1) as (-> & _).
    unfold bind at 1.
    destruct (load_doubles n (ptr_add p 1) m) as [ws m2|] eqn:E2; [|discriminate].
    unfold ret. intros [= <- ->].
    rewrite (bind_Ok _ _ _ _ _ (load_double_agree _ _ _ _ E E1)).
    now rewrite (bind_Ok _ _ _ _ _ (IH (ptr_add p 1) _ m' _ E E2)).
Qed.

Lemma load_struct_agree p m m' s :
  heap m' !! pblock p = heap m !! pblock p ->
  load_struct p m = Ok s m -> load_struct p m' = Ok s m'.
Proof.
  intros E H. apply load_struct_inv in H as (_ & ss & H1 & H2).
  eapply load_struct_intro; [rewrite E; exact H1 | exact H2].
Qed.

End Running.

(** ** The force evaluation *)

Section Evaluator.
Context {D : DoubleOps}.

Lemma get_field_Ok {A} (field : leapFuncArg -> option A) p m s v :
  load_struct p m = Ok s m -> field s = Some v -> get_field field p m = Ok v m.
Proof.
  intros H1 H2. unfold get_field. rewrite (bind_Ok _ _ _ _ _ H1). now rewrite H2.
Qed.

Lemma force_args_Ok m p tm a :
  holds_term m p tm a -> force_args p m = Ok (param_count tm, params tm) m.
Proof.
  intros [H1 H2]. unfold force_args.
  rewrite (bind_Ok _ _ _ _ _ (get_field_Ok nargs _ _ _ _ H1 eq_refl)).
  rewrite (bind_Ok _ _ _ _ _ (get_field_Ok args _ _ _ _ H1 eq_refl)).
  now rewrite (bind_Ok _ _ _ _ _ H2).
Qed.

(** One turn of either loop, on a memory that holds the term. *)
Ltac loop_turn H :=
  let H1 := fresh in
  pose proof H as [H1 _];
  erewrite bind_Ok by (eapply get_field_Ok; [exact H1 | reflexivity]);
  erewrite bind_Ok by (eapply force_args_Ok; exact H);
  unfold ret; simpl.

Lemma Rforce_loop R phi m : forall ts aps p acc,
  holds_terms m p ts aps ->
  for_loop (length ts)
    (fun '(Rforce, leapFuncArgs) =>
       f <- get_field planarRforce leapFuncArgs ;;
       na <- force_args leapFuncArgs ;;
       ret ((Rforce + f R phi (fst na) (snd na))%D, ptr_add leapFuncArgs 1))
    (acc, p) m
  = Ok (fold_left (fun acc tm => (acc + radial_force R phi tm)%D) ts acc,
        ptr_add p (Z.of_nat (length ts))) m.
Proof.
  induction ts as [|tm ts IH]; intros [|a aps] p acc; simpl; try done.
  - intros _. unfold ret. now rewrite ptr_add_0.
  - intros [H Hts]. erewrite bind_Ok; [|loop_turn H; reflexivity].
    rewrite (IH _ _ _ Hts), ptr_add_add. do 3 f_equal. lia.
Qed.

Lemma phiforce_loop R phi m : forall ts aps p acc,
  holds_terms m p ts aps ->
  for_loop (length ts)
    (fun '(phiforce, leapFuncArgs) =>
       f <- get_field planarphiforce leapFuncArgs ;;
       na <- force_args leapFuncArgs ;;
       ret ((phiforce + f R phi (fst na) (snd na))%D, ptr_add leapFuncArgs 1))
    (acc, p) m
  = Ok (fold_left (fun acc tm => (acc + angular_force R phi tm)%D) ts acc,
        ptr_add p (Z.of_nat (length ts))) m.
Proof.
  induction ts as [|tm ts IH]; intros [|a aps] p acc; simpl; try done.
  - intros _. unfold ret. now rewrite ptr_add_0.
  - intros [H Hts]. erewrite bind_Ok; [|loop_turn H; reflexivity].
    rewrite (IH _ _ _ Hts), ptr_add_add. do 3 f_equal. lia.
Qed.

Lemma calcPlanarRforce_sum R phi t m lfa ts aps :
  holds_terms m lfa ts aps ->
  calcPlanarRforce R phi t (Z.of_nat (length ts)) lfa m
  = Ok (sum_forces (radial_force R phi) ts) m.
Proof.
  intros H. unfold calcPlanarRforce. rewrite Nat2Z.id.
  now rewrite (bind_Ok _ _ _ _ _ (Rforce_loop R phi m _ _ _ d0 H)).
Qed.

Lemma calcPlanarphiforce_sum R phi t m lfa ts aps :
  holds_terms m lfa ts aps ->
  calcPlanarphiforce R phi t (Z.of_nat (length ts)) lfa m
  = Ok (sum_forces (angular_force R phi) ts) m.
Proof.
  intros H. unfold calcPlanarphiforce. rewrite Nat2Z.id.
  now rewrite (bind_Ok _ _ _ _ _ (phiforce_loop R phi m _ _ _ d0 H)).
Qed.

(** The memory after the two stores of [evalPlanarRectForce] to [a]. *)
Definition stored_two (m : mem) (a : ptr) (v w : double) (ds : list (option double)) : mem :=
  mkmem (<[pblock a := DoubleArr (<[Z.to_nat (poff a + 1) := Some w]>
                                   (<[Z.to_nat (poff a) := Some v]> ds))]>
           (<[pblock a := DoubleArr (<[Z.to_nat (poff a) := Some v]> ds)]> (heap m)))
        (nextblock m) (trace m).

Lemma evalPlanarRectForce_run m t q a lfa ts aps x y ds :
  holds_terms m lfa ts aps -> holds_position m q x y ->
  heap m !! pblock a = Some (DoubleArr ds) ->
  (0 <= poff a)%Z -> (Z.to_nat (poff a) + 1 < length ds)%nat ->
  evalPlanarRectForce t q a (Z.of_nat (length ts)) lfa m
  = Ok tt (stored_two m a (fst (spec_acceleration x y ts))
                      (snd (spec_acceleration x y ts)) ds).
Proof.
  intros Hts [Hx Hy] Ha H0 Hlen. unfold evalPlanarRectForce.
  rewrite (bind_Ok _ _ _ _ _ Hx), (bind_Ok _ _ _ _ _ Hy).
  rewrite (bind_Ok _ _ _ _ _ (calcPlanarRforce_sum _ _ t _ _ _ _ Hts)).
  rewrite (bind_Ok _ _ _ _ _ (calcPlanarphiforce_sum _ _ t _ _ _ _ Hts)).
  destruct (lookup_lt_is_Some_2 ds (Z.to_nat (poff a))) as [c0 Hc0]; [lia|].
  destruct (lookup_lt_is_Some_2 ds (Z.to_nat (poff a) + 1)) as [c1 Hc1]; [lia|].
  unfold bind, store_double. rewrite Ha, (at_off_lookup _ _ _ H0 Hc0). simpl.
  rewrite lookup_insert_eq.
  erewrite at_off_lookup; [reflexivity | lia |].
  rewrite Z2Nat.inj_add by lia. rewrite list_lookup_insert_ne by lia. exact Hc1.
Qed.

End Evaluator.

Section EvaluatorClaims.
Context {D : DoubleOps}.

Lemma stored_two_loads m a v w ds :
  heap m !! pblock a = Some (DoubleArr ds) ->
  (0 <= poff a)%Z -> (Z.to_nat (poff a) + 1 < length ds)%nat ->
  load_double a (stored_two m a v w ds) = Ok v (stored_two m a v w ds)
  /\ load_double (ptr_add a 1) (stored_two m a v w ds) = Ok w (stored_two m a v w ds).
Proof.
  intros Ha H0 Hlen. split.
  - eapply load_double_intro; [apply lookup_insert_eq|].
    apply at_off_lookup; [done|].
    rewrite list_lookup_insert_ne by lia.
    apply list_lookup_insert_eq. lia.
  - eapply load_double_intro; [apply lookup_insert_eq|].
    apply at_off_lookup; simpl; [lia|].
    apply list_lookup_insert_eq. rewrite length_insert. lia.
Qed.

Lemma stored_two_frame m a v w ds b :
  b <> pblock a -> heap (stored_two m a v w ds) !! b = heap m !! b.
Proof.
  intros Hb. simpl. now rewrite !lookup_insert_ne by done.
Qed.

(** C4, what the code does: on a memory that holds the Force Term Sequence
    [ts] and the position [(x, y)], the evaluator stores in [a] exactly
    [ax = cosphi * Rforce - 1/R * sinphi * phiforce] and
    [ay = sinphi * Rforce + 1/R * cosphi * phiforce], with [cosphi = x/R],
    [sinphi = y/R], and [Rforce], [phiforce] the sums over the sequence of
    [radial_force_fn (R, phi, param_count, params)] and
    [angular_force_fn (R, phi, param_count, params)], where the angle handed
    to the force laws is [phi = acos (x/R)] for [y >= 0] and
    [phi = acos (x/R) + 2 pi] for [y < 0].  This holds in any arithmetic,
    binary64 included, and whatever [R] is.  Below the x axis that [phi] is
    not an angle whose sine is [sinphi]. *)
Theorem evalPlanarRectForce_acceleration m t q a lfa ts aps x y :
  holds_terms m lfa ts aps -> holds_position m q x y -> room_for_two m a ->
  let R := dsqrt (x * x + y * y)%D in
  let phi := if (y <? d0)%D then (dacos (x / R) + d2 * M_PI)%D else dacos (x / R)%D in
  let cosphi := (x / R)%D in
  let sinphi := (y / R)%D in
  let Rforce :=
    fold_left (fun acc tm =>
      (acc + radial_force_fn tm R phi (param_count tm) (params tm))%D) ts d0 in
  let phiforce :=
    fold_left (fun acc tm =>
      (acc + angular_force_fn tm R phi (param_count tm) (params tm))%D) ts d0 in
  exists m',
    evalPlanarRectForce t q a (Z.of_nat (length ts)) lfa m = Ok tt m'
    /\ load_double a m' = Ok (cosphi * Rforce - d1 / R * sinphi * phiforce)%D m'
    /\ load_double (ptr_add a 1) m'
       = Ok (sinphi * Rforce + d1 / R * cosphi * phiforce)%D m'.
Proof.
  intros Hts Hq (ds & Ha & H0 & Hlen). simpl.
  eexists. split; [eapply evalPlanarRectForce_run; eauto|].
  apply stored_two_loads; auto.
Qed.

(** C7: the evaluator is a function of [(t, x, y)] and of the Force Term
    Sequence alone, and leaves the sequence as it was.  Two calls, in any two
    memories that hold the same sequence [ts] and the same position (for
    instance before and after other calls), store the same acceleration; a
    call changes nothing but the block of [a], allocates and frees nothing,
    and the memory still holds [ts] afterwards, provided [a] is not one of
    the parameter buffers. *)
Theorem evalPlanarRectForce_pure t x y ts m1 q1 a1 lfa1 aps1 m2 q2 a2 lfa2 aps2 :
  holds_terms m1 lfa1 ts aps1 -> holds_position m1 q1 x y -> room_for_two m1 a1 ->
  Forall (fun p => pblock p <> pblock a1) aps1 ->
  holds_terms m2 lfa2 ts aps2 -> holds_position m2 q2 x y -> room_for_two m2 a2 ->
  Forall (fun p => pblock p <> pblock a2) aps2 ->
  exists m1' m2' ax ay,
    evalPlanarRectForce t q1 a1 (Z.of_nat (length ts)) lfa1 m1 = Ok tt m1'
    /\ evalPlanarRectForce t q2 a2 (Z.of_nat (length ts)) lfa2 m2 = Ok tt m2'
    /\ load_double a1 m1' = Ok ax m1' /\ load_double (ptr_add a1 1) m1' = Ok ay m1'
    /\ load_double a2 m2' = Ok ax m2' /\ load_double (ptr_add a2 1) m2' = Ok ay m2'
    /\ holds_terms m1' lfa1 ts aps1 /\ holds_terms m2' lfa2 ts aps2
    /\ (forall b, b <> pblock a1 -> heap m1' !! b = heap m1 !! b)
    /\ nextblock m1' = nextblock m1 /\ trace m1' = trace m1.
Proof.
  intros Hts1 Hq1 (ds1 & Ha1 & H01 & Hlen1) Hno1 Hts2 Hq2 (ds2 & Ha2 & H02 & Hlen2) Hno2.
  assert (Hframe : forall m a ds lfa aps v w,
             heap m !! pblock a = Some (DoubleArr ds) ->
             Forall (fun p => pblock p <> pblock a) aps ->
             holds_terms m lfa ts aps ->
             holds_terms (stored_two m a v w ds) lfa ts aps).
  { clear. intros m a ds lfa aps v w Ha Hno.
    assert (Hgen : forall ts0 aps0 p, pblock p = pblock lfa ->
               Forall (fun p => pblock p <> pblock a) aps0 ->
               holds_terms m p ts0 aps0 -> holds_terms (stored_two m a v w ds) p ts0 aps0).
    { induction ts0 as [|tm ts0 IH]; intros [|a0 aps0] p Hp Hn; simpl; try done.
      intros [[H1 H2] H3]. apply Forall_cons in Hn as [Hn0 Hn].
      assert (pblock p <> pblock a).
      { intros E. apply load_struct_inv in H1 as (_ & ss & Hss & _).
        rewrite E, Ha in Hss. discriminate. }
      split; [split|].
      - eapply load_struct_agree; [|exact H1]. now apply stored_two_frame.
      - eapply load_doubles_agree; [|exact H2]. now apply stored_two_frame.
      - apply IH; auto. }
    now apply Hgen. }
  exists (stored_two m1 a1 (fst (spec_acceleration x y ts)) (snd (spec_acceleration x y ts)) ds1),
         (stored_two m2 a2 (fst (spec_acceleration x y ts)) (snd (spec_acceleration x y ts)) ds2),
         (fst (spec_acceleration x y ts)), (snd (spec_acceleration x y ts)).
  repeat split.
  - eapply evalPlanarRectForce_run; eauto.
  - eapply evalPlanarRectForce_run; eauto.
  - now apply stored_two_loads.
  - now apply stored_two_loads.
  - now apply stored_two_loads.
  - now apply stored_two_loads.
  - now apply Hframe.
  - now apply Hframe.
  - intros b Hb. now apply stored_two_frame.
Qed.

End EvaluatorClaims.

(** ** Weakest preconditions for the stateful code *)

Section WP.
Context {D : DoubleOps}.

(** [c] runs from [m] without fault and ends in a result and memory in [Q]. *)
Definition wp {A} (c : M A) (Q : A -> mem -> Prop) (m : mem) : Prop :=
  match c m with
  | Ok a m' => Q a m'
  | Fault _ _ => False
  end.

Lemma wp_elim {A} (c : M A) Q m :
  wp c Q m -> exists a m', c m = Ok a m' /\ Q a m'.
Proof. unfold wp. destruct (c m); [eauto | done]. Qed.

Lemma wp_intro {A} (c : M A) (Q : A -> mem -> Prop) m a m' :
  c m = Ok a m' -> Q a m' -> wp c Q m.
Proof. unfold wp. now intros ->. Qed.

Lemma wp_mono {A} (c : M A) (Q Q' : A -> mem -> Prop) m :
  wp c Q m -> (forall a m', Q a m' -> Q' a m') -> wp c Q' m.
Proof. unfold wp. destruct (c m); [auto | done]. Qed.

Lemma wp_ret {A} (a : A) (Q : A -> mem -> Prop) m : Q a m -> wp (ret a) Q m.
Proof. done. Qed.

Lemma wp_bind {A B} (c : M A) (k : A -> M B) Q m :
  wp c (fun a m' => wp (k a) Q m') m -> wp (bind c k) Q m.
Proof. unfold wp, bind. destruct (c m); [auto | done]. Qed.

(** The loop rule: [I k] holds before turn [k]. *)
Lemma wp_for_loop {S} (I : nat -> S -> mem -> Prop) (body : S -> M S) :
  forall n s m,
  I 0%nat s m ->
  (forall k s m, (k < n)%nat -> I k s m -> wp (body s) (I (Datatypes.S k)) m) ->
  wp (for_loop n body s) (I n) m.
Proof.
  intros n. revert I. induction n as [|n IH]; intros I s m H0 Hstep; simpl.
  - now apply wp_ret.
  - apply wp_bind. eapply wp_mono; [apply (Hstep 0%nat); [lia | exact H0]|].
    intros s' m' H1. apply (IH (fun k => I (Datatypes.S k))); [exact H1|].
    intros k s1 m1 Hk. apply Hstep. lia.
Qed.

Lemma wp_read_input {A} (l : list A) i v (Q : A -> mem -> Prop) m :
  at_off l i = Some v -> Q v m -> wp (read_input l i) Q m.
Proof. unfold read_input. now intros ->. Qed.

Lemma wp_get_field {A} (field : leapFuncArg -> option A) p ss s v
  (Q : A -> mem -> Prop) m :
  heap m !! pblock p = Some (StructArr ss) -> at_off ss (poff p) = Some s ->
  field s = Some v -> Q v m -> wp (get_field field p) Q m.
Proof.
  intros H1 H2 H3 HQ. eapply wp_intro; [|exact HQ].
  eapply get_field_Ok; [eapply load_struct_intro|]; eauto.
Qed.

(** Every [p->field = v] is a read of the element followed by a write. *)
Lemma wp_update (g : leapFuncArg -> leapFuncArg) p ss s (Q : unit -> mem -> Prop) m :
  heap m !! pblock p = Some (StructArr ss) -> at_off ss (poff p) = Some s ->
  Q tt (mkmem (<[pblock p := StructArr (<[Z.to_nat (poff p) := g s]> ss)]> (heap m))
              (nextblock m) (trace m)) ->
  wp (s <- load_struct p ;; store_struct p (g s)) Q m.
Proof.
  intros H1 H2 HQ. eapply wp_intro; [|exact HQ].
  rewrite (bind_Ok _ _ _ _ _ (load_struct_intro _ _ _ _ H1 H2)).
  unfold store_struct. now rewrite H1, H2.
Qed.

Lemma wp_store_double p v ds c (Q : unit -> mem -> Prop) m :
  heap m !! pblock p = Some (DoubleArr ds) -> at_off ds (poff p) = Some c ->
  Q tt (mkmem (<[pblock p := DoubleArr (<[Z.to_nat (poff p) := Some v]> ds)]> (heap m))
              (nextblock m) (trace m)) ->
  wp (store_double p v) Q m.
Proof.
  intros H1 H2 HQ. eapply wp_intro; [|exact HQ].
  unfold store_double. now rewrite H1, H2.
Qed.

Lemma wp_malloc v (Q : ptr -> mem -> Prop) m :
  Q (mkptr (nextblock m) 0)
    (mkmem (<[nextblock m := v]> (heap m)) (S (nextblock m))
           (trace m ++ [EvMalloc (nextblock m)])) ->
  wp (malloc v) Q m.
Proof. done. Qed.

Lemma wp_free p v (Q : unit -> mem -> Prop) m :
  heap m !! pblock p = Some v -> poff p = 0%Z ->
  Q tt (mkmem (delete (pblock p) (heap m)) (nextblock m)
              (trace m ++ [EvFree (pblock p)])) ->
  wp (free p) Q m.
Proof.
  intros H1 H2 HQ. eapply wp_intro; [|exact HQ].
  unfold free. now rewrite H1, H2.
Qed.

End WP.

(** ** Runs that end in a fault *)

Section FaultRules.
Context {D : DoubleOps}.

(** [c] runs from [m] into a fault, with the fault and memory in [Q]. *)
Definition faults_with {A} (c : M A) (Q : fault -> mem -> Prop) (m : mem) : Prop :=
  match c m with
  | Ok _ _ => False
  | Fault f m' => Q f m'
  end.

Lemma faults_elim {A} (c : M A) Q m :
  faults_with c Q m -> exists f m', c m = Fault f m' /\ Q f m'.
Proof. unfold faults_with. destruct (c m); [done | eauto]. Qed.

Lemma faults_mono {A} (c : M A) (Q Q' : fault -> mem -> Prop) m :
  faults_with c Q m -> (forall f m', Q f m' -> Q' f m') -> faults_with c Q' m.
Proof. unfold faults_with. destruct (c m); [done | auto]. Qed.

Lemma faults_bind_later {A B} (c : M A) (k : A -> M B) Q m :
  wp c (fun a m' => faults_with (k a) Q m') m -> faults_with (bind c k) Q m.
Proof. unfold wp, faults_with, bind. destruct (c m); [auto | done]. Qed.

Lemma faults_bind_now {A B} (c : M A) (k : A -> M B) Q m :
  faults_with c Q m -> faults_with (bind c k) Q m.
Proof. unfold faults_with, bind. destruct (c m); [done | auto]. Qed.

(** A loop whose turns [0 .. j-1] run and whose turn [j] faults. *)
Lemma faults_for_loop {S} (I : nat -> S -> mem -> Prop) (body : S -> M S) Q :
  forall n j s m,
  (j < n)%nat -> I 0%nat s m ->
  (forall k s m, (k < j)%nat -> I k s m -> wp (body s) (I (Datatypes.S k)) m) ->
  (forall s m, I j s m -> faults_with (body s) Q m) ->
  faults_with (for_loop n body s) Q m.
Proof.
  intros n j. revert n I. induction j as [|j IH]; intros n I s m Hj H0 Hstep Hfault.
  - destruct n as [|n]; [lia|]. simpl. apply faults_bind_now. now apply Hfault.
  - destruct n as [|n]; [lia|]. simpl. apply faults_bind_later.
    eapply wp_mono; [apply (Hstep 0%nat); [lia | exact H0]|].
    intros s' m' H1. apply (IH n (fun k => I (Datatypes.S k))); [lia | exact H1 | |].
    + intros k s1 m1 Hk. apply Hstep. lia.
    + exact Hfault.
Qed.

Lemma faults_get_field {A} (field : leapFuncArg -> option A) p ss s
  (Q : fault -> mem -> Prop) m :
  heap m !! pblock p = Some (StructArr ss) -> at_off ss (poff p) = Some s ->
  field s = None -> Q UninitRead m -> faults_with (get_field field p) Q m.
Proof.
  intros H1 H2 H3 HQ. unfold faults_with, get_field.
  rewrite (bind_Ok _ _ _ _ _ (load_struct_intro _ _ _ _ H1 H2)). now rewrite H3.
Qed.

Lemma faults_read_input {A} (l : list A) i (Q : fault -> mem -> Prop) m :
  at_off l i = None -> Q OutOfBounds m -> faults_with (read_input l i) Q m.
Proof. unfold faults_with, read_input. now intros ->. Qed.

End FaultRules.

Ltac heap_lookup :=
  cbn [heap pblock ptr_add];
  repeat (rewrite lookup_insert_ne by (cbn [pblock]; lia));
  first [apply lookup_insert_eq | eassumption].

Ltac field_update Hlen :=
  eapply wp_update;
  [ heap_lookup
  | cbn [poff]; rewrite at_off_nat; apply list_lookup_middle; symmetry; exact Hlen
  | cbn [pblock poff heap nextblock trace planarRforce planarphiforce nargs args
         indeterminate];
    rewrite Nat2Z.id, (insert_mid _ _ _ _ _ Hlen) ].

Ltac store_dbl :=
  eapply wp_store_double;
  [ heap_lookup | reflexivity | cbn [pblock poff heap nextblock trace ptr_add] ].

Ltac field_read Hlen :=
  eapply wp_get_field;
  [ heap_lookup
  | cbn [poff]; rewrite at_off_nat; apply list_lookup_middle; symmetry; exact Hlen
  | reflexivity
  | cbn [pblock poff heap nextblock trace] ].

(** ** The set-up loop *)

Section Setup.
Context {D : DoubleOps}.
Variable LH : force_fn.

Lemma zeros_app l1 l2 : zeros (l1 ++ l2) = (zeros l1 + zeros l2)%nat.
Proof. induction l1 as [|c l1 IH]; simpl; [done|]. destruct c; lia. Qed.

Lemma length_slots_of codes : forall blk, length (slots_of LH codes blk) = length codes.
Proof.
  induction codes as [|c codes IH]; intros blk; simpl; [done|].
  destruct c; simpl; now rewrite IH.
Qed.

Lemma slots_of_app l1 l2 : forall blk,
  slots_of LH (l1 ++ l2) blk = slots_of LH l1 blk ++ slots_of LH l2 (blk + zeros l1).
Proof.
  induction l1 as [|c l1 IH]; intros blk; simpl.
  - now rewrite Nat.add_0_r.
  - destruct c; simpl; rewrite IH; [|done..].
    now replace (blk + S (zeros l1))%nat with (S blk + zeros l1)%nat by lia.
Qed.

Lemma zeros_take_le (l : list Z) k : (zeros (take k l) <= zeros l)%nat.
Proof. rewrite <- (take_drop k l) at 2. rewrite zeros_app. lia. Qed.

Lemma zeros_all l : Forall (fun c => c = 0%Z) l -> zeros l = length l.
Proof. induction 1 as [|c l -> _ IH]; simpl; [done | now rewrite IH]. Qed.

Lemma slots_of_all l : forall blk,
  Forall (fun c => c = 0%Z) l ->
  slots_of LH l blk = map (fun i => built_slot LH (blk + i)) (seq 0 (length l)).
Proof.
  induction l as [|c l IH]; intros blk H; simpl; [done|].
  apply Forall_cons in H as [-> H]. rewrite Nat.add_0_r. f_equal.
  rewrite (IH (S blk) H), <- seq_shift, map_map. apply map_ext. intros i. f_equal. lia.
Qed.

Lemma built_params_two (pot_args : list double) k v0 v1 :
  pot_args !! (2 * k)%nat = Some v0 -> pot_args !! (2 * k + 1)%nat = Some v1 ->
  built_params pot_args k = [v0; v1].
Proof.
  intros H0 H1. unfold built_params.
  apply list_eq. intros [|[|i]]; simpl.
  - rewrite lookup_take_lt by lia. rewrite lookup_drop. now rewrite Nat.add_0_r.
  - rewrite lookup_take_lt by lia. now rewrite lookup_drop.
  - rewrite lookup_take_ge by lia. done.
Qed.

Variable pot_type : list Z.
Variable pot_args : list double.
Variable m0 : mem.

(** Before turn [k] of the set-up loop: the first [k] elements are set up as
    their codes say, [zeros (take k pot_type)] parameter buffers are
    allocated and filled, and nothing else has changed. *)
Definition setup_inv (k : nat) (s : ptr * Z * Z) (m : mem) : Prop :=
  let b := nextblock m0 in
  let z := zeros (take k pot_type) in
  s = (mkptr b (Z.of_nat k), Z.of_nat k, Z.of_nat (2 * z))
  /\ nextblock m = (b + 1 + z)%nat
  /\ trace m = trace m0 ++ EvMalloc b :: map EvMalloc (seq (b + 1) z)
  /\ heap m !! b = Some (StructArr (slots_of LH (take k pot_type) (b + 1)
                                     ++ replicate (length pot_type - k) indeterminate))
  /\ (forall i, (i < z)%nat ->
        heap m !! (b + 1 + i)%nat = Some (DoubleArr (map Some (built_params pot_args i))))
  /\ (forall b', (b' < b \/ b + 1 + z <= b')%nat -> heap m !! b' = heap m0 !! b').

Lemma setup_inv_init :
  setup_inv 0 (mkptr (nextblock m0) 0, 0%Z, 0%Z)
    (mkmem (<[nextblock m0 := StructArr (replicate (length pot_type) indeterminate)]>
              (heap m0))
           (S (nextblock m0)) (trace m0 ++ [EvMalloc (nextblock m0)])).
Proof.
  unfold setup_inv. rewrite take_0. cbn [heap nextblock trace zeros slots_of app seq map].
  repeat split.
  - lia.
  - rewrite lookup_insert_eq. now rewrite Nat.sub_0_r.
  - intros i Hi. lia.
  - intros b' Hb'. apply lookup_insert_ne. lia.
Qed.

(** One turn of the set-up loop, when [pot_args] holds the values that the
    first [k + 1] codes need. *)
Lemma setup_body_turn k s m :
  (k < length pot_type)%nat ->
  (2 * zeros (take (S k) pot_type) <= length pot_args)%nat ->
  setup_inv k s m ->
  wp (setup_body LH pot_type pot_args s) (setup_inv (S k)) m.
Proof.
  intros Hk Hle (-> & Hnb & Htr & Hb & Hargs & Hfr).
  set (b := nextblock m0) in *. set (z := zeros (take k pot_type)) in *.
  destruct (lookup_lt_is_Some_2 pot_type k Hk) as [c Hc].
  assert (Htake : take (S k) pot_type = take k pot_type ++ [c]) by now apply take_S_r.
  destruct (length pot_type - k)%nat as [|r] eqn:Hr; [lia|]. simpl replicate in Hb.
  assert (Hlen : length (slots_of LH (take k pot_type) (b + 1)) = k)
    by (rewrite length_slots_of, length_take; lia).
  unfold setup_body.
  apply wp_bind. eapply wp_read_input; [rewrite at_off_nat; exact Hc|].
  assert (Hrest : (length pot_type - S k)%nat = r) by lia.
  destruct c as [|c|c].
  2,3: cbv beta iota; apply wp_bind, wp_ret, wp_ret;
       unfold setup_inv; fold b; rewrite Htake, zeros_app, slots_of_app, Hrest;
       cbn [zeros slots_of]; rewrite Nat.add_0_r; fold z;
       (split; [unfold ptr_add; cbn [pblock poff]; repeat f_equal; lia|]);
       rewrite <- app_assoc; cbn [app]; auto.
  rewrite Htake, zeros_app in Hle. cbn [zeros] in Hle. fold z in Hle.
  destruct (lookup_lt_is_Some_2 pot_args (2 * z)) as [v0 Hv0]; [lia|].
  destruct (lookup_lt_is_Some_2 pot_args (2 * z + 1)) as [v1 Hv1]; [lia|].
  cbv iota beta.
  apply wp_bind. apply wp_bind. unfold set_planarRforce. field_update Hlen.
  apply wp_bind. unfold set_planarphiforce. field_update Hlen.
  apply wp_bind. unfold set_nargs. field_update Hlen.
  apply wp_bind. field_read Hlen.
  apply wp_bind. apply wp_malloc. cbn [heap nextblock trace]. rewrite Hnb.
  change (replicate (Z.to_nat 2) None) with [@None double; None].
  apply wp_bind. unfold set_args. field_update Hlen.
  unfold copy_args.
  apply wp_bind. field_read Hlen.
  change (Z.to_nat 2) with 2%nat. cbn [for_loop].
  apply wp_bind. apply wp_bind. apply wp_bind.
  eapply wp_read_input; [rewrite at_off_nat; exact Hv0|].
  apply wp_bind. field_read Hlen.
  apply wp_bind. store_dbl.
  apply wp_bind. field_read Hlen.
  apply wp_bind. unfold set_args. field_update Hlen.
  apply wp_ret. apply wp_bind. apply wp_bind.
  eapply wp_read_input;
    [replace (Z.of_nat (2 * z) + 1)%Z with (Z.of_nat (2 * z + 1)) by lia;
     rewrite at_off_nat; exact Hv1|].
  apply wp_bind. field_read Hlen.
  apply wp_bind. store_dbl.
  apply wp_bind. field_read Hlen.
  apply wp_bind. unfold set_args. field_update Hlen.
  apply wp_ret. apply wp_ret.
  apply wp_bind. field_read Hlen.
  apply wp_bind. field_read Hlen.
  apply wp_bind. unfold set_args. field_update Hlen.
  apply wp_ret. apply wp_ret.
  unfold setup_inv. fold b. rewrite Htake, zeros_app, slots_of_app, Hrest.
  cbn [zeros slots_of]. fold z. cbn [heap nextblock trace].
  replace (z + 1)%nat with (S z) by lia.
  split; [|split; [|split; [|split; [|split]]]].
  - unfold ptr_add. cbn [pblock poff]. repeat f_equal; lia.
  - lia.
  - rewrite Htr, seq_S, map_app, <- app_assoc. reflexivity.
  - rewrite lookup_insert_eq. do 2 f_equal.
    rewrite <- app_assoc. cbn [app]. reflexivity.
  - intros i Hi. destruct (decide (i = z)) as [->|Hne].
    + rewrite !(lookup_insert_ne _ b) by lia. rewrite lookup_insert_eq.
      now rewrite (built_params_two _ _ _ _ Hv0 Hv1).
    + repeat (rewrite lookup_insert_ne by lia). apply Hargs. lia.
  - intros b' Hb'. repeat (rewrite lookup_insert_ne by lia). apply Hfr. lia.
Qed.

(** A turn for a code [0] with fewer than two values left to read: the
    buffer is allocated, then the copy reads past the end of [pot_args]. *)
Lemma setup_body_short k s m :
  pot_type !! k = Some 0%Z ->
  (length pot_args < 2 * zeros (take k pot_type) + 2)%nat ->
  setup_inv k s m ->
  faults_with (setup_body LH pot_type pot_args s)
    (fun f m' =>
       f = OutOfBounds
       /\ trace m' = trace m0 ++ map EvMalloc (seq (nextblock m0)
                                                (2 + zeros (take k pot_type)))) m.
Proof.
  intros Hc Hshort (-> & Hnb & Htr & Hb & Hargs & Hfr).
  set (b := nextblock m0) in *. set (z := zeros (take k pot_type)) in *.
  pose proof (lookup_lt_Some _ _ _ Hc) as Hk.
  destruct (length pot_type - k)%nat as [|r] eqn:Hr; [lia|]. simpl replicate in Hb.
  assert (Hlen : length (slots_of LH (take k pot_type) (b + 1)) = k)
    by (rewrite length_slots_of, length_take; lia).
  assert (Hend : forall tr, tr = trace m ++ [EvMalloc (b + 1 + z)%nat] ->
            tr = trace m0 ++ map EvMalloc (seq b (2 + z))).
  { intros tr ->. rewrite Htr. replace (2 + z)%nat with (S (S z)) by lia.
    rewrite (seq_S (S z)). cbn [seq]. rewrite map_app. cbn [map app].
    rewrite <- app_assoc. cbn [app].
    replace (S b) with (b + 1)%nat by lia.
    now replace (b + S z)%nat with (b + 1 + z)%nat by lia. }
  unfold setup_body.
  apply faults_bind_later. eapply wp_read_input; [rewrite at_off_nat; exact Hc|].
  cbv iota beta. apply faults_bind_now.
  apply faults_bind_later. unfold set_planarRforce. field_update Hlen.
  apply faults_bind_later. unfold set_planarphiforce. field_update Hlen.
  apply faults_bind_later. unfold set_nargs. field_update Hlen.
  apply faults_bind_later. field_read Hlen.
  apply faults_bind_later. apply wp_malloc. cbn [heap nextblock trace]. rewrite Hnb.
  change (replicate (Z.to_nat 2) None) with [@None double; None].
  apply faults_bind_later. unfold set_args. field_update Hlen.
  unfold copy_args.
  apply faults_bind_later. field_read Hlen.
  change (Z.to_nat 2) with 2%nat. cbn [for_loop].
  apply faults_bind_now.
  destruct (decide (2 * z < length pot_args)%nat) as [Hone|Hnone].
  - destruct (lookup_lt_is_Some_2 pot_args (2 * z)) as [v0 Hv0]; [lia|].
    apply faults_bind_later. apply wp_bind.
    eapply wp_read_input; [rewrite at_off_nat; exact Hv0|].
    apply wp_bind. field_read Hlen.
    apply wp_bind. store_dbl.
    apply wp_bind. field_read Hlen.
    apply wp_bind. unfold set_args. field_update Hlen.
    apply wp_ret. apply faults_bind_now, faults_bind_now.
    apply faults_read_input.
    + replace (Z.of_nat (2 * z) + 1)%Z with (Z.of_nat (2 * z + 1)) by lia.
      rewrite at_off_nat. apply lookup_ge_None_2. lia.
    + cbn [trace]. split; [done | now apply Hend].
  - apply faults_bind_now, faults_bind_now. apply faults_read_input.
    + rewrite at_off_nat. apply lookup_ge_None_2. lia.
    + cbn [trace]. split; [done | now apply Hend].
Qed.

(** The first code [0] for which [pot_args] has fewer than two values
    left. *)
Lemma first_short_code :
  (length pot_args < 2 * zeros pot_type)%nat ->
  exists k,
    pot_type !! k = Some 0%Z
    /\ (2 * zeros (take k pot_type) <= length pot_args)%nat
    /\ (length pot_args < 2 * zeros (take k pot_type) + 2)%nat.
Proof.
  intros Hshort.
  assert (Hgen : forall n, (length pot_args < 2 * zeros (take n pot_type))%nat ->
            exists k, pot_type !! k = Some 0%Z
                      /\ (2 * zeros (take k pot_type) <= length pot_args)%nat
                      /\ (length pot_args < 2 * zeros (take k pot_type) + 2)%nat).
  { induction n as [|n IH]; intros Hn.
    - rewrite take_0 in Hn. simpl in Hn. lia.
    - destruct (decide (length pot_args < 2 * zeros (take n pot_type))%nat) as [Hlt|Hge];
        [now apply IH|].
      destruct (pot_type !! n) as [c|] eqn:Hc.
      + rewrite (take_S_r _ _ _ Hc), zeros_app in Hn.
        destruct c as [|c|c]; cbn [zeros] in Hn; [|lia..].
        exists n. split; [exact Hc | lia].
      + apply lookup_ge_None_1 in Hc.
        rewrite !take_ge in * by lia. lia. }
  apply (Hgen (length pot_type)). now rewrite firstn_all.
Qed.

Lemma setup_forces_short :
  (length pot_args < 2 * zeros pot_type)%nat ->
  faults_with (setup_forces LH (Z.of_nat (length pot_type)) pot_type pot_args)
    (fun f m' =>
       f = OutOfBounds
       /\ trace m' = trace m0 ++ map EvMalloc (seq (nextblock m0)
                                                (2 + length pot_args / 2))) m0.
Proof.
  intros Hshort. destruct (first_short_code Hshort) as (k0 & Hc & Hle & Hlt).
  pose proof (lookup_lt_Some _ _ _ Hc) as Hk0.
  unfold setup_forces, malloc_structs. rewrite Nat2Z.id.
  apply faults_bind_later, wp_malloc. apply faults_bind_now.
  eapply (faults_for_loop (setup_inv));
    [exact Hk0 | apply setup_inv_init | |].
  - intros k s m Hk Hinv. apply setup_body_turn; [lia | | exact Hinv].
    pose proof (zeros_take_le (take k0 pot_type) (S k)) as Hmono.
    rewrite take_take, Nat.min_l in Hmono by lia. lia.
  - intros s m Hinv.
    eapply faults_mono; [apply (setup_body_short k0); eauto|].
    intros f m' (-> & ->). split; [done|]. do 3 f_equal.
    assert (length pot_args / 2 = zeros (take k0 pot_type))%nat; [|lia].
    symmetry. apply Nat.div_unique with (length pot_args - 2 * zeros (take k0 pot_type))%nat; lia.
Qed.

Hypothesis enough_args : (2 * zeros pot_type <= length pot_args)%nat.

Lemma setup_body_step k s m :
  (k < length pot_type)%nat -> setup_inv k s m ->
  wp (setup_body LH pot_type pot_args s) (setup_inv (S k)) m.
Proof.
  intros Hk. apply setup_body_turn; [exact Hk|].
  pose proof (zeros_take_le pot_type (S k)). lia.
Qed.

(** The set-up never faults, whatever the codes: it returns the first
    element's address and the two read positions, in a memory described by
    [setup_inv]. *)
Lemma setup_forces_wp :
  wp (setup_forces LH (Z.of_nat (length pot_type)) pot_type pot_args)
     (fun s m =>
        s = (mkptr (nextblock m0) 0, Z.of_nat (length pot_type),
             Z.of_nat (2 * zeros pot_type))
        /\ setup_inv (length pot_type)
             (mkptr (nextblock m0) (Z.of_nat (length pot_type)),
              Z.of_nat (length pot_type), Z.of_nat (2 * zeros pot_type)) m) m0.
Proof.
  unfold setup_forces, malloc_structs. rewrite Nat2Z.id.
  apply wp_bind, wp_malloc. apply wp_bind.
  eapply wp_mono;
    [apply (wp_for_loop setup_inv); [apply setup_inv_init | apply setup_body_step]|].
  intros s m Hinv. pose proof Hinv as (-> & _). apply wp_ret.
  rewrite firstn_all in *. split; [|exact Hinv].
  unfold ptr_add. cbn [pblock poff]. repeat f_equal. lia.
Qed.

End Setup.

(** ** The freeing loop *)

Section Release.
Context {D : DoubleOps}.
Variable LH : force_fn.
Variable m0 : mem.
Variable ss : list leapFuncArg.
Variables j z : nat.
Hypothesis prefix_built :
  forall i, (i < j)%nat -> ss !! i = Some (built_slot LH (nextblock m0 + 1 + i)).
Hypothesis j_le_z : (j <= z)%nat.

(** Before turn [k] of the freeing loop: the array is as the set-up left it,
    the first [k] parameter buffers are freed, in order, and the others are
    still allocated. *)
Definition free_inv (tr1 : list event) (k : nat) (p : ptr) (m : mem) : Prop :=
  let b := nextblock m0 in
  p = mkptr b (Z.of_nat k)
  /\ nextblock m = (b + 1 + z)%nat
  /\ trace m = tr1 ++ map EvFree (seq (b + 1) k)
  /\ heap m !! b = Some (StructArr ss)
  /\ (forall i, (k <= i < z)%nat -> is_Some (heap m !! (b + 1 + i)%nat))
  /\ (forall i, (i < k)%nat -> heap m !! (b + 1 + i)%nat = None)
  /\ (forall b', (b' < b \/ b + 1 + z <= b')%nat -> heap m !! b' = heap m0 !! b').

Lemma free_body_step tr1 k p m :
  (k < j)%nat -> free_inv tr1 k p m ->
  wp (a <- get_field args p ;; free a ;; ret (ptr_add p 1)) (free_inv tr1 (S k)) m.
Proof.
  intros Hk (-> & Hnb & Htr & Hb & Hlive & Hdead & Hfr).
  set (b := nextblock m0) in *.
  destruct (Hlive k) as [v Hv]; [lia|].
  apply wp_bind.
  eapply wp_get_field;
    [ exact Hb
    | cbn [poff]; rewrite at_off_nat; apply prefix_built; lia
    | reflexivity | ].
  apply wp_bind. eapply wp_free; [exact Hv | reflexivity |]. apply wp_ret.
  unfold free_inv. fold b. cbn [heap nextblock trace pblock].
  split; [|split; [|split; [|split; [|split; [|split]]]]].
  - unfold ptr_add. cbn [pblock poff]. f_equal. lia.
  - exact Hnb.
  - rewrite Htr, seq_S, map_app, app_assoc. reflexivity.
  - rewrite lookup_delete_ne by lia. exact Hb.
  - intros i Hi. rewrite lookup_delete_ne by lia. apply Hlive. lia.
  - intros i Hi. destruct (decide (i = k)) as [->|Hne].
    + apply lookup_delete_eq.
    + rewrite lookup_delete_ne by lia. apply Hdead. lia.
  - intros b' Hb'. rewrite lookup_delete_ne by lia. now apply Hfr.
Qed.

(** Every element set up: the loop frees every buffer, then the array. *)
Lemma free_forces_wp m tr1 :
  j = z ->
  free_inv tr1 0 (mkptr (nextblock m0) 0) m ->
  wp (free_forces (Z.of_nat j) (mkptr (nextblock m0) 0))
     (fun _ m' =>
        trace m' = tr1 ++ map EvFree (seq (nextblock m0 + 1) j) ++ [EvFree (nextblock m0)]
        /\ nextblock m' = (nextblock m0 + 1 + j)%nat
        /\ forall b', heap m' !! b'
                      = if decide (nextblock m0 <= b' < nextblock m0 + 1 + j)%nat
                        then None else heap m0 !! b') m.
Proof.
  intros Hjz H0. unfold free_forces. rewrite Nat2Z.id. apply wp_bind.
  eapply wp_mono;
    [apply (wp_for_loop (free_inv tr1)); [exact H0 | apply free_body_step]|].
  intros p m1 (-> & Hnb & Htr & Hb & Hlive & Hdead & Hfr).
  set (b := nextblock m0) in *.
  eapply wp_free; [exact Hb | unfold ptr_add; cbn [poff]; lia |].
  cbn [heap nextblock trace pblock ptr_add]. split; [|split].
  - now rewrite Htr, <- app_assoc.
  - lia.
  - intros b'. destruct (decide (b' = b)) as [->|Hne].
    + rewrite lookup_delete_eq. now rewrite decide_True by lia.
    + rewrite lookup_delete_ne by done.
      destruct (decide (b <= b' < b + 1 + j)%nat) as [Hin|Hout].
      * replace b' with (b + 1 + (b' - b - 1))%nat by lia. apply Hdead. lia.
      * apply Hfr. lia.
Qed.

(** Element [j] not set up: the loop frees [j] buffers and then reads the
    [args] that nothing has written. *)
Lemma free_forces_faults n m tr1 :
  (j < n)%nat -> ss !! j = Some indeterminate ->
  free_inv tr1 0 (mkptr (nextblock m0) 0) m ->
  faults_with (free_forces (Z.of_nat n) (mkptr (nextblock m0) 0))
     (fun f m' =>
        f = UninitRead
        /\ trace m' = tr1 ++ map EvFree (seq (nextblock m0 + 1) j)
        /\ heap m' !! nextblock m0 = Some (StructArr ss)
        /\ forall i, (j <= i < z)%nat -> is_Some (heap m' !! (nextblock m0 + 1 + i)%nat)) m.
Proof.
  intros Hjn Hj H0. unfold free_forces. rewrite Nat2Z.id. apply faults_bind_now.
  eapply (faults_for_loop (free_inv tr1)); [exact Hjn | exact H0 | apply free_body_step |].
  intros p m1 (-> & Hnb & Htr & Hb & Hlive & Hdead & Hfr).
  apply faults_bind_now.
  eapply faults_get_field;
    [exact Hb | cbn [poff]; rewrite at_off_nat; exact Hj | reflexivity |].
  auto.
Qed.

End Release.

(** ** The whole call *)

Section WholeCall.
Context {D : DoubleOps}.
Variable LH : force_fn.
Variable leapfrog :
  force_callback -> Z -> list double -> Z -> list double -> double -> double ->
  list double.
Variable pot_type : list Z.
Variable pot_args : list double.
Variable m0 : mem.
Hypothesis enough_args : (2 * zeros pot_type <= length pot_args)%nat.

Lemma wp_call_leapfrog func dim yo nt t nargs lfa rtol atol
  (Q : list double -> mem -> Prop) m :
  Q (leapfrog (bound_callback func dim nargs lfa m) dim yo nt t rtol atol)
    (mkmem (heap m) (nextblock m) (trace m ++ [EvLeapfrog nargs lfa])) ->
  wp (call_leapfrog leapfrog func dim yo nt t nargs lfa rtol atol) Q m.
Proof. done. Qed.

(** The trace of the call up to the return of the engine. *)
Definition trace_to_engine : list event :=
  trace m0 ++ EvMalloc (nextblock m0)
           :: map EvMalloc (seq (nextblock m0 + 1) (zeros pot_type))
           ++ [EvLeapfrog (Z.of_nat (length pot_type)) (mkptr (nextblock m0) 0)].

Lemma free_inv_after_engine ss z m1 :
  setup_inv LH pot_type pot_args m0 (length pot_type)
    (mkptr (nextblock m0) (Z.of_nat (length pot_type)), Z.of_nat (length pot_type),
     Z.of_nat (2 * zeros pot_type)) m1 ->
  ss = slots_of LH pot_type (nextblock m0 + 1) -> z = zeros pot_type ->
  free_inv m0 ss z trace_to_engine 0 (mkptr (nextblock m0) 0)
    (mkmem (heap m1) (nextblock m1)
           (trace m1 ++ [EvLeapfrog (Z.of_nat (length pot_type)) (mkptr (nextblock m0) 0)])).
Proof.
  intros (_ & Hnb & Htr & Hb & Hargs & Hfr) -> ->. rewrite firstn_all in *.
  rewrite Nat.sub_diag, app_nil_r in Hb.
  unfold free_inv, trace_to_engine. cbn [heap nextblock trace seq map].
  rewrite app_nil_r, Htr, <- app_assoc.
  repeat split; auto.
  - intros i Hi. rewrite Hargs by lia. eauto.
  - intros i Hi. lia.
Qed.

Lemma integratePlanarOrbit_known yo nt t rtol atol :
  Forall (fun c => c = 0%Z) pot_type ->
  let b := nextblock m0 in
  let n := length pot_type in
  exists m1 m',
    setup_forces LH (Z.of_nat n) pot_type pot_args m0
    = Ok (mkptr b 0, Z.of_nat n, Z.of_nat (2 * zeros pot_type)) m1
    /\ integratePlanarOrbit LH leapfrog yo nt t (Z.of_nat n) pot_type pot_args rtol atol m0
       = Ok (leapfrog (bound_callback evalPlanarRectForce 2 (Z.of_nat n) (mkptr b 0) m1)
                      2 yo nt t rtol atol) m'
    /\ trace m' = trace_to_engine ++ map EvFree (seq (b + 1) n) ++ [EvFree b]
    /\ nextblock m' = (b + 1 + n)%nat
    /\ forall b', heap m' !! b'
                  = if decide (b <= b' < b + 1 + n)%nat then None else heap m0 !! b'.
Proof.
  intros Hall. cbv zeta.
  destruct (wp_elim _ _ _ (setup_forces_wp LH pot_type pot_args m0 enough_args))
    as (s & m1 & Hrun & -> & Hinv).
  edestruct (wp_elim _ _ _
               (free_forces_wp LH m0 (slots_of LH pot_type (nextblock m0 + 1))
                  (length pot_type) (zeros pot_type)
                  ltac:(intros i Hi; rewrite (slots_of_all LH _ _ Hall), list_lookup_fmap;
                        now rewrite lookup_seq_lt by lia)
                  ltac:(rewrite zeros_all by done; lia)
                  _ trace_to_engine ltac:(now rewrite zeros_all)
                  (free_inv_after_engine _ _ _ Hinv eq_refl eq_refl)))
    as ([] & m' & Hfree & Htr & Hnb & Hheap).
  exists m1, m'. split; [exact Hrun|]. split; [|auto].
  unfold integratePlanarOrbit. rewrite (bind_Ok _ _ _ _ _ Hrun). cbn [fst].
  erewrite bind_Ok; [|reflexivity]. now rewrite (bind_Ok _ _ _ _ _ Hfree).
Qed.

Lemma integratePlanarOrbit_unknown yo nt t rtol atol j c rest :
  pot_type = replicate j 0%Z ++ c :: rest -> c <> 0%Z ->
  faults_with (integratePlanarOrbit LH leapfrog yo nt t (Z.of_nat (length pot_type))
                 pot_type pot_args rtol atol)
     (fun f m' =>
        let b := nextblock m0 in
        f = UninitRead
        /\ trace m' = trace_to_engine ++ map EvFree (seq (b + 1) j)
        /\ is_Some (heap m' !! b)
        /\ forall i, (j <= i < zeros pot_type)%nat -> is_Some (heap m' !! (b + 1 + i)%nat))
     m0.
Proof.
  intros Hcodes Hc. unfold integratePlanarOrbit. apply faults_bind_later.
  eapply wp_mono; [apply setup_forces_wp, enough_args|].
  intros s m1 (-> & Hinv). cbn [fst].
  apply faults_bind_later, wp_call_leapfrog. apply faults_bind_now.
  assert (Hz : zeros (replicate j 0%Z) = j)
    by (rewrite zeros_all, length_replicate; [done | apply Forall_replicate; done]).
  assert (Hss : slots_of LH pot_type (nextblock m0 + 1)
                = map (fun i => built_slot LH (nextblock m0 + 1 + i)) (seq 0 j)
                  ++ indeterminate :: slots_of LH rest (nextblock m0 + 1 + j)).
  { rewrite Hcodes at 1. rewrite slots_of_app, Hz.
    rewrite slots_of_all, length_replicate by (apply Forall_replicate; done).
    f_equal. destruct c; [done | reflexivity | reflexivity]. }
  assert (Hlenj : length (map (fun i => built_slot LH (nextblock m0 + 1 + i)) (seq 0 j)) = j)
    by now rewrite length_map, length_seq.
  eapply (faults_mono _ _ _ _
            (free_forces_faults LH m0 (slots_of LH pot_type (nextblock m0 + 1)) j
               (zeros pot_type) _ _ (length pot_type) _ trace_to_engine _ _
               (free_inv_after_engine _ _ _ Hinv eq_refl eq_refl))).
  Unshelve.
  - intros f m' (-> & Htr & Hb & Hlive). cbv zeta. eauto.
  - intros i Hi. rewrite Hss, lookup_app_l by lia.
    rewrite list_lookup_fmap. now rewrite lookup_seq_lt by lia.
  - rewrite Hcodes, zeros_app, Hz. lia.
  - rewrite Hcodes, length_app, length_replicate. simpl. lia.
  - rewrite Hss. now apply list_lookup_middle.
Qed.

End WholeCall.

(** ** What the driver does *)

Section DriverClaims.
Context {D : DoubleOps}.
Variable LH : force_fn.
Variable leapfrog :
  force_callback -> Z -> list double -> Z -> list double -> double -> double ->
  list double.

Lemma count_app f l1 l2 : count f (l1 ++ l2) = (count f l1 + count f l2)%nat.
Proof. unfold count. now rewrite List.filter_app, length_app. Qed.

Lemma count_none f l : (forall e, In e l -> f e = false) -> count f l = 0%nat.
Proof.
  unfold count. induction l as [|e l IH]; intros H; simpl; [done|].
  rewrite (H e (or_introl eq_refl)). apply IH. intros e' He'. apply H. now right.
Qed.

Lemma load_doubles_two a m v0 v1 :
  heap m !! pblock a = Some (DoubleArr [Some v0; Some v1]) -> poff a = 0%Z ->
  load_doubles 2 a m = Ok [v0; v1] m.
Proof.
  intros Ha H0. cbn [load_doubles].
  erewrite bind_Ok; [|eapply load_double_intro; [exact Ha | now rewrite H0]].
  erewrite bind_Ok; [reflexivity|].
  erewrite bind_Ok; [reflexivity|].
  eapply load_double_intro; [exact Ha | cbn [ptr_add poff]; now rewrite H0].
Qed.

(** The Force Term Sequence that the set-up builds from [npot] codes [0]. *)
Definition built_terms (pot_args : list double) (npot : nat) : list ForceTerm :=
  map (fun i => mkForceTerm LH ZeroPlanarForce 2 (take 2 (drop (2 * i) pot_args)))
      (seq 0 npot).

Definition built_ptrs (b : block) (npot : nat) : list ptr :=
  map (fun i => mkptr (b + 1 + i) 0) (seq 0 npot).

Lemma setup_forces_known pot_type pot_args m :
  Forall (fun c => c = 0%Z) pot_type ->
  (2 * length pot_type <= length pot_args)%nat ->
  exists m',
    setup_forces LH (Z.of_nat (length pot_type)) pot_type pot_args m
    = Ok (mkptr (nextblock m) 0, Z.of_nat (length pot_type),
          Z.of_nat (2 * length pot_type)) m'
    /\ heap m' !! nextblock m
       = Some (StructArr (map (fun i => built_slot LH (nextblock m + 1 + i))
                              (seq 0 (length pot_type))))
    /\ holds_terms m' (mkptr (nextblock m) 0) (built_terms pot_args (length pot_type))
                   (built_ptrs (nextblock m) (length pot_type)).
Proof.
  intros Hall Hlen. pose proof (zeros_all _ Hall) as Hz.
  destruct (wp_elim _ _ _ (setup_forces_wp LH pot_type pot_args m ltac:(lia)))
    as (s & m' & Hrun & -> & _ & _ & _ & Hb & Hargs & _).
  rewrite firstn_all, Hz in *. rewrite Nat.sub_diag, app_nil_r in Hb.
  rewrite (slots_of_all LH _ _ Hall) in Hb.
  exists m'. split; [exact Hrun|]. split; [exact Hb|].
  set (b := nextblock m) in *. set (n := length pot_type) in *.
  assert (Hgen : forall len j, (j + len <= n)%nat ->
            holds_terms m' (mkptr b (Z.of_nat j))
              (map (fun i => mkForceTerm LH ZeroPlanarForce 2
                               (take 2 (drop (2 * i) pot_args))) (seq j len))
              (map (fun i => mkptr (b + 1 + i) 0) (seq j len))).
  { induction len as [|len IH]; intros j Hj; cbn [seq map holds_terms]; [done|].
    split; [split|].
    - eapply load_struct_intro; [exact Hb|]. cbn [poff]. rewrite at_off_nat.
      rewrite list_lookup_fmap, lookup_seq_lt by lia. reflexivity.
    - destruct (lookup_lt_is_Some_2 pot_args (2 * j)) as [v0 Hv0]; [lia|].
      destruct (lookup_lt_is_Some_2 pot_args (2 * j + 1)) as [v1 Hv1]; [lia|].
      cbn [param_count params]. change (Z.to_nat 2) with 2%nat.
      fold (built_params pot_args j).
      rewrite (built_params_two _ _ _ _ Hv0 Hv1).
      apply load_doubles_two; [|reflexivity]. cbn [pblock].
      rewrite Hargs by lia. now rewrite (built_params_two _ _ _ _ Hv0 Hv1).
    - replace (ptr_add (mkptr b (Z.of_nat j)) 1) with (mkptr b (Z.of_nat (S j)))
        by (unfold ptr_add; cbn [pblock poff]; f_equal; lia).
      apply IH. lia. }
  apply (Hgen n 0%nat). lia.
Qed.

(** C5: from [npot] codes that are all [0] and a flat sequence of at least
    [2 * npot] values, the set-up produces exactly [npot] Force Terms; the
    [i]-th has [param_count = 2] and holds, in order, the two values at the
    read position [2 * i]; the read position ends at [2 * npot] (6 values for
    3 potentials). *)
Theorem setup_forces_builds pot_type pot_args m :
  Forall (fun c => c = 0%Z) pot_type ->
  (2 * length pot_type <= length pot_args)%nat ->
  let npot := length pot_type in
  let leapFuncArgs := mkptr (nextblock m) 0 in
  exists m' ss,
    setup_forces LH (Z.of_nat npot) pot_type pot_args m
    = Ok (leapFuncArgs, Z.of_nat npot, Z.of_nat (2 * npot)) m'
    /\ heap m' !! nextblock m = Some (StructArr ss) /\ length ss = npot
    /\ holds_terms m' leapFuncArgs
         (map (fun i => mkForceTerm LH ZeroPlanarForce 2 (take 2 (drop (2 * i) pot_args)))
              (seq 0 npot))
         (map (fun i => mkptr (nextblock m + 1 + i) 0) (seq 0 npot)).
Proof.
  intros Hall Hlen. cbv zeta.
  destruct (setup_forces_known pot_type pot_args m Hall Hlen) as (m' & Hrun & Hb & Hts).
  exists m'. eexists. split; [exact Hrun|]. split; [exact Hb|].
  split; [now rewrite length_map, length_seq | exact Hts].
Qed.

(** C3, as the code has it: the set-up is given no length for the flat
    parameter sequence and reports no mismatch.  Values beyond the
    [2 * npot] it needs are never read: with any surplus appended, it builds
    the same Force Terms and stops reading at [2 * npot]. *)
Theorem setup_forces_ignores_surplus pot_type pot_args surplus m :
  Forall (fun c => c = 0%Z) pot_type ->
  length pot_args = (2 * length pot_type)%nat ->
  let npot := length pot_type in
  let leapFuncArgs := mkptr (nextblock m) 0 in
  exists m',
    setup_forces LH (Z.of_nat npot) pot_type (pot_args ++ surplus) m
    = Ok (leapFuncArgs, Z.of_nat npot, Z.of_nat (2 * npot)) m'
    /\ holds_terms m' leapFuncArgs
         (map (fun i => mkForceTerm LH ZeroPlanarForce 2 (take 2 (drop (2 * i) pot_args)))
              (seq 0 npot))
         (map (fun i => mkptr (nextblock m + 1 + i) 0) (seq 0 npot)).
Proof.
  intros Hall Hlen. cbv zeta.
  destruct (setup_forces_known pot_type (pot_args ++ surplus) m Hall) as (m' & Hrun & _ & Hts).
  { rewrite length_app. lia. }
  exists m'. split; [exact Hrun|].
  unfold built_terms, built_ptrs in Hts.
  erewrite map_ext_in; [exact Hts|].
  intros i Hi%in_seq. cbv beta. f_equal.
  rewrite drop_app_le by lia. rewrite take_app_le; [done|].
  rewrite length_drop. lia.
Qed.

(** C1, what the code does: a request with a type code other than [0] raises
    nothing during the set-up.  The engine is called, once, after the
    set-up has allocated the array and the buffers of all codes [0]; nothing
    is released before that call.  After the call the freeing loop reads the
    [args] that the set-up never wrote for the unknown code. *)
Theorem unknown_code_reaches_engine yo nt t rtol atol pot_type pot_args m j c rest :
  pot_type = replicate j 0%Z ++ c :: rest -> c <> 0%Z ->
  (2 * zeros pot_type <= length pot_args)%nat ->
  let b := nextblock m in
  exists m',
    integratePlanarOrbit LH leapfrog yo nt t (Z.of_nat (length pot_type))
      pot_type pot_args rtol atol m = Fault UninitRead m'
    /\ trace m' = trace m ++ EvMalloc b :: map EvMalloc (seq (b + 1) (zeros pot_type))
                          ++ [EvLeapfrog (Z.of_nat (length pot_type)) (mkptr b 0)]
                          ++ map EvFree (seq (b + 1) j).
Proof.
  intros Hcodes Hc Hlen. cbv zeta.
  destruct (faults_elim _ _ _
              (integratePlanarOrbit_unknown LH leapfrog pot_type pot_args m Hlen
                 yo nt t rtol atol j c rest Hcodes Hc))
    as (f & m' & Hrun & -> & Htr & _).
  exists m'. split; [exact Hrun|]. rewrite Htr. unfold trace_to_engine.
  rewrite <- app_assoc. cbn [app]. now rewrite <- app_assoc.
Qed.

(** C6, what the code does: when a type code other than [0] follows [j]
    codes [0], the call ends in the read of an [args] field that was never
    written (the pointer it would hand to [free]); the array and the
    parameter buffers of all later terms are still allocated then. *)
Theorem unknown_code_leaks yo nt t rtol atol pot_type pot_args m j c rest :
  pot_type = replicate j 0%Z ++ c :: rest -> c <> 0%Z ->
  (2 * zeros pot_type <= length pot_args)%nat ->
  let b := nextblock m in
  exists m',
    integratePlanarOrbit LH leapfrog yo nt t (Z.of_nat (length pot_type))
      pot_type pot_args rtol atol m = Fault UninitRead m'
    /\ is_Some (heap m' !! b)
    /\ (forall i, (j <= i < zeros pot_type)%nat -> is_Some (heap m' !! (b + 1 + i)%nat))
    /\ count (is_free b) (trace m') = count (is_free b) (trace m).
Proof.
  intros Hcodes Hc Hlen. cbv zeta.
  destruct (faults_elim _ _ _
              (integratePlanarOrbit_unknown LH leapfrog pot_type pot_args m Hlen
                 yo nt t rtol atol j c rest Hcodes Hc))
    as (f & m' & Hrun & -> & Htr & Hb & Hlive).
  exists m'. split; [exact Hrun|]. split; [exact Hb|]. split; [exact Hlive|].
  rewrite Htr. unfold trace_to_engine. rewrite <- app_assoc, count_app.
  match goal with
  | |- (_ + count _ ?l)%nat = _ => rewrite (count_none (is_free (nextblock m)) l); [lia|]
  end.
  intros e He. cbn [app] in He. rewrite <- app_assoc in He.
  destruct He as [<-|He]; [reflexivity|].
  apply in_app_or in He as [(x & <- & _)%in_map_iff|He]; [reflexivity|].
  apply in_app_or in He as [[<-|[]]|(x & <- & Hx%in_seq)%in_map_iff]; [reflexivity|].
  simpl. apply Nat.eqb_neq. lia.
Qed.

(** Five values for three potentials: the set-up reads past the end of the
    sequence (undefined in C, a fault here). *)
Lemma five_values_read_past_end (v1 v2 v3 v4 v5 : double) :
  exists m',
    setup_forces LH 3 [0; 0; 0]%Z [v1; v2; v3; v4; v5] empty_mem = Fault OutOfBounds m'.
Proof. eexists. vm_compute. reflexivity. Qed.

(** All codes [0]: the call returns what the engine returned, every block it
    allocated is freed exactly once, after the engine call, and the heap is
    as it was before the call. *)
Theorem integratePlanarOrbit_releases_once yo nt t rtol atol pot_type pot_args m :
  Forall (fun c => c = 0%Z) pot_type ->
  (2 * length pot_type <= length pot_args)%nat ->
  fresh_above m ->
  let b := nextblock m in
  let n := length pot_type in
  let blocks := b :: seq (b + 1) n in
  exists m1 m',
    setup_forces LH (Z.of_nat n) pot_type pot_args m
    = Ok (mkptr b 0, Z.of_nat n, Z.of_nat (2 * n)) m1
    /\ integratePlanarOrbit LH leapfrog yo nt t (Z.of_nat n) pot_type pot_args rtol atol m
       = Ok (leapfrog (bound_callback evalPlanarRectForce 2 (Z.of_nat n) (mkptr b 0) m1)
                      2 yo nt t rtol atol) m'
    /\ heap m' = heap m
    /\ trace m' = trace m ++ map EvMalloc blocks
                          ++ [EvLeapfrog (Z.of_nat n) (mkptr b 0)]
                          ++ map EvFree (seq (b + 1) n ++ [b])
    /\ NoDup blocks /\ Permutation blocks (seq (b + 1) n ++ [b]).
Proof.
  intros Hall Hlen Hfresh. cbv zeta. pose proof (zeros_all _ Hall) as Hz.
  destruct (integratePlanarOrbit_known LH leapfrog pot_type pot_args m ltac:(lia)
              yo nt t rtol atol Hall) as (m1 & m' & Hset & Hrun & Htr & _ & Hheap).
  rewrite Hz in *.
  exists m1, m'. split; [exact Hset|]. split; [exact Hrun|].
  split; [|split; [|split]].
  - apply map_eq. intros b'. rewrite Hheap.
    destruct (decide (nextblock m <= b' < nextblock m + 1 + length pot_type)%nat);
      [|done]. symmetry. apply Hfresh. lia.
  - rewrite Htr. unfold trace_to_engine. rewrite Hz, map_app.
    cbn [map]. rewrite <- app_assoc. f_equal. cbn [app]. f_equal.
    now rewrite <- app_assoc.
  - apply NoDup_cons. split; [|apply NoDup_seq].
    intros Hin%elem_of_seq. lia.
  - apply Permutation_cons_append.
Qed.

End DriverClaims.

(** ** What a run leaves behind, whether it returns or faults *)

Section Footprint.
Context {D : DoubleOps}.

(** The memory at the end of a run. *)
Definition final {A} (o : outcome A) : mem :=
  match o with Ok _ m | Fault _ m => m end.

(** [c] only reads: the memory at the end is the memory at the start. *)
Definition reads_only {A} (c : M A) : Prop := forall m, final (c m) = m.

Lemma reads_only_ret {A} (a : A) : reads_only (ret a).
Proof. done. Qed.

Lemma reads_only_raise {A} f : reads_only (@raise _ A f).
Proof. done. Qed.

Lemma reads_only_bind {A B} (c : M A) (k : A -> M B) :
  reads_only c -> (forall a, reads_only (k a)) -> reads_only (bind c k).
Proof.
  intros Hc Hk m. unfold bind. specialize (Hc m).
  destruct (c m) as [a m'|f m']; simpl in Hc; subst m'; [apply Hk | done].
Qed.

Lemma reads_only_for_loop {S} (body : S -> M S) :
  (forall s, reads_only (body s)) -> forall n s, reads_only (for_loop n body s).
Proof.
  intros Hbody. induction n as [|n IH]; intros s; simpl.
  - apply reads_only_ret.
  - apply reads_only_bind; auto.
Qed.

Lemma reads_only_read_input {A} (l : list A) i : reads_only (read_input l i).
Proof. intros m. unfold read_input. now destruct (at_off l i). Qed.

Lemma reads_only_load_double p : reads_only (load_double p).
Proof.
  intros m. unfold load_double.
  destruct (heap m !! pblock p) as [[ds|ss]|]; try done.
  now destruct (at_off ds (poff p)) as [[v|]|].
Qed.

Lemma reads_only_load_struct p : reads_only (load_struct p).
Proof.
  intros m. unfold load_struct.
  destruct (heap m !! pblock p) as [[ds|ss]|]; try done.
  now destruct (at_off ss (poff p)).
Qed.

Lemma reads_only_load_doubles n : forall p, reads_only (load_doubles n p).
Proof.
  induction n as [|n IH]; intros p; simpl.
  - apply reads_only_ret.
  - apply reads_only_bind; [apply reads_only_load_double|]. intros v.
    apply reads_only_bind; [apply IH|]. intros vs. apply reads_only_ret.
Qed.

Lemma reads_only_get_field {A} (field : leapFuncArg -> option A) p :
  reads_only (get_field field p).
Proof.
  apply reads_only_bind; [apply reads_only_load_struct|]. intros s.
  destruct (field s); [apply reads_only_ret | apply reads_only_raise].
Qed.

Lemma reads_only_force_args p : reads_only (force_args p).
Proof.
  apply reads_only_bind; [apply reads_only_get_field|]. intros n.
  apply reads_only_bind; [apply reads_only_get_field|]. intros a.
  apply reads_only_bind; [apply reads_only_load_doubles|]. intros vs.
  apply reads_only_ret.
Qed.

Lemma reads_only_calcPlanarRforce R phi t nargs lfa :
  reads_only (calcPlanarRforce R phi t nargs lfa).
Proof.
  apply reads_only_bind.
  - apply reads_only_for_loop. intros [acc p].
    apply reads_only_bind; [apply reads_only_get_field|]. intros f.
    apply reads_only_bind; [apply reads_only_force_args|]. intros na.
    apply reads_only_ret.
  - intros [acc p]. apply reads_only_ret.
Qed.

Lemma reads_only_calcPlanarphiforce R phi t nargs lfa :
  reads_only (calcPlanarphiforce R phi t nargs lfa).
Proof.
  apply reads_only_bind.
  - apply reads_only_for_loop. intros [acc p].
    apply reads_only_bind; [apply reads_only_get_field|]. intros f.
    apply reads_only_bind; [apply reads_only_force_args|]. intros na.
    apply reads_only_ret.
  - intros [acc p]. apply reads_only_ret.
Qed.

(** A run that starts with a read either stops there, in the memory it
    started from, or goes on from that memory. *)
Lemma reads_only_then {A B} (c : M A) (k : A -> M B) m :
  reads_only c ->
  final (bind c k m) = m \/ exists a, bind c k m = k a m.
Proof.
  intros Hc. unfold bind. specialize (Hc m).
  destruct (c m) as [a m'|f m']; simpl in Hc; subst m'; [right; eauto | now left].
Qed.

(** What [*p = v] can do to the memory. *)
Lemma store_double_cases p v m :
  (exists f, store_double p v m = Fault f m)
  \/ exists ds c,
       heap m !! pblock p = Some (DoubleArr ds) /\ at_off ds (poff p) = Some c
       /\ store_double p v m
          = Ok tt (mkmem (<[pblock p := DoubleArr (<[Z.to_nat (poff p) := Some v]> ds)]>
                            (heap m)) (nextblock m) (trace m)).
Proof.
  unfold store_double.
  destruct (heap m !! pblock p) as [[ds|ss]|] eqn:E; try (left; eauto; fail).
  destruct (at_off ds (poff p)) as [c|] eqn:E'; [|left; eauto].
  right. eauto.
Qed.

(** The cells of the block [b] that a run may have written: [ds'] is [ds]
    but for the offsets [i] and [j]. *)
Definition same_but (b : block) (i j : nat) (m m' : mem) : Prop :=
  trace m' = trace m /\ nextblock m' = nextblock m
  /\ (forall b', b' <> b -> heap m' !! b' = heap m !! b')
  /\ (forall ss, heap m !! b = Some (StructArr ss) -> heap m' !! b = Some (StructArr ss))
  /\ (heap m !! b = None -> heap m' !! b = None)
  /\ (forall ds, heap m !! b = Some (DoubleArr ds) ->
        exists ds', heap m' !! b = Some (DoubleArr ds') /\ length ds' = length ds
                    /\ forall k, k <> i -> k <> j -> ds' !! k = ds !! k).

Lemma same_but_refl b i j m : same_but b i j m m.
Proof. unfold same_but. repeat split; eauto. Qed.

Ltac read_step H :=
  match goal with
  | |- context [final (bind ?c ?k ?m)] =>
      let a := fresh "a" in
      destruct (reads_only_then c k m H) as [->|[a ->]]; [apply same_but_refl|]
  end.

(** Lines 87-112: the two sums only read.  Whatever the arguments, and
    whether the run returns or faults, the memory is left as it was. *)
Theorem calc_forces_only_read R phi t nargs lfa m :
  final (calcPlanarRforce R phi t nargs lfa m) = m
  /\ final (calcPlanarphiforce R phi t nargs lfa m) = m.
Proof.
  split; [apply reads_only_calcPlanarRforce | apply reads_only_calcPlanarphiforce].
Qed.

(** Lines 67-85: whatever its arguments, and whether it returns or faults,
    the evaluator allocates nothing, frees nothing, and writes at most the
    two cells [a[0]] and [a[1]]: every other block, and every other cell of
    the block of [a], is as it was. *)
Theorem evalPlanarRectForce_footprint t q a nargs lfa m :
  same_but (pblock a) (Z.to_nat (poff a)) (Z.to_nat (poff a + 1)) m
    (final (evalPlanarRectForce t q a nargs lfa m)).
Proof.
  unfold evalPlanarRectForce.
  read_step (reads_only_load_double q).
  read_step (reads_only_load_double (ptr_add q 1)).
  match goal with
  | |- context [bind (calcPlanarRforce ?R ?phi ?t ?n ?l)] =>
      read_step (reads_only_calcPlanarRforce R phi t n l);
      read_step (reads_only_calcPlanarphiforce R phi t n l)
  end.
  match goal with
  | |- context [bind (store_double a ?v) ?k m] =>
      destruct (store_double_cases a v m) as [[f E]|(ds & c & Hb & Hc & E)];
      [unfold bind; rewrite E; apply same_but_refl | rewrite (bind_Ok _ _ _ _ _ E)]
  end.
  assert (Hone : forall w,
            same_but (pblock a) (Z.to_nat (poff a)) (Z.to_nat (poff a + 1)) m
              (mkmem (<[pblock a := DoubleArr (<[Z.to_nat (poff a) := Some w]> ds)]> (heap m))
                     (nextblock m) (trace m))).
  { intros w. unfold same_but. cbn [heap nextblock trace].
    split; [done|]. split; [done|]. split; [|split; [|split]].
    - intros b' Hb'. now rewrite lookup_insert_ne.
    - intros ss Hss. rewrite Hb in Hss. discriminate.
    - intros Hn. rewrite Hb in Hn. discriminate.
    - intros ds0 Hds0. rewrite Hb in Hds0. injection Hds0 as <-.
      eexists. split; [apply lookup_insert_eq|]. split; [apply length_insert|].
      intros k Hk _. now rewrite list_lookup_insert_ne. }
  match goal with
  | |- context [store_double (ptr_add a 1) ?w ?m1] =>
      destruct (store_double_cases (ptr_add a 1) w m1)
        as [[f E2]|(ds2 & c2 & Hb2 & Hc2 & E2)]; rewrite E2; cbn [final]
  end; [apply Hone|].
  cbn [heap pblock ptr_add] in Hb2. rewrite lookup_insert_eq in Hb2.
  injection Hb2 as <-.
  unfold same_but. cbn [heap nextblock trace pblock poff ptr_add].
  split; [done|]. split; [done|]. split; [|split; [|split]].
  - intros b' Hb'. now rewrite !lookup_insert_ne.
  - intros ss Hss. rewrite Hb in Hss. discriminate.
  - intros Hn. rewrite Hb in Hn. discriminate.
  - intros ds0 Hds0. rewrite Hb in Hds0. injection Hds0 as <-.
    eexists. split; [apply lookup_insert_eq|]. split; [now rewrite !length_insert|].
    intros k Hk1 Hk2. now rewrite !list_lookup_insert_ne.
Qed.

End Footprint.

(** ** The events of a call, for every input *)

Section Events.
Context {D : DoubleOps}.
Variable LH : force_fn.
Variable leapfrog :
  force_callback -> Z -> list double -> Z -> list double -> double -> double ->
  list double.

(** Whatever [c] does, returning or faulting, it adds to the trace only
    events in [P]. *)
Definition emits (P : event -> Prop) {A} (c : M A) : Prop :=
  forall m, exists tr, trace (final (c m)) = trace m ++ tr /\ Forall P tr.

Lemma emits_reads_only P {A} (c : M A) : reads_only c -> emits P c.
Proof. intros H m. exists []. rewrite H, app_nil_r. auto. Qed.

Lemma emits_ret P {A} (a : A) : emits P (ret a).
Proof. apply emits_reads_only, reads_only_ret. Qed.

Lemma emits_bind P {A B} (c : M A) (k : A -> M B) :
  emits P c -> (forall a, emits P (k a)) -> emits P (bind c k).
Proof.
  intros Hc Hk m. unfold bind. destruct (Hc m) as (tr & E & Htr).
  destruct (c m) as [a m'|f m']; cbn [final] in E.
  - destruct (Hk a m') as (tr' & E' & Htr'). exists (tr ++ tr').
    rewrite E', E, app_assoc. split; [done | now apply Forall_app].
  - exists tr. auto.
Qed.

Lemma emits_for_loop P {S} (body : S -> M S) :
  (forall s, emits P (body s)) -> forall n s, emits P (for_loop n body s).
Proof.
  intros Hbody. induction n as [|n IH]; intros s; simpl.
  - apply emits_ret.
  - apply emits_bind; auto.
Qed.

Lemma emits_store_double P p v : emits P (store_double p v).
Proof.
  intros m. exists []. rewrite app_nil_r. split; [|done].
  destruct (store_double_cases p v m) as [[f ->]|(ds & c & _ & _ & ->)]; reflexivity.
Qed.

Lemma emits_update P (g : leapFuncArg -> leapFuncArg) p :
  emits P (s <- load_struct p ;; store_struct p (g s)).
Proof.
  apply emits_bind; [apply emits_reads_only, reads_only_load_struct|].
  intros s m. exists []. rewrite app_nil_r. split; [|done].
  unfold store_struct. destruct (heap m !! pblock p) as [[ds|ss]|]; try done.
  now destruct (at_off ss (poff p)).
Qed.

Definition a_malloc (e : event) : Prop := exists b, e = EvMalloc b.

Definition a_free (e : event) : Prop := exists b, e = EvFree b.

Lemma emits_malloc v : emits a_malloc (malloc v).
Proof.
  intros m. exists [EvMalloc (nextblock m)]. split; [done|].
  repeat constructor. now exists (nextblock m).
Qed.

Lemma emits_free p : emits a_free (free p).
Proof.
  intros m. unfold free. destruct (heap m !! pblock p).
  - destruct (poff p =? 0)%Z.
    + exists [EvFree (pblock p)]. split; [done|]. repeat constructor. now exists (pblock p).
    + exists []. now rewrite app_nil_r.
  - exists []. now rewrite app_nil_r.
Qed.

Lemma all_mallocs tr : Forall a_malloc tr -> exists bs, tr = map EvMalloc bs.
Proof.
  induction 1 as [|e tr [b ->] _ [bs ->]]; [now exists [] | now exists (b :: bs)].
Qed.

Lemma all_frees tr : Forall a_free tr -> exists bs, tr = map EvFree bs.
Proof.
  induction 1 as [|e tr [b ->] _ [bs ->]]; [now exists [] | now exists (b :: bs)].
Qed.

Ltac emit_step :=
  first
    [ apply emits_ret
    | apply emits_update
    | apply emits_store_double
    | apply emits_malloc
    | apply emits_free
    | apply emits_reads_only;
      first [ apply reads_only_get_field | apply reads_only_read_input ]
    | apply emits_bind; [|intros ?] ].

Lemma emits_setup_forces npot pot_type pot_args :
  emits a_malloc (setup_forces LH npot pot_type pot_args).
Proof.
  unfold setup_forces, malloc_structs.
  apply emits_bind; [apply emits_malloc|]. intros lfa.
  apply emits_bind; [|intros [[p pt] pa]; apply emits_ret].
  apply emits_for_loop. intros [[p pt] pa]. unfold setup_body.
  apply emits_bind; [apply emits_reads_only, reads_only_read_input|]. intros c.
  apply emits_bind; [|intros pa'; apply emits_ret].
  destruct c as [|c|c]; [|apply emits_ret..].
  unfold set_planarRforce, set_planarphiforce, set_nargs, set_args, malloc_doubles.
  repeat emit_step. apply emits_for_loop. intros s. repeat emit_step.
Qed.

Lemma emits_free_forces npot lfa : emits a_free (free_forces npot lfa).
Proof.
  unfold free_forces. emit_step; [|apply emits_free].
  apply emits_for_loop. intros s. repeat emit_step.
Qed.

(** Lines 26-65, for every input (any [npot], any codes, any number of
    values): the set-up only allocates; when it faults the call stops there,
    the engine never called and nothing freed; when it returns the engine is
    called once, with [npot] and the address the set-up returned, and all
    that follows is calls to [free]. *)
Theorem integratePlanarOrbit_events yo nt t npot pot_type pot_args rtol atol m :
  exists allocated,
    match setup_forces LH npot pot_type pot_args m with
    | Fault f m1 =>
        integratePlanarOrbit LH leapfrog yo nt t npot pot_type pot_args rtol atol m
        = Fault f m1
        /\ trace m1 = trace m ++ map EvMalloc allocated
    | Ok s m1 =>
        trace m1 = trace m ++ map EvMalloc allocated
        /\ exists freed,
             trace (final (integratePlanarOrbit LH leapfrog yo nt t npot pot_type
                             pot_args rtol atol m))
             = trace m1 ++ EvLeapfrog npot (fst (fst s)) :: map EvFree freed
    end.
Proof.
  destruct (emits_setup_forces npot pot_type pot_args m) as (tr & E & [bs ->]%all_mallocs).
  exists bs. unfold integratePlanarOrbit.
  destruct (setup_forces LH npot pot_type pot_args m) as [s m1|f m1] eqn:Hset;
    cbn [final] in E.
  2: { split; [|exact E]. unfold bind at 1. now rewrite Hset. }
  split; [exact E|]. rewrite (bind_Ok _ _ _ _ _ Hset).
  unfold bind at 1, call_leapfrog at 1.
  match goal with
  | |- context [bind (free_forces ?n ?p) ?k ?m2] =>
      destruct (emits_bind a_free (free_forces n p) k (emits_free_forces n p)
                  ltac:(intros ?; apply emits_ret) m2) as (tr & E' & [fs ->]%all_frees)
  end.
  exists fs. rewrite E'. cbn [trace]. now rewrite <- app_assoc.
Qed.

End Events.

(** ** The set-up for any codes and any number of values *)

Section DriverMore.
Context {D : DoubleOps}.
Variable LH : force_fn.
Variable leapfrog :
  force_callback -> Z -> list double -> Z -> list double -> double -> double ->
  list double.

(** The element that the set-up makes of the code at index [k]. *)
Lemma slots_of_lookup codes blk k c :
  codes !! k = Some c ->
  slots_of LH codes blk !! k
  = Some (if decide (c = 0%Z) then built_slot LH (blk + zeros (take k codes))
          else indeterminate).
Proof.
  intros Hc. pose proof (lookup_lt_Some _ _ _ Hc) as Hk.
  rewrite <- (take_drop_middle _ _ _ Hc) at 1.
  rewrite slots_of_app.
  destruct c as [|c|c]; cbn [slots_of];
    (rewrite list_lookup_middle by (rewrite length_slots_of, length_take; lia));
    reflexivity.
Qed.

(** Lines 38-54, for any codes: a code other than [0] allocates nothing,
    reads no value and leaves its element as [malloc] returned it; the code
    [0] at index [k], with [i] codes [0] before it, gets the [i]-th buffer
    and the two values at the read position [2 * i].  The set-up needs
    [2 * zeros pot_type] values and stops reading there. *)
Theorem setup_forces_skips_unknown pot_type pot_args m :
  (2 * zeros pot_type <= length pot_args)%nat ->
  let b := nextblock m in
  let n := length pot_type in
  exists m' ss,
    setup_forces LH (Z.of_nat n) pot_type pot_args m
    = Ok (mkptr b 0, Z.of_nat n, Z.of_nat (2 * zeros pot_type)) m'
    /\ heap m' !! b = Some (StructArr ss) /\ length ss = n
    /\ (forall k c, pot_type !! k = Some c -> c <> 0%Z -> ss !! k = Some indeterminate)
    /\ (forall k, pot_type !! k = Some 0%Z ->
          let i := zeros (take k pot_type) in
          ss !! k = Some (mkLeapFuncArg (Some LH) (Some ZeroPlanarForce) (Some 2%Z)
                                        (Some (mkptr (b + 1 + i) 0)))
          /\ heap m' !! (b + 1 + i)%nat
             = Some (DoubleArr (map Some (take 2 (drop (2 * i) pot_args))))
          /\ length (take 2 (drop (2 * i) pot_args)) = 2%nat)
    /\ trace m' = trace m ++ map EvMalloc (seq b (1 + zeros pot_type))
    /\ forall b', (b' < b)%nat -> heap m' !! b' = heap m !! b'.
Proof.
  intros Hlen. cbv zeta.
  destruct (wp_elim _ _ _ (setup_forces_wp LH pot_type pot_args m Hlen))
    as (s & m' & Hrun & -> & _ & _ & Htr & Hb & Hargs & Hfr).
  rewrite firstn_all in *. rewrite Nat.sub_diag, app_nil_r in Hb.
  exists m', (slots_of LH pot_type (nextblock m + 1)).
  split; [exact Hrun|]. split; [exact Hb|]. split; [apply length_slots_of|].
  split; [|split; [|split]].
  - intros k c Hc Hne. rewrite (slots_of_lookup _ _ _ _ Hc). now rewrite decide_False.
  - intros k Hc. cbv zeta. pose proof (lookup_lt_Some _ _ _ Hc) as Hk.
    assert (Hi : (zeros (take k pot_type) < zeros pot_type)%nat).
    { rewrite <- (take_drop_middle _ _ _ Hc) at 2. rewrite zeros_app. simpl. lia. }
    split; [|split].
    + rewrite (slots_of_lookup _ _ _ _ Hc). reflexivity.
    + now apply Hargs.
    + rewrite length_take, length_drop. lia.
  - rewrite Htr, Nat.add_1_r. reflexivity.
  - intros b' Hb'. apply Hfr. lia.
Qed.

(** Lines 46-48 with too few values: when [pot_args] holds fewer than two
    values for each code [0], the copy loop reads past its end (undefined in
    C, a fault here).  The set-up has by then allocated the array and one
    buffer for each complete pair and one for the incomplete one; the call
    stops there: the engine is not called and nothing is freed. *)
Theorem too_few_values_read_past_end yo nt t rtol atol pot_type pot_args m :
  (length pot_args < 2 * zeros pot_type)%nat ->
  exists m',
    setup_forces LH (Z.of_nat (length pot_type)) pot_type pot_args m
    = Fault OutOfBounds m'
    /\ integratePlanarOrbit LH leapfrog yo nt t (Z.of_nat (length pot_type))
         pot_type pot_args rtol atol m = Fault OutOfBounds m'
    /\ trace m' = trace m ++ map EvMalloc (seq (nextblock m) (2 + length pot_args / 2)).
Proof.
  intros Hshort.
  destruct (faults_elim _ _ _ (setup_forces_short LH pot_type pot_args m Hshort))
    as (f & m' & Hrun & -> & Htr).
  exists m'. split; [exact Hrun|]. split; [|exact Htr].
  unfold integratePlanarOrbit, bind at 1. now rewrite Hrun.
Qed.

(** A list of codes that are not all [0] has a first code other than
    [0]. *)
Lemma first_unknown_code (codes : list Z) :
  ~ Forall (fun c => c = 0%Z) codes ->
  exists j c rest, codes = replicate j 0%Z ++ c :: rest /\ c <> 0%Z.
Proof.
  induction codes as [|c codes IH]; intros Hnot.
  - destruct Hnot. constructor.
  - destruct (decide (c = 0%Z)) as [->|Hc].
    + destruct IH as (j & c' & rest & -> & Hc').
      { intros Hall. apply Hnot. now constructor. }
      exists (S j), c', rest. split; [reflexivity | exact Hc'].
    + exists 0%nat, c, codes. split; [reflexivity | exact Hc].
Qed.

(** Lines 26-65: when the call is defined.  With [npot] codes in
    [pot_type], [integratePlanarOrbit] returns if and only if every code is
    [0] and [pot_args] holds at least [2 * npot] values; in every other case
    it runs into undefined behaviour (a fault here). *)
Theorem integratePlanarOrbit_returns_iff yo nt t rtol atol pot_type pot_args m :
  (exists result m',
     integratePlanarOrbit LH leapfrog yo nt t (Z.of_nat (length pot_type))
       pot_type pot_args rtol atol m = Ok result m')
  <-> Forall (fun c => c = 0%Z) pot_type
      /\ (2 * length pot_type <= length pot_args)%nat.
Proof.
  split.
  - intros (result & m' & Hrun).
    destruct (decide (length pot_args < 2 * zeros pot_type)%nat) as [Hshort|Hlen].
    { destruct (faults_elim _ _ _ (setup_forces_short LH pot_type pot_args m Hshort))
        as (f & m1 & Hset & _).
      unfold integratePlanarOrbit, bind at 1 in Hrun. rewrite Hset in Hrun.
      discriminate. }
    destruct (decide (Forall (fun c => c = 0%Z) pot_type)) as [Hall|Hnot].
    { split; [exact Hall|]. rewrite <- (zeros_all _ Hall). lia. }
    destruct (first_unknown_code _ Hnot) as (j & c & rest & Hcodes & Hc).
    destruct (faults_elim _ _ _
                (integratePlanarOrbit_unknown LH leapfrog pot_type pot_args m
                   ltac:(lia) yo nt t rtol atol j c rest Hcodes Hc))
      as (f & m1 & Hfault & _).
    rewrite Hfault in Hrun. discriminate.
  - intros [Hall Hlen].
    destruct (integratePlanarOrbit_known LH leapfrog pot_type pot_args m
                ltac:(rewrite (zeros_all _ Hall); lia) yo nt t rtol atol Hall)
      as (m1 & m' & _ & Hrun & _).
    eauto.
Qed.

End DriverMore.

(** ** The callback that the engine is handed *)

Section Callback.
Context {D : DoubleOps}.
Variable LH : force_fn.

Lemma holds_terms_agree m m' : forall ts aps p,
  heap m' !! pblock p = heap m !! pblock p ->
  Forall (fun a => heap m' !! pblock a = heap m !! pblock a) aps ->
  holds_terms m p ts aps -> holds_terms m' p ts aps.
Proof.
  induction ts as [|tm ts IH]; intros [|a aps] p Hp Ha; simpl; try done.
  intros [[H1 H2] H3]. apply Forall_cons in Ha as [Ha0 Ha].
  split; [split|].
  - eapply load_struct_agree; [exact Hp | exact H1].
  - eapply load_doubles_agree; [exact Ha0 | exact H2].
  - apply IH; auto.
Qed.

(** A run that ends in a fault. *)
Definition faulty {A} (o : outcome A) : Prop :=
  match o with Fault _ _ => True | Ok _ _ => False end.

Lemma faulty_bind {A B} (c : M A) (k : A -> M B) m :
  (forall a m', c m = Ok a m' -> faulty (k a m')) -> faulty (bind c k m).
Proof. unfold bind. destruct (c m); [auto | done]. Qed.

Lemma bind_inv {A B} (c : M A) (k : A -> M B) m b m' :
  bind c k m = Ok b m' -> exists a m1, c m = Ok a m1 /\ k a m1 = Ok b m'.
Proof. unfold bind. destruct (c m); [eauto | done]. Qed.

(** A sum over a sequence that has an element nobody set up faults: the
    loop calls through a [planarRforce] that was never assigned. *)
Lemma Rforce_loop_indeterminate R phi m ss : forall k n p acc,
  heap m !! pblock p = Some (StructArr ss) -> (0 <= poff p)%Z ->
  ss !! (Z.to_nat (poff p) + k)%nat = Some indeterminate -> (k < n)%nat ->
  faulty (for_loop n
            (fun '(Rforce, leapFuncArgs) =>
               f <- get_field planarRforce leapFuncArgs ;;
               na <- force_args leapFuncArgs ;;
               ret ((Rforce + f R phi (fst na) (snd na))%D, ptr_add leapFuncArgs 1))
            (acc, p) m).
Proof.
  induction k as [|k IH]; intros [|n] p acc Hb H0 Hk Hn; try lia; cbn [for_loop].
  - apply faulty_bind. intros [acc' p'] m' Hrun. exfalso.
    apply bind_inv in Hrun as (f & m1 & Hf & _). revert Hf.
    unfold get_field. erewrite bind_Ok.
    2: { eapply load_struct_intro; [exact Hb|]. apply at_off_lookup; [exact H0|].
         rewrite Nat.add_0_r in Hk. exact Hk. }
    discriminate.
  - apply faulty_bind. intros [acc' p'] m' Hrun.
    assert (m' = m) as ->.
    { change m' with (final (Ok (acc', p') m')). rewrite <- Hrun.
      apply reads_only_bind; [apply reads_only_get_field|]. intros f.
      apply reads_only_bind; [apply reads_only_force_args|]. intros na.
      apply reads_only_ret. }
    assert (p' = ptr_add p 1) as ->.
    { apply bind_inv in Hrun as (f & m1 & _ & Hrun).
      apply bind_inv in Hrun as (na & m2 & _ & Hrun).
      apply Ok_inj in Hrun as [Hrun _]. now inversion Hrun. }
    apply IH; cbn [pblock poff ptr_add]; [done | lia | | lia].
    rewrite Z2Nat.inj_add by lia. rewrite <- Hk. f_equal. simpl. lia.
Qed.

Lemma evalPlanarRectForce_indeterminate t q a n lfa m ss k :
  heap m !! pblock lfa = Some (StructArr ss) -> (0 <= poff lfa)%Z ->
  ss !! (Z.to_nat (poff lfa) + k)%nat = Some indeterminate -> (k < n)%nat ->
  faulty (evalPlanarRectForce t q a (Z.of_nat n) lfa m).
Proof.
  intros Hb H0 Hk Hn. unfold evalPlanarRectForce.
  apply faulty_bind. intros x m1 (-> & _)%load_double_inv.
  apply faulty_bind. intros y m1 (-> & _)%load_double_inv.
  apply faulty_bind. intros Rf m1 Hrun. exfalso.
  unfold calcPlanarRforce in Hrun. rewrite Nat2Z.id in Hrun.
  apply bind_inv in Hrun as (s & m' & Hs & _).
  pose proof (Rforce_loop_indeterminate (polar_R x y) (polar_phi x y) m ss k n lfa
                d0 Hb H0 Hk Hn) as Hloop.
  rewrite Hs in Hloop. exact Hloop.
Qed.

(** Lines 56 and 67-85: what the engine gets from its callback after a
    set-up from codes that are all [0].  For every time and position it
    returns the two components that [evalPlanarRectForce] stores for the
    sequence built from [pot_args]: the [i]-th term is the logarithmic halo's
    radial force with the two values at the read position [2 * i], and no
    angular force. *)
Theorem callback_after_setup pot_type pot_args m t x y :
  Forall (fun c => c = 0%Z) pot_type ->
  (2 * length pot_type <= length pot_args)%nat ->
  let n := length pot_type in
  let ts := map (fun i => mkForceTerm LH ZeroPlanarForce 2
                            (take 2 (drop (2 * i) pot_args))) (seq 0 n) in
  exists m1,
    setup_forces LH (Z.of_nat n) pot_type pot_args m
    = Ok (mkptr (nextblock m) 0, Z.of_nat n, Z.of_nat (2 * n)) m1
    /\ bound_callback evalPlanarRectForce 2 (Z.of_nat n) (mkptr (nextblock m) 0) m1 t [x; y]
       = Some [fst (spec_acceleration x y ts); snd (spec_acceleration x y ts)].
Proof.
  intros Hall Hlen. cbv zeta. pose proof (zeros_all _ Hall) as Hz.
  destruct (setup_forces_known LH pot_type pot_args m Hall Hlen) as (m1 & Hrun & Hb & Hts).
  destruct (wp_elim _ _ _ (setup_forces_wp LH pot_type pot_args m ltac:(lia)))
    as (s & m1' & Hrun' & _ & _ & Hnb & _).
  rewrite Hrun in Hrun'. apply Ok_inj in Hrun' as [_ <-].
  rewrite firstn_all, Hz in Hnb.
  exists m1. split; [exact Hrun|].
  set (b := nextblock m) in *. set (n := length pot_type) in *.
  set (m2 := mkmem (<[S (nextblock m1) := DoubleArr [None; None]]>
                      (<[nextblock m1 := DoubleArr [Some x; Some y]]> (heap m1)))
                   (S (S (nextblock m1)))
                   ((trace m1 ++ [EvMalloc (nextblock m1)]) ++ [EvMalloc (S (nextblock m1))])).
  assert (Hts2 : holds_terms m2 (mkptr b 0) (built_terms LH pot_args n) (built_ptrs b n)).
  { eapply holds_terms_agree; [| |exact Hts].
    - cbn [heap m2 pblock]. now rewrite !lookup_insert_ne by lia.
    - unfold built_ptrs. apply List.Forall_forall.
      intros a (i & <- & Hi%in_seq)%in_map_iff.
      cbn [heap m2 pblock]. now rewrite !lookup_insert_ne by lia. }
  assert (Hq : holds_position m2 (mkptr (nextblock m1) 0) x y).
  { split; (eapply load_double_intro;
            [cbn [heap m2 pblock ptr_add]; rewrite lookup_insert_ne by lia;
             apply lookup_insert_eq | reflexivity]). }
  assert (Ha : heap m2 !! pblock (mkptr (S (nextblock m1)) 0) = Some (DoubleArr [None; None]))
    by apply lookup_insert_eq.
  pose proof (evalPlanarRectForce_run m2 t _ (mkptr (S (nextblock m1)) 0) _ _ _ x y _
                Hts2 Hq Ha ltac:(done) ltac:(simpl; lia)) as Hev.
  unfold built_terms in Hev at 1. rewrite length_map, length_seq in Hev.
  unfold bound_callback.
  erewrite bind_Ok by reflexivity. erewrite bind_Ok by reflexivity.
  cbn [nextblock heap trace].
  change (replicate (Z.to_nat 2) None) with [@None double; None].
  fold m2. rewrite (bind_Ok _ _ _ _ _ Hev).
  change (Z.to_nat 2) with 2%nat.
  erewrite load_doubles_two; [reflexivity | | reflexivity].
  unfold stored_two. cbn [heap pblock]. rewrite lookup_insert_eq. reflexivity.
Qed.

(** Lines 56 and 87-99 after a set-up with a code other than [0]: every
    call of the callback faults, whatever the time and the position, at the
    [planarRforce] that the set-up did not assign.  The engine is handed a
    force it cannot evaluate. *)
Theorem callback_unknown_code pot_type pot_args m k c :
  pot_type !! k = Some c -> c <> 0%Z ->
  (2 * zeros pot_type <= length pot_args)%nat ->
  let n := length pot_type in
  exists m1,
    setup_forces LH (Z.of_nat n) pot_type pot_args m
    = Ok (mkptr (nextblock m) 0, Z.of_nat n, Z.of_nat (2 * zeros pot_type)) m1
    /\ forall t qv,
         bound_callback evalPlanarRectForce 2 (Z.of_nat n) (mkptr (nextblock m) 0) m1 t qv
         = None.
Proof.
  intros Hc Hne Hlen. cbv zeta. pose proof (lookup_lt_Some _ _ _ Hc) as Hk.
  destruct (wp_elim _ _ _ (setup_forces_wp LH pot_type pot_args m Hlen))
    as (s & m1 & Hrun & -> & _ & Hnb & _ & Hb & _).
  rewrite firstn_all in *. rewrite Nat.sub_diag, app_nil_r in Hb.
  exists m1. split; [exact Hrun|]. intros t qv.
  unfold bound_callback.
  erewrite bind_Ok by reflexivity. erewrite bind_Ok by reflexivity.
  cbn [nextblock heap trace].
  match goal with
  | |- match bind (evalPlanarRectForce t ?q ?a ?n ?lfa) _ ?m2 with _ => _ end = _ =>
      pose proof (evalPlanarRectForce_indeterminate t q a (length pot_type) lfa m2
                    (slots_of LH pot_type (nextblock m + 1)) k) as Hev;
      unfold bind; destruct (evalPlanarRectForce t q a n lfa m2); [|reflexivity]
  end.
  destruct Hev; [| done | | exact Hk].
  - cbn [heap pblock]. rewrite !lookup_insert_ne by lia. exact Hb.
  - cbn [poff]. simpl. rewrite (slots_of_lookup LH _ _ _ _ Hc). now rewrite decide_False.
Qed.

End Callback.

(** ** The codes that the set-up reads *)

Section CodesRead.
Context {D : DoubleOps}.
Variable LH : force_fn.
Variable leapfrog :
  force_callback -> Z -> list double -> Z -> list double -> double -> double ->
  list double.

(** Two loops whose bodies agree on every state that the first can reach
    run alike; [I k] holds of the state before turn [k]. *)
Lemma for_loop_agree {S} (I : nat -> S -> Prop) (body1 body2 : S -> M S) :
  forall n s m,
  I 0%nat s ->
  (forall k s m, (k < n)%nat -> I k s ->
     body1 s m = body2 s m
     /\ forall s' m', body1 s m = Ok s' m' -> I (Datatypes.S k) s') ->
  for_loop n body1 s m = for_loop n body2 s m.
Proof.
  intros n. revert I. induction n as [|n IH]; intros I s m H0 Hstep; simpl; [done|].
  destruct (Hstep 0%nat s m ltac:(lia) H0) as [E Hnext].
  unfold bind. rewrite <- E. destruct (body1 s m) as [s' m'|f m'] eqn:Hrun; [|done].
  apply (IH (fun k => I (Datatypes.S k))); [exact (Hnext _ _ eq_refl)|].
  intros k s1 m1 Hk. apply Hstep. lia.
Qed.

(** A turn of the set-up loop steps the read position in [pot_type] by
    one. *)
Lemma setup_body_steps_pt pot_type pot_args p pt pa m s' m' :
  setup_body LH pot_type pot_args (p, pt, pa) m = Ok s' m' ->
  snd (fst s') = (pt + 1)%Z.
Proof.
  unfold setup_body. intros H.
  apply bind_inv in H as (c & m1 & _ & H).
  apply bind_inv in H as (pa' & m2 & _ & H).
  apply Ok_inj in H as [<- _]. reflexivity.
Qed.

(** Lines 39-40: the set-up reads [npot] codes and no more.  Whatever
    follows the first [npot] codes in [pot_type], the set-up and the whole
    call run the same, in result and in memory, returning or faulting. *)
Theorem codes_beyond_npot_not_read yo nt t rtol atol pot_type more pot_args m :
  let npot := Z.of_nat (length pot_type) in
  setup_forces LH npot (pot_type ++ more) pot_args m
  = setup_forces LH npot pot_type pot_args m
  /\ integratePlanarOrbit LH leapfrog yo nt t npot (pot_type ++ more) pot_args rtol atol m
     = integratePlanarOrbit LH leapfrog yo nt t npot pot_type pot_args rtol atol m.
Proof.
  cbv zeta.
  assert (E : setup_forces LH (Z.of_nat (length pot_type)) (pot_type ++ more) pot_args m
              = setup_forces LH (Z.of_nat (length pot_type)) pot_type pot_args m).
  { unfold setup_forces. rewrite Nat2Z.id. unfold bind at 1 3.
    destruct (malloc_structs (Z.of_nat (length pot_type)) m) as [lfa m1|f m1]; [|done].
    unfold bind.
    rewrite (for_loop_agree (fun k s => snd (fst s) = Z.of_nat k)
               (setup_body LH (pot_type ++ more) pot_args)
               (setup_body LH pot_type pot_args)); [done | done |].
    intros k [[p pt] pa] m2 Hk Hpt. cbn [fst snd] in Hpt. subst pt. split.
    - unfold setup_body, read_input. rewrite !at_off_nat.
      now rewrite lookup_app_l by lia.
    - intros s' m' Hrun. rewrite (setup_body_steps_pt _ _ _ _ _ _ _ _ Hrun). lia. }
  split; [exact E|]. unfold integratePlanarOrbit, bind at 1 4. now rewrite E.
Qed.

End CodesRead.

(** ** Sums of forces *)

Section ExactSums.
Context {D : DoubleOps}.
Hypothesis add_comm : forall x y : double, (x + y = y + x)%D.
Hypothesis add_assoc : forall x y z : double, (x + (y + z) = (x + y) + z)%D.

Lemma fold_add_perm (f : ForceTerm -> double) ts ts' :
  Permutation ts ts' ->
  forall acc, fold_left (fun acc tm => (acc + f tm)%D) ts acc
              = fold_left (fun acc tm => (acc + f tm)%D) ts' acc.
Proof.
  induction 1 as [|tm ts ts' _ IH|tm1 tm2 ts|ts1 ts2 ts3 _ IH1 _ IH2]; intros acc; simpl.
  - reflexivity.
  - apply IH.
  - f_equal. rewrite <- !add_assoc. f_equal. apply add_comm.
  - now rewrite IH1.
Qed.

Lemma sum_forces_perm f ts ts' :
  Permutation ts ts' -> sum_forces f ts = sum_forces f ts'.
Proof. intros H. now apply fold_add_perm. Qed.

End ExactSums.

Section ZeroSums.
Context {D : DoubleOps}.
Hypothesis add_0_0 : (d0 + d0 = d0)%D.

Lemma sum_forces_zero (f : ForceTerm -> double) ts :
  Forall (fun tm => f tm = d0) ts -> sum_forces f ts = d0.
Proof.
  unfold sum_forces. induction 1 as [|tm ts Htm _ IH]; simpl; [done|].
  now rewrite Htm, add_0_0.
Qed.

End ZeroSums.

(** ** The evaluator over the reals *)

Section RealClaims.
Local Open Scope R_scope.
Local Abbreviation sqrt := R_sqrt.sqrt.

Lemma Rltb_true x y : x < y -> Rltb x y = true.
Proof. unfold Rltb. now destruct (Rlt_dec x y). Qed.

Lemma Rltb_false x y : ~ x < y -> Rltb x y = false.
Proof. unfold Rltb. now destruct (Rlt_dec x y). Qed.

Lemma Rltb_lt x y : Rltb x y = true -> x < y.
Proof. unfold Rltb. now destruct (Rlt_dec x y). Qed.

Lemma polar_phi_upper (x y : R) :
  0 <= y -> @polar_phi RealArith x y = acos (x / sqrt (x * x + y * y)).
Proof.
  intros Hy. unfold polar_phi, polar_R. cbn. now rewrite Rltb_false by lra.
Qed.

Lemma polar_phi_lower (x y : R) :
  y < 0 -> @polar_phi RealArith x y = acos (x / sqrt (x * x + y * y)) + 2 * PI.
Proof.
  intros Hy. unfold polar_phi, polar_R. cbn. now rewrite Rltb_true by lra.
Qed.

(** Off the origin, [R] is positive and [R * R = x * x + y * y]. *)
Lemma polar_R_pos (x y : R) : x <> 0 \/ y <> 0 -> 0 < @polar_R RealArith x y.
Proof.
  intros H. unfold polar_R. cbn. apply sqrt_lt_R0.
  destruct H as [H|H]; nra.
Qed.

Lemma polar_R_square (x y : R) :
  @polar_R RealArith x y * @polar_R RealArith x y = x * x + y * y.
Proof. unfold polar_R. cbn. apply sqrt_sqrt. nra. Qed.

Lemma polar_cosphi_bound (x y : R) :
  x <> 0 \/ y <> 0 -> -1 <= x / @polar_R RealArith x y <= 1.
Proof.
  intros H. pose proof (polar_R_pos x y H) as HR.
  pose proof (polar_R_square x y) as HR2.
  set (r := @polar_R RealArith x y) in *.
  assert (-r <= x <= r) as [H1 H2] by nra.
  split.
  - apply (Rmult_le_reg_r r); [exact HR|]. unfold Rdiv.
    rewrite Rmult_assoc, Rinv_l by lra. lra.
  - apply (Rmult_le_reg_r r); [exact HR|]. unfold Rdiv.
    rewrite Rmult_assoc, Rinv_l by lra. lra.
Qed.

(** On and above the x axis, off the origin: the quotient [x / R] handed to
    [acos] lies in [[-1, 1]], the computed angle is its arc cosine, and it
    lies in [[0, pi]].  (At the origin [x / R] is [0 / 0]: the code computes
    NaN there.) *)
Theorem polar_phi_upper_range (x y : R) :
  x <> 0 \/ y <> 0 -> 0 <= y ->
  -1 <= x / @polar_R RealArith x y <= 1
  /\ @polar_phi RealArith x y = acos (x / @polar_R RealArith x y)
  /\ 0 <= @polar_phi RealArith x y <= PI.
Proof.
  intros Hxy Hy. split; [now apply polar_cosphi_bound|].
  rewrite polar_phi_upper by done. split; [reflexivity|]. apply acos_bound.
Qed.

(** Below the x axis the computed angle lies in [[2 pi, 3 pi]]: the code adds
    [2 pi] to an angle in [[0, pi]]. *)
Theorem polar_phi_lower_range (x y : R) :
  y < 0 -> 2 * PI <= @polar_phi RealArith x y <= 3 * PI.
Proof.
  intros Hy. rewrite polar_phi_lower by done.
  pose proof (acos_bound (x / sqrt (x * x + y * y))). lra.
Qed.

(** C2, at [(x, y) = (0, -1)]: the code computes [phi = acos 0 + 2 pi = 5 pi / 2],
    which is neither in [(pi, 2 pi)] nor in [[0, 2 pi)]; the angle of that
    point is [3 pi / 2]. *)
Theorem polar_phi_below_axis :
  @polar_phi RealArith 0 (-1) = 5 * PI / 2
  /\ ~ (PI < @polar_phi RealArith 0 (-1) < 2 * PI)
  /\ ~ (0 <= @polar_phi RealArith 0 (-1) < 2 * PI).
Proof.
  assert (E : @polar_phi RealArith 0 (-1) = 5 * PI / 2).
  { rewrite polar_phi_lower by lra. unfold Rdiv at 1. rewrite Rmult_0_l, acos_0. lra. }
  rewrite E. pose proof PI_RGT_0. repeat split; lra.
Qed.

(** There the sine of the computed angle is [1], while the [sinphi] that the
    same function uses for the angle is [-1]. *)
Lemma sin_polar_phi_below_axis :
  sin (@polar_phi RealArith 0 (-1)) = 1 /\ @polar_sinphi RealArith 0 (-1) = -1.
Proof.
  split.
  - rewrite polar_phi_lower by lra. unfold Rdiv at 1. rewrite Rmult_0_l, acos_0.
    rewrite sin_plus, sin_2PI, cos_2PI, sin_PI2. lra.
  - unfold polar_sinphi, polar_R. cbn.
    replace (0 * 0 + -1 * -1) with 1 by lra. rewrite sqrt_1. lra.
Qed.

(** The claim as stated, in exact arithmetic: for [x > 0] and [R > 0],
    [R * cosphi = x] and [R * sinphi = y]. *)
Lemma RoundTrip_real x y : @RoundTripAt RealArith x y.
Proof.
  intros _ HR. apply Rltb_lt in HR. unfold polar_cosphi, polar_sinphi. cbn in *.
  split; field; lra.
Qed.

(** In exact arithmetic, for [x > 0]: [R = sqrt (x^2 + y^2)] is positive,
    [R * R = x^2 + y^2], and [R * cosphi] and [R * sinphi] give back [x] and
    [y]. *)
Lemma RoundTrip_exact (x y : R) :
  0 < x ->
  0 < @polar_R RealArith x y
  /\ @polar_R RealArith x y * @polar_R RealArith x y = x * x + y * y
  /\ @polar_R RealArith x y * @polar_cosphi RealArith x y = x
  /\ @polar_R RealArith x y * @polar_sinphi RealArith x y = y.
Proof.
  intros Hx.
  assert (HR : 0 < @polar_R RealArith x y).
  { unfold polar_R. cbn. apply sqrt_lt_R0. nra. }
  split; [exact HR|]. split.
  - unfold polar_R. cbn. apply sqrt_sqrt. nra.
  - unfold polar_cosphi, polar_sinphi. cbn [ddiv dmul double RealArith].
    split; field; lra.
Qed.

Lemma spec_acceleration_perm_real x y ts ts' :
  Permutation ts ts' ->
  @spec_acceleration RealArith x y ts = @spec_acceleration RealArith x y ts'.
Proof.
  intros H. unfold spec_acceleration.
  rewrite !(sum_forces_perm (D:=RealArith) Rplus_comm
              (fun a b c => eq_sym (Rplus_assoc a b c)) _ ts ts' H).
  reflexivity.
Qed.

(** C8, in exact arithmetic: for every permutation [ts'] of a Force Term
    Sequence [ts] and every position with [R > 0], the sums [Rforce] and
    [phiforce] are the same, and the evaluator stores the same acceleration
    for a memory that holds [ts'] as for one that holds [ts]. *)
Theorem OrderIndependent_real t x y ts ts' : @OrderIndependentAt RealArith t x y ts ts'.
Proof.
  intros H _. cbv zeta.
  split; [|split].
  - apply (sum_forces_perm (D:=RealArith) Rplus_comm
             (fun a b c => eq_sym (Rplus_assoc a b c))), H.
  - apply (sum_forces_perm (D:=RealArith) Rplus_comm
             (fun a b c => eq_sym (Rplus_assoc a b c))), H.
  - intros m q a lfa aps m' q' a' lfa' aps' Hts Hq (ds & Ha & H0 & Hlen)
           Hts' Hq' (ds' & Ha' & H0' & Hlen').
    do 2 eexists. exists (fst (spec_acceleration x y ts)), (snd (spec_acceleration x y ts)).
    split; [eapply evalPlanarRectForce_run; eauto|].
    split; [eapply evalPlanarRectForce_run; eauto|].
    split; [now apply stored_two_loads|]. split; [now apply stored_two_loads|].
    rewrite (spec_acceleration_perm_real x y ts ts' H).
    split; now apply stored_two_loads.
Qed.

(** In exact arithmetic: when every angular force law of the sequence is
    constantly zero and [R > 0], [phiforce = 0], the evaluator stores
    [ax = (x / R) * Rforce] and [ay = (y / R) * Rforce], and
    [ax * y = ay * x]. *)
Lemma Radial_real t x y ts : @RadialAt RealArith t x y ts.
Proof.
  intros Hzero HR. apply Rltb_lt in HR. cbv zeta.
  assert (Hphi : sum_forces (angular_force (polar_R x y) (polar_phi x y)) ts = 0).
  { apply (sum_forces_zero (D:=RealArith)); [cbn; lra|].
    eapply Forall_impl; [exact Hzero|]. intros tm Htm. apply Htm. }
  split; [exact Hphi|].
  intros m q a lfa aps Hts Hq (ds & Ha & H0 & Hlen).
  eexists. exists (fst (spec_acceleration x y ts)), (snd (spec_acceleration x y ts)).
  split; [eapply evalPlanarRectForce_run; eauto|].
  split; [now apply stored_two_loads|]. split; [now apply stored_two_loads|].
  unfold spec_acceleration. cbv zeta. cbn [fst snd]. rewrite Hphi.
  cbn in *. repeat split; field; lra.
Qed.

End RealClaims.

(** ** The angle handed to the force laws against the angle of the point *)

Section AngleClaim.
Local Open Scope R_scope.
Local Abbreviation sqrt := R_sqrt.sqrt.

(** On and above the x axis the code's angle is the angle of the point, and
    the acceleration is the one the specification states. *)
Lemma acceleration_claim_above_axis t x y ts :
  0 <= y -> AccelerationClaimAt t x y ts.
Proof.
  intros Hy HR phi (Hrange & Hc & Hs) m q a lfa aps Hts Hq (ds & Ha & H0 & Hlen).
  assert (Hphi : phi <= PI).
  { destruct (Rle_dec phi PI) as [H|H]; [exact H|]. exfalso.
    assert (sin phi < 0) by (apply sin_lt_0; lra).
    assert (0 <= y / sqrt (x * x + y * y)).
    { apply Rmult_le_pos; [exact Hy|]. left. now apply Rinv_0_lt_compat. }
    lra. }
  assert (E : @spec_acceleration RealArith x y ts = claimed_acceleration x y phi ts).
  { unfold spec_acceleration, claimed_acceleration. cbv zeta.
    rewrite polar_phi_upper by exact Hy.
    unfold polar_R. cbn [dadd dsub dmul ddiv dsqrt d1 double RealArith].
    rewrite <- Hc, <- Hs, acos_cos by lra. reflexivity. }
  eexists. split; [eapply evalPlanarRectForce_run; eauto|].
  rewrite E. now apply (stored_two_loads (D:=RealArith)).
Qed.

End AngleClaim.

Section AngleClaimFails.

(** C4 as stated fails below the x axis.  At [(0, -1)], with the radial
    force law [sin phi]: the angle of the point is [3 pi / 2], its sine is
    [-1], and the stated acceleration has [ay = sin phi * sin phi = 1]; the
    code evaluates the law at [5 pi / 2], where the sine is [1], and stores
    [ay = sinphi * 1 = -1]. *)
Lemma acceleration_claim_fails_below_axis :
  ~ AccelerationClaimAt 0%R 0%R (-1)%R [sine_term].
Proof.
  intros H.
  assert (Hr : R_sqrt.sqrt (0 * 0 + -1 * -1) = 1%R)
    by (replace (0 * 0 + -1 * -1)%R with 1%R by lra; apply sqrt_1).
  pose proof PI_RGT_0 as Hpi.
  assert (Hts : holds_terms (layout [sine_term] 0%R (-1)%R) (mkptr 0 0) [sine_term]
                            (layout_ptrs [sine_term])) by (repeat split).
  assert (Hq : holds_position (layout [sine_term] 0%R (-1)%R) (mkptr 1 0) 0%R (-1)%R)
    by (split; reflexivity).
  assert (Ha : heap (layout [sine_term] 0%R (-1)%R) !! pblock (mkptr 2 0)
               = Some (@DoubleArr RealArith [None; None])) by reflexivity.
  destruct (H ltac:(rewrite Hr; lra) (3 * (PI / 2))%R) with
    (m := layout [sine_term] 0%R (-1)%R) (q := mkptr 1 0) (a := mkptr 2 0)
    (lfa := mkptr 0 0) (aps := layout_ptrs [sine_term]) as (m' & E & _ & L).
  - split; [lra|]. rewrite Hr, cos_3PI2, sin_3PI2. split; lra.
  - exact Hts.
  - exact Hq.
  - exists [None; None]. split; [exact Ha | split; [done | simpl; lia]].
  - pose proof (evalPlanarRectForce_run (D:=RealArith) _ 0%R _ _ _ _ _ _ _ _ Hts Hq Ha
                  ltac:(done) ltac:(simpl; lia)) as Hrun.
    change (Z.of_nat (length [sine_term])) with 1%Z in *.
    rewrite Hrun in E. apply Ok_inj in E as [_ <-].
    destruct (stored_two_loads (D:=RealArith) (layout [sine_term] 0%R (-1)%R) (mkptr 2 0)
                (fst (@spec_acceleration RealArith 0%R (-1)%R [sine_term]))
                (snd (@spec_acceleration RealArith 0%R (-1)%R [sine_term]))
                _ Ha ltac:(done) ltac:(simpl; lia)) as [_ L'].
    rewrite L' in L. apply Ok_inj in L as [L _]. revert L.
    unfold spec_acceleration, claimed_acceleration, sum_forces, radial_force,
      angular_force, sine_term, sine_law, ZeroPlanarForce. cbv zeta.
    rewrite polar_phi_lower by lra.
    unfold polar_R.
    cbn [fst snd fold_left radial_force_fn angular_force_fn param_count params
         dadd dsub dmul ddiv dsqrt d0 d1 double RealArith].
    rewrite Hr, sin_3PI2, cos_3PI2.
    replace (0 / 1)%R with 0%R by lra. rewrite acos_0.
    rewrite sin_plus, sin_2PI, cos_2PI, sin_PI2, cos_PI2. lra.
Qed.

End AngleClaimFails.

(** ** Superposition and the components of the acceleration, over the reals *)

Section RealForces.
Local Open Scope R_scope.
Local Abbreviation sqrt := R_sqrt.sqrt.

Lemma sin_acos_cosphi (x y : R) :
  x <> 0 \/ y <> 0 ->
  sin (acos (x / @polar_R RealArith x y)) = Rabs y / @polar_R RealArith x y.
Proof.
  intros H. pose proof (polar_R_pos x y H) as HR.
  pose proof (polar_R_square x y) as HR2.
  rewrite sin_acos by now apply polar_cosphi_bound.
  set (r := @polar_R RealArith x y) in *.
  replace (1 - (x / r)²) with ((Rabs y / r)²).
  - apply sqrt_Rsqr. apply Rmult_le_pos; [apply Rabs_pos|].
    left. now apply Rinv_0_lt_compat.
  - unfold Rsqr. replace (Rabs y / r * (Rabs y / r)) with (Rabs y * Rabs y / (r * r))
      by (field; lra).
    replace (Rabs y * Rabs y) with (y * y)
      by (unfold Rabs; destruct (Rcase_abs y); ring).
    replace (y * y) with (r * r - x * x) by lra. field. lra.
Qed.

(** Lines 76-79: the angle handed to the force laws against the cosine and
    sine that the back-transformation uses.  Off the origin the cosines
    agree; the sines agree on and above the x axis and are opposite below
    it: there [phi] is the angle of the mirror image [(x, -y)]. *)
Theorem polar_phi_against_sinphi (x y : R) :
  x <> 0 \/ y <> 0 ->
  cos (@polar_phi RealArith x y) = @polar_cosphi RealArith x y
  /\ (0 <= y -> sin (@polar_phi RealArith x y) = @polar_sinphi RealArith x y)
  /\ (y < 0 -> sin (@polar_phi RealArith x y) = - @polar_sinphi RealArith x y).
Proof.
  intros H. pose proof (polar_cosphi_bound x y H) as Hc.
  pose proof (sin_acos_cosphi x y H) as Hs.
  unfold polar_cosphi, polar_sinphi, polar_R in *.
  cbn [ddiv dsqrt dadd dmul double RealArith] in *.
  split; [|split].
  - destruct (Rlt_dec y 0) as [Hy|Hy].
    + rewrite polar_phi_lower by done.
      rewrite cos_plus, sin_2PI, cos_2PI, cos_acos by done. lra.
    + rewrite polar_phi_upper by lra. now apply cos_acos.
  - intros Hy. rewrite polar_phi_upper by done.
    rewrite Hs, Rabs_pos_eq by done. reflexivity.
  - intros Hy. rewrite polar_phi_lower by done.
    rewrite sin_plus, sin_2PI, cos_2PI, Hs, Rabs_left by done. lra.
Qed.

(** Sums over a concatenation, in exact arithmetic. *)
Lemma sum_forces_app_real (f : @ForceTerm RealArith -> R) ts1 ts2 :
  @sum_forces RealArith f (ts1 ++ ts2)
  = @sum_forces RealArith f ts1 + @sum_forces RealArith f ts2.
Proof.
  assert (Hacc : forall ts acc,
            fold_left (fun acc tm => acc + f tm) ts acc
            = acc + fold_left (fun acc tm => acc + f tm) ts 0).
  { induction ts as [|tm ts IH]; intros acc; simpl; [lra|].
    rewrite (IH (acc + f tm)), (IH (0 + f tm)). lra. }
  unfold sum_forces. rewrite fold_left_app. cbn [d0 dadd double RealArith].
  apply Hacc.
Qed.

(** Lines 81-84, superposition in exact arithmetic: the acceleration that
    the evaluator stores for a sequence [ts1 ++ ts2] is the sum, component by
    component, of those it stores for [ts1] and for [ts2] at the same
    position. *)
Theorem superposition_real t x y ts1 ts2
  m q a lfa aps m1 q1 a1 lfa1 aps1 m2 q2 a2 lfa2 aps2 :
  @holds_terms RealArith m lfa (ts1 ++ ts2) aps ->
  holds_position m q x y -> room_for_two m a ->
  holds_terms m1 lfa1 ts1 aps1 -> holds_position m1 q1 x y -> room_for_two m1 a1 ->
  holds_terms m2 lfa2 ts2 aps2 -> holds_position m2 q2 x y -> room_for_two m2 a2 ->
  exists m' m1' m2' ax ay ax1 ay1 ax2 ay2,
    evalPlanarRectForce t q a (Z.of_nat (length (ts1 ++ ts2))) lfa m = Ok tt m'
    /\ evalPlanarRectForce t q1 a1 (Z.of_nat (length ts1)) lfa1 m1 = Ok tt m1'
    /\ evalPlanarRectForce t q2 a2 (Z.of_nat (length ts2)) lfa2 m2 = Ok tt m2'
    /\ load_double a m' = Ok ax m' /\ load_double (ptr_add a 1) m' = Ok ay m'
    /\ load_double a1 m1' = Ok ax1 m1' /\ load_double (ptr_add a1 1) m1' = Ok ay1 m1'
    /\ load_double a2 m2' = Ok ax2 m2' /\ load_double (ptr_add a2 1) m2' = Ok ay2 m2'
    /\ ax = ax1 + ax2 /\ ay = ay1 + ay2.
Proof.
  intros Hts Hq (ds & Ha & H0 & Hlen) Hts1 Hq1 (ds1 & Ha1 & H01 & Hlen1)
         Hts2 Hq2 (ds2 & Ha2 & H02 & Hlen2).
  do 3 eexists.
  exists (fst (@spec_acceleration RealArith x y (ts1 ++ ts2))), (snd (@spec_acceleration RealArith x y (ts1 ++ ts2))),
         (fst (@spec_acceleration RealArith x y ts1)), (snd (@spec_acceleration RealArith x y ts1)),
         (fst (@spec_acceleration RealArith x y ts2)), (snd (@spec_acceleration RealArith x y ts2)).
  split; [eapply evalPlanarRectForce_run; eauto|].
  split; [eapply evalPlanarRectForce_run; eauto|].
  split; [eapply evalPlanarRectForce_run; eauto|].
  split; [now apply stored_two_loads|]. split; [now apply stored_two_loads|].
  split; [now apply stored_two_loads|]. split; [now apply stored_two_loads|].
  split; [now apply stored_two_loads|]. split; [now apply stored_two_loads|].
  unfold spec_acceleration. cbv zeta. cbn [fst snd].
  rewrite !sum_forces_app_real. cbn [dadd dsub dmul ddiv d1 double RealArith].
  split; ring.
Qed.

(** Lines 75-84 read backwards, in exact arithmetic and off the origin: the
    stored acceleration has the radial component [Rforce] and the torque
    [phiforce]: [x * ax + y * ay = R * Rforce] and [x * ay - y * ax = phiforce],
    so the two sums can be recovered from what the evaluator stores. *)
Theorem acceleration_components_real t x y ts m q a lfa aps :
  x <> 0 \/ y <> 0 ->
  @holds_terms RealArith m lfa ts aps -> holds_position m q x y -> room_for_two m a ->
  let R := @polar_R RealArith x y in
  let phi := @polar_phi RealArith x y in
  let Rforce := @sum_forces RealArith (radial_force R phi) ts in
  let phiforce := @sum_forces RealArith (angular_force R phi) ts in
  exists m' ax ay,
    evalPlanarRectForce t q a (Z.of_nat (length ts)) lfa m = Ok tt m'
    /\ load_double a m' = Ok ax m' /\ load_double (ptr_add a 1) m' = Ok ay m'
    /\ x * ax + y * ay = R * Rforce
    /\ x * ay - y * ax = phiforce
    /\ ax * ax + ay * ay = Rforce * Rforce + (phiforce / R) * (phiforce / R).
Proof.
  intros Hxy Hts Hq (ds & Ha & H0 & Hlen). cbv zeta.
  pose proof (polar_R_pos x y Hxy) as HR.
  pose proof (polar_R_square x y) as HR2.
  eexists. exists (fst (@spec_acceleration RealArith x y ts)), (snd (@spec_acceleration RealArith x y ts)).
  split; [eapply evalPlanarRectForce_run; eauto|].
  split; [now apply stored_two_loads|]. split; [now apply stored_two_loads|].
  unfold spec_acceleration. cbv zeta. cbn [fst snd].
  set (r := @polar_R RealArith x y) in *.
  generalize (@sum_forces RealArith (radial_force r (@polar_phi RealArith x y)) ts).
  generalize (@sum_forces RealArith (angular_force r (@polar_phi RealArith x y)) ts).
  intros P F. cbn [dadd dsub dmul ddiv d1 double RealArith].
  split; [|split].
  - transitivity ((x * x + y * y) / r * F); [field; lra|].
    rewrite <- HR2. field. lra.
  - transitivity ((x * x + y * y) / (r * r) * P); [field; lra|].
    rewrite <- HR2. field. lra.
  - transitivity ((x * x + y * y) / (r * r) * (F * F + P / r * (P / r))); [field; lra|].
    rewrite <- HR2. field. lra.
Qed.

(** Lines 81-84 with no force terms ([nargs <= 0]), in exact arithmetic and
    off the origin: the loops do not run, [leapFuncArgs] is not read, whatever
    it points to, and the evaluator stores the acceleration [(0, 0)]. *)
Theorem no_terms_no_acceleration t x y nargs m q a lfa :
  x <> 0 \/ y <> 0 -> (nargs <= 0)%Z ->
  @holds_position RealArith m q x y -> room_for_two m a ->
  exists m',
    evalPlanarRectForce t q a nargs lfa m = Ok tt m'
    /\ load_double a m' = Ok 0 m' /\ load_double (ptr_add a 1) m' = Ok 0 m'.
Proof.
  intros Hxy Hn Hq (ds & Ha & H0 & Hlen).
  assert (Hnil : @holds_terms RealArith m lfa [] []) by exact I.
  pose proof (evalPlanarRectForce_run m t q a lfa [] [] x y ds Hnil Hq Ha H0 Hlen) as Hrun.
  assert (Hsame : evalPlanarRectForce t q a nargs lfa m
                  = evalPlanarRectForce t q a (Z.of_nat (length (@nil (@ForceTerm RealArith)))) lfa m).
  { unfold evalPlanarRectForce, calcPlanarRforce, calcPlanarphiforce.
    now replace (Z.to_nat nargs) with (Z.to_nat (Z.of_nat (length (@nil (@ForceTerm RealArith)))))
      by (simpl; lia). }
  assert (E : @spec_acceleration RealArith x y [] = (0, 0)).
  { unfold spec_acceleration, sum_forces.
    cbn [fold_left d0 d1 dmul dsub ddiv dadd double RealArith].
    rewrite !Rmult_0_r. f_equal; lra. }
  rewrite E in Hrun. cbn [fst snd] in Hrun.
  rewrite Hsame, Hrun. eexists. split; [reflexivity|].
  now apply (stored_two_loads (D:=RealArith)).
Qed.

End RealForces.

(** ** The evaluator in binary64 *)

Section Binary64Claims.

(** In binary64 the order matters: with radial forces [2^53], [1], [-2^53]
    the sum is [0], and with [2^53], [-2^53], [1] it is [1]; at [(3, 4)] the
    evaluator stores [(0, 0)] for the first order and [(0.6, 0.8)], rounded,
    for the second. *)
Lemma OrderIndependent_binary64_fails :
  ~ exists libm_acos,
      @OrderIndependentAt (Binary64 libm_acos) 0%float 3%float 4%float
        [b64_term libm_acos 0x1p+53%float; b64_term libm_acos 1%float;
         b64_term libm_acos (-0x1p+53)%float]
        [b64_term libm_acos 0x1p+53%float; b64_term libm_acos (-0x1p+53)%float;
         b64_term libm_acos 1%float].
Proof.
  intros [f H]. destruct H as (_ & _ & H); [apply perm_skip, perm_swap | reflexivity |].
  set (ts := [b64_term f 0x1p+53%float; b64_term f 1%float; b64_term f (-0x1p+53)%float]) in *.
  set (ts' := [b64_term f 0x1p+53%float; b64_term f (-0x1p+53)%float; b64_term f 1%float]) in *.
  destruct (H (layout ts 3%float 4%float) (mkptr 1 0) (mkptr 2 0) (mkptr 0 0) (layout_ptrs ts)
              (layout ts' 3%float 4%float) (mkptr 1 0) (mkptr 2 0) (mkptr 0 0) (layout_ptrs ts'))
    as (m1 & m1' & ax & ay & E1 & E2 & L1 & _ & L2 & _).
  - vm_compute. repeat split.
  - vm_compute. repeat split.
  - exists [None; None]. split; [reflexivity | split; [done | simpl; lia]].
  - vm_compute. repeat split.
  - vm_compute. repeat split.
  - exists [None; None]. split; [reflexivity | split; [done | simpl; lia]].
  - vm_compute in E1. vm_compute in E2.
    apply Ok_inj in E1 as [_ <-]. apply Ok_inj in E2 as [_ <-].
    vm_compute in L1. vm_compute in L2.
    apply Ok_inj in L1 as [<- _]. apply Ok_inj in L2 as [L2 _].
    revert L2. discriminate.
Qed.

(** In binary64 the sum of angular forces that are all zero is zero, as it is
    in exact arithmetic. *)
Lemma phiforce_zero_binary64 libm_acos (ts : list (@ForceTerm (Binary64 libm_acos)))
  (R phi : float) :
  Forall (fun tm : @ForceTerm (Binary64 libm_acos) =>
            forall R phi n ps, angular_force_fn tm R phi n ps = 0%float) ts ->
  @sum_forces (Binary64 libm_acos) (@angular_force (Binary64 libm_acos) R phi) ts
  = 0%float.
Proof.
  intros H. apply (sum_forces_zero (D:=Binary64 libm_acos)); [reflexivity|].
  eapply Forall_impl; [exact H|]. intros tm Htm. apply Htm.
Qed.

(** The evaluator run in binary64: one term of radial force [2] at [(3, 4)]
    gives the acceleration [(1.2, 1.6000000000000001)], whatever [acos] is. *)
Lemma evalPlanarRectForce_binary64_run libm_acos :
  exists m' : @mem (Binary64 libm_acos),
    @evalPlanarRectForce (Binary64 libm_acos) 0%float (mkptr 1 0) (mkptr 2 0) 1
      (mkptr 0 0) (layout [b64_term libm_acos 2%float] 3%float 4%float) = Ok tt m'
    /\ heap m' !! 2%nat
       = Some (@DoubleArr (Binary64 libm_acos)
                 [Some 0x1.3333333333333p+0%float; Some 0x1.999999999999ap+0%float]).
Proof. eexists. split; vm_compute; reflexivity. Qed.

(** The whole call run in binary64, with an engine that evaluates the force
    once at the initial position: one potential of code [0] with parameters
    [(2, 0)], a force law that returns its first parameter, the state
    [(3, 4, 0, 1)]. *)
Lemma integratePlanarOrbit_binary64_run libm_acos :
  exists m' : @mem (Binary64 libm_acos),
    @integratePlanarOrbit (Binary64 libm_acos) first_param probe_engine
      [3; 4; 0; 1]%float 2 [0; 1]%float 1 [0%Z] [2; 0]%float 0%float 0%float empty_mem
    = Ok [0x1.3333333333333p+0; 0x1.999999999999ap+0]%float m'
    /\ trace m' = [EvMalloc 0; EvMalloc 1; EvLeapfrog 1 (mkptr 0 0); EvFree 1; EvFree 0].
Proof. eexists. split; vm_compute; reflexivity. Qed.

End Binary64Claims.

(** ** Zero angular force in binary64 *)

Section Binary64Zeros.
Import FloatOps SpecFloat.

(** Two results are the same number: identical, or equal as numbers (the
    zeros of either sign). *)
Definition same_number (a b : float) : Prop := a = b \/ (a =? b)%float = true.

Definition signed_zero (a : float) : Prop := a = 0%float \/ a = (-0)%float.

Lemma signed_zero_SF (u : float) s : Prim2SF u = S754_zero s -> signed_zero u.
Proof.
  intros H. rewrite <- (FloatAxioms.SF2Prim_Prim2SF u), H.
  destruct s; [right | left]; reflexivity.
Qed.

Lemma SF_signed_zero (z : float) : signed_zero z -> exists s, Prim2SF z = S754_zero s.
Proof. intros [-> | ->]; eexists; reflexivity. Qed.

Lemma signed_zeros_same (a b : float) : signed_zero a -> signed_zero b -> same_number a b.
Proof. intros [-> | ->] [-> | ->]; right; reflexivity. Qed.

(** A finite float is a zero or has a mantissa and an exponent. *)
Lemma is_finite_SF (w : float) :
  is_finite w = true ->
  (exists s, Prim2SF w = S754_zero s) \/ (exists s m e, Prim2SF w = S754_finite s m e).
Proof.
  unfold is_finite, is_nan, is_infinity.
  rewrite !FloatAxioms.eqb_spec, FloatAxioms.abs_spec.
  destruct (Prim2SF w) as [s|s| |s m e].
  - eauto.
  - destruct s; vm_compute; discriminate.
  - vm_compute. discriminate.
  - eauto 6.
Qed.

(** A finite float times [0.] is a zero. *)
Lemma mul_zero_finite (w : float) : is_finite w = true -> signed_zero (w * 0)%float.
Proof.
  intros [[s H]|(s & m & e & H)]%is_finite_SF.
  - apply (signed_zero_SF _ (xorb s false)). rewrite FloatAxioms.mul_spec, H. reflexivity.
  - apply (signed_zero_SF _ (xorb s false)). rewrite FloatAxioms.mul_spec, H. reflexivity.
Qed.

(** Subtracting or adding a zero gives the same number back. *)
Lemma sub_signed_zero (u z : float) : signed_zero z -> same_number (u - z)%float u.
Proof.
  intros Hz. destruct (SF_signed_zero z Hz) as [sz Hsz].
  destruct (Prim2SF u) as [su|su| |su mu eu] eqn:Hu.
  - apply signed_zeros_same; [|now apply (signed_zero_SF _ su)].
    assert (Hs : exists s, Prim2SF (u - z)%float = S754_zero s).
    { rewrite FloatAxioms.sub_spec, Hu, Hsz. destruct su, sz; eexists; reflexivity. }
    destruct Hs as [s Hs]. now apply (signed_zero_SF _ s).
  - left. apply FloatAxioms.Prim2SF_inj. rewrite FloatAxioms.sub_spec, Hu, Hsz. reflexivity.
  - left. apply FloatAxioms.Prim2SF_inj. rewrite FloatAxioms.sub_spec, Hu, Hsz. reflexivity.
  - left. apply FloatAxioms.Prim2SF_inj. rewrite FloatAxioms.sub_spec, Hu, Hsz. reflexivity.
Qed.

Lemma add_signed_zero (u z : float) : signed_zero z -> same_number (u + z)%float u.
Proof.
  intros Hz. destruct (SF_signed_zero z Hz) as [sz Hsz].
  destruct (Prim2SF u) as [su|su| |su mu eu] eqn:Hu.
  - apply signed_zeros_same; [|now apply (signed_zero_SF _ su)].
    assert (Hs : exists s, Prim2SF (u + z)%float = S754_zero s).
    { rewrite FloatAxioms.add_spec, Hu, Hsz. destruct su, sz; eexists; reflexivity. }
    destruct Hs as [s Hs]. now apply (signed_zero_SF _ s).
  - left. apply FloatAxioms.Prim2SF_inj. rewrite FloatAxioms.add_spec, Hu, Hsz. reflexivity.
  - left. apply FloatAxioms.Prim2SF_inj. rewrite FloatAxioms.add_spec, Hu, Hsz. reflexivity.
  - left. apply FloatAxioms.Prim2SF_inj. rewrite FloatAxioms.add_spec, Hu, Hsz. reflexivity.
Qed.

End Binary64Zeros.

(** ** Rounding in binary64 *)

(** The binary64 operations are specified by the functions of [SpecFloat]:
    [x * y] is [SFmul] and [x / y] is [SFdiv] of the operands, both ending
    in [binary_round_aux].  What follows derives from those functions how far
    a rounded product and a rounded quotient are from the exact ones: half a
    unit in the last place of the result, which for a normal result is at
    most [2^-53] of it. *)

Section Rounding.
Import FloatOps SpecFloat.
Local Open Scope R_scope.

(** [2^e] as a real number. *)
Definition pw (e : Z) : R := powerRZ 2 e.

Lemma pw_pos e : 0 < pw e.
Proof. apply powerRZ_lt. lra. Qed.

Lemma pw_add a b : pw (a + b) = pw a * pw b.
Proof. apply powerRZ_add. lra. Qed.

Lemma pw_IZR n : (0 <= n)%Z -> pw n = IZR (2 ^ n).
Proof.
  intros H. unfold pw. destruct n as [|p|p]; [reflexivity | | lia].
  symmetry. apply (Zpower_pos_powerRZ 2 p).
Qed.

Lemma pw_le a b : (a <= b)%Z -> pw a <= pw b.
Proof.
  intros H. replace b with (a + (b - a))%Z by lia. rewrite pw_add.
  rewrite (pw_IZR (b - a)) by lia.
  assert (1 <= IZR (2 ^ (b - a))).
  { apply IZR_le. pose proof (Z.pow_pos_nonneg 2 (b - a)). lia. }
  pose proof (pw_pos a). nra.
Qed.

(** The real number [v] against the record [mrs] of a shift: [v] lies in
    [[m, m + 1)] and the two bits say where. *)
Definition inb (mrs : shr_record) (v : R) : Prop :=
  let m := IZR (shr_m mrs) in
  match shr_r mrs, shr_s mrs with
  | false, false => v = m
  | false, true => m < v < m + / 2
  | true, false => v = m + / 2
  | true, true => m + / 2 < v < m + 1
  end.

Lemma IZR_xO p : IZR (Zpos p~0) = 2 * IZR (Zpos p).
Proof. rewrite Pos2Z.inj_xO, mult_IZR. reflexivity. Qed.

Lemma IZR_xI p : IZR (Zpos p~1) = 2 * IZR (Zpos p) + 1.
Proof. rewrite Pos2Z.inj_xI, plus_IZR, mult_IZR. reflexivity. Qed.

Lemma shr_1_inb mrs v :
  (0 <= shr_m mrs)%Z -> inb mrs v ->
  inb (shr_1 mrs) (v / 2) /\ shr_m (shr_1 mrs) = (shr_m mrs / 2)%Z.
Proof.
  destruct mrs as [m r s]. cbn [shr_m]. intros Hm H.
  destruct m as [|[p|p|]|p]; [| | | |lia].
  - destruct r, s; unfold inb in *; cbn in *; split; try reflexivity; lra.
  - split.
    + unfold inb in *. cbn [shr_1 shr_m shr_r shr_s orb] in *.
      rewrite IZR_xI in H. destruct r, s; cbn in *; lra.
    + cbn [shr_1 shr_m]. rewrite Pos2Z.inj_xI.
      apply Z.div_unique with 1%Z; lia.
  - split.
    + unfold inb in *. cbn [shr_1 shr_m shr_r shr_s orb] in *.
      rewrite IZR_xO in H. destruct r, s; cbn in *; lra.
    + cbn [shr_1 shr_m]. rewrite Pos2Z.inj_xO.
      apply Z.div_unique with 0%Z; lia.
  - split.
    + unfold inb in *. cbn [shr_1 shr_m shr_r shr_s orb] in *.
      destruct r, s; cbn in *; lra.
    + reflexivity.
Qed.

Lemma pow2_xI p : (2 ^ Zpos p~1 = 2 * (2 ^ Zpos p * 2 ^ Zpos p))%Z.
Proof.
  replace (Zpos p~1) with (Z.succ (Zpos p + Zpos p)) by lia.
  rewrite Z.pow_succ_r by lia. rewrite Z.pow_add_r by lia. reflexivity.
Qed.

Lemma pow2_xO p : (2 ^ Zpos p~0 = 2 ^ Zpos p * 2 ^ Zpos p)%Z.
Proof.
  replace (Zpos p~0) with (Zpos p + Zpos p)%Z by lia.
  rewrite Z.pow_add_r by lia. reflexivity.
Qed.

Lemma iter_shr_1_inb p : forall mrs v,
  (0 <= shr_m mrs)%Z -> inb mrs v ->
  inb (iter_pos shr_1 p mrs) (v / IZR (2 ^ Zpos p))
  /\ shr_m (iter_pos shr_1 p mrs) = (shr_m mrs / 2 ^ Zpos p)%Z.
Proof.
  induction p as [p IH|p IH|]; intros mrs v Hm H; cbn [iter_pos].
  - destruct (shr_1_inb mrs v Hm H) as [H1 E1].
    assert (Hm1 : (0 <= shr_m (shr_1 mrs))%Z) by (rewrite E1; apply Z.div_pos; lia).
    destruct (IH _ _ Hm1 H1) as [H2 E2].
    assert (Hp : (0 < 2 ^ Zpos p)%Z) by (apply Z.pow_pos_nonneg; lia).
    assert (Hm2 : (0 <= shr_m (iter_pos shr_1 p (shr_1 mrs)))%Z)
      by (rewrite E2; apply Z.div_pos; lia).
    destruct (IH _ _ Hm2 H2) as [H3 E3].
    rewrite pow2_xI. split.
    + replace (v / IZR (2 * (2 ^ Zpos p * 2 ^ Zpos p)))
        with (v / 2 / IZR (2 ^ Zpos p) / IZR (2 ^ Zpos p)); [exact H3|].
      rewrite !mult_IZR. assert (0 < IZR (2 ^ Zpos p)) by now apply IZR_lt.
      field. lra.
    + rewrite E3, E2, E1. rewrite !Z.div_div by lia. reflexivity.
  - destruct (IH _ _ Hm H) as [H2 E2].
    assert (Hp : (0 < 2 ^ Zpos p)%Z) by (apply Z.pow_pos_nonneg; lia).
    assert (Hm2 : (0 <= shr_m (iter_pos shr_1 p mrs))%Z)
      by (rewrite E2; apply Z.div_pos; lia).
    destruct (IH _ _ Hm2 H2) as [H3 E3].
    rewrite pow2_xO. split.
    + replace (v / IZR (2 ^ Zpos p * 2 ^ Zpos p))
        with (v / IZR (2 ^ Zpos p) / IZR (2 ^ Zpos p)); [exact H3|].
      rewrite !mult_IZR. assert (0 < IZR (2 ^ Zpos p)) by now apply IZR_lt.
      field. lra.
    + rewrite E3, E2. rewrite !Z.div_div by lia. reflexivity.
  - apply (shr_1_inb mrs v Hm H).
Qed.

(** Rounding to nearest, ties to even, is within one half. *)
Lemma round_nearest_even_inb mrs v :
  inb mrs v ->
  let m1 := round_nearest_even (shr_m mrs) (loc_of_shr_record mrs) in
  Rabs (IZR m1 - v) <= / 2 /\ (m1 = shr_m mrs \/ m1 = (shr_m mrs + 1)%Z).
Proof.
  destruct mrs as [m r s]. unfold inb. cbn [shr_m shr_r shr_s loc_of_shr_record].
  intros H. destruct r, s; cbn [round_nearest_even].
  - split; [|now right]. rewrite plus_IZR. apply Rabs_le. lra.
  - destruct (Z.even m); (split; [|auto]).
    + apply Rabs_le. lra.
    + rewrite plus_IZR. apply Rabs_le. lra.
  - split; [|now left]. apply Rabs_le. lra.
  - split; [|now left]. apply Rabs_le. lra.
Qed.

(** The number of binary digits. *)
Lemma digits2_pos_bounds p :
  (2 ^ (Zpos (digits2_pos p) - 1) <= Zpos p < 2 ^ Zpos (digits2_pos p))%Z.
Proof.
  induction p as [p IH|p IH|]; cbn [digits2_pos].
  - rewrite Pos2Z.inj_succ. revert IH. generalize (Zpos (digits2_pos p)) (Pos2Z.is_pos (digits2_pos p)).
    intros d Hd IH.
    replace (Z.succ d - 1)%Z with (Z.succ (d - 1)) by lia.
    rewrite !Z.pow_succ_r by lia. lia.
  - rewrite Pos2Z.inj_succ. revert IH. generalize (Zpos (digits2_pos p)) (Pos2Z.is_pos (digits2_pos p)).
    intros d Hd IH.
    replace (Z.succ d - 1)%Z with (Z.succ (d - 1)) by lia.
    rewrite !Z.pow_succ_r by lia. lia.
  - cbn. lia.
Qed.

Lemma Zdigits2_bounds m :
  (0 < m)%Z -> (1 <= Zdigits2 m /\ 2 ^ (Zdigits2 m - 1) <= m < 2 ^ Zdigits2 m)%Z.
Proof.
  destruct m as [|p|p]; try lia. intros _. cbn [Zdigits2].
  split; [lia | apply digits2_pos_bounds].
Qed.

Lemma Zdigits2_unique m d :
  (1 <= d)%Z -> (2 ^ (d - 1) <= m < 2 ^ d)%Z -> Zdigits2 m = d.
Proof.
  intros Hd [H1 H2].
  assert (Hm : (0 < m)%Z) by (pose proof (Z.pow_pos_nonneg 2 (d - 1)); lia).
  destruct (Zdigits2_bounds m Hm) as (Hd' & H1' & H2').
  destruct (Z.lt_trichotomy (Zdigits2 m) d) as [Hlt|[Heq|Hgt]]; [|exact Heq|].
  - assert (2 ^ Zdigits2 m <= 2 ^ (d - 1))%Z by (apply Z.pow_le_mono_r; lia). lia.
  - assert (2 ^ d <= 2 ^ (Zdigits2 m - 1))%Z by (apply Z.pow_le_mono_r; lia). lia.
Qed.

Lemma Zdigits2_nonneg m : (0 <= m)%Z -> (0 <= Zdigits2 m)%Z.
Proof. destruct m; cbn; lia. Qed.

Lemma Zdigits2_shift m n :
  (0 < m)%Z -> (0 < n < Zdigits2 m)%Z -> Zdigits2 (m / 2 ^ n) = (Zdigits2 m - n)%Z.
Proof.
  intros Hm Hn. destruct (Zdigits2_bounds m Hm) as (Hd & H1 & H2).
  assert (Hp : (0 < 2 ^ n)%Z) by (apply Z.pow_pos_nonneg; lia).
  apply Zdigits2_unique; [lia|]. split.
  - replace (2 ^ (Zdigits2 m - n - 1))%Z with (2 ^ (Zdigits2 m - 1) / 2 ^ n)%Z.
    + apply Z.div_le_mono; lia.
    + replace (Zdigits2 m - n - 1)%Z with (Zdigits2 m - 1 - n)%Z by lia.
      symmetry. apply Z.pow_sub_r; lia.
  - apply Z.div_lt_upper_bound; [lia|].
    rewrite <- Z.pow_add_r by lia. now replace (n + (Zdigits2 m - n))%Z with (Zdigits2 m) by lia.
Qed.

Lemma Zdigits2_shift_out m n :
  (0 <= m)%Z -> (0 <= n)%Z -> (Zdigits2 m <= n)%Z -> (m / 2 ^ n = 0)%Z.
Proof.
  intros Hm Hn Hd. destruct (Z.eq_dec m 0%Z) as [->|Hne].
  - apply Z.div_0_l. pose proof (Z.pow_pos_nonneg 2 n). lia.
  - destruct (Zdigits2_bounds m ltac:(lia)) as (_ & _ & H2).
    apply Z.div_small. split; [lia|].
    assert (2 ^ Zdigits2 m <= 2 ^ n)%Z by (apply Z.pow_le_mono_r; lia). lia.
Qed.

Lemma Zdigits2_succ m :
  (0 <= m)%Z ->
  Zdigits2 (m + 1) = Zdigits2 m
  \/ ((m + 1 = 2 ^ Zdigits2 m)%Z /\ Zdigits2 (m + 1) = (Zdigits2 m + 1)%Z).
Proof.
  intros Hm. destruct (Z.eq_dec m 0%Z) as [->|Hne]; [right; split; reflexivity|].
  destruct (Zdigits2_bounds m ltac:(lia)) as (Hd & H1 & H2).
  destruct (Z.eq_dec (m + 1)%Z (2 ^ Zdigits2 m)%Z) as [E|E].
  - right. split; [exact E|]. apply Zdigits2_unique; [lia|].
    replace (Zdigits2 m + 1 - 1)%Z with (Zdigits2 m) by lia.
    rewrite Z.pow_add_r by lia. lia.
  - left. apply Zdigits2_unique; lia.
Qed.

End Rounding.

Section RoundAux.
Import FloatOps SpecFloat.
Local Open Scope R_scope.
Variables prec emax : Z.
Hypothesis prec_pos : (0 < prec)%Z.

Lemma shr_m_of_loc m l : shr_m (shr_record_of_loc m l) = m.
Proof. destruct l as [|[]]; reflexivity. Qed.

(** The first shift of [binary_round_aux]: the value is kept, and the
    mantissa has at most [prec] digits for its exponent. *)
Lemma shr_fexp_inb mx ex lx v :
  (0 <= mx)%Z -> inb (shr_record_of_loc mx lx) v ->
  exists mrs e',
    shr_fexp prec emax mx ex lx = (mrs, e')
    /\ (0 <= shr_m mrs)%Z /\ (ex <= e')%Z /\ (emin prec emax <= e')%Z
    /\ inb mrs (v * pw ex / pw e')
    /\ (fexp prec emax (Zdigits2 (shr_m mrs) + e') <= e')%Z
    /\ ((0 < mx)%Z -> shr_m mrs = 0%Z -> e' = emin prec emax).
Proof.
  intros Hm H. unfold shr_fexp, shr.
  pose proof (Zdigits2_nonneg mx Hm) as Hd.
  set (n := (fexp prec emax (Zdigits2 mx + ex) - ex)%Z).
  assert (Hn : n = (fexp prec emax (Zdigits2 mx + ex) - ex)%Z) by reflexivity.
  unfold fexp in Hn.
  destruct n as [|p|p].
  - eexists _, _. split; [reflexivity|]. rewrite shr_m_of_loc.
    split; [exact Hm|]. split; [lia|]. split; [lia|]. split; [|split].
    + replace (v * pw ex / pw ex) with v; [exact H|].
      pose proof (pw_pos ex). field. lra.
    + unfold fexp. lia.
    + lia.
  - destruct (iter_shr_1_inb p (shr_record_of_loc mx lx) v) as [H1 E1];
      [now rewrite shr_m_of_loc | exact H|].
    rewrite shr_m_of_loc in E1.
    assert (Hp : (0 < 2 ^ Zpos p)%Z) by (apply Z.pow_pos_nonneg; lia).
    eexists _, _. split; [reflexivity|].
    split; [rewrite E1; apply Z.div_pos; lia|]. split; [lia|]. split; [lia|].
    split; [|split].
    + replace (v * pw ex / pw (ex + Zpos p)) with (v / IZR (2 ^ Zpos p)); [exact H1|].
      rewrite pw_add, (pw_IZR (Zpos p)) by lia.
      pose proof (pw_pos ex). assert (0 < IZR (2 ^ Zpos p)) by now apply IZR_lt.
      field. lra.
    + rewrite E1. unfold fexp.
      destruct (Z_lt_le_dec (Zpos p) (Zdigits2 mx)) as [Hlt|Hge].
      * rewrite Zdigits2_shift by (destruct mx; cbn in *; lia). lia.
      * rewrite Zdigits2_shift_out by lia. cbn [Zdigits2]. lia.
    + intros Hpos Hz. rewrite E1 in Hz.
      destruct (Z_lt_le_dec (Zpos p) (Zdigits2 mx)) as [Hlt|Hge].
      * destruct (Zdigits2_bounds mx Hpos) as (_ & Hlow & _).
        assert (2 ^ Zpos p <= 2 ^ (Zdigits2 mx - 1))%Z by (apply Z.pow_le_mono_r; lia).
        assert (1 <= mx / 2 ^ Zpos p)%Z by (apply Z.div_le_lower_bound; lia).
        lia.
      * unfold emin in *. lia.
  - eexists _, _. split; [reflexivity|]. rewrite shr_m_of_loc.
    split; [exact Hm|]. split; [lia|]. split; [lia|]. split; [|split].
    + replace (v * pw ex / pw ex) with v; [exact H|].
      pose proof (pw_pos ex). field. lra.
    + unfold fexp. lia.
    + lia.
Qed.

(** The second shift, after rounding: it loses nothing. *)
Lemma shr_fexp_exact m' m1 e' :
  (0 <= m')%Z -> (m1 = m' \/ m1 = (m' + 1)%Z) ->
  (emin prec emax <= e')%Z ->
  (fexp prec emax (Zdigits2 m' + e') <= e')%Z ->
  exists mrs e'',
    shr_fexp prec emax m1 e' loc_Exact = (mrs, e'')
    /\ (e' <= e'')%Z /\ IZR (shr_m mrs) * pw e'' = IZR m1 * pw e'.
Proof.
  intros Hm Hm1 Hemin Hcan. unfold shr_fexp, shr.
  set (n := (fexp prec emax (Zdigits2 m1 + e') - e')%Z).
  assert (Hn : n = (fexp prec emax (Zdigits2 m1 + e') - e')%Z) by reflexivity.
  pose proof (Zdigits2_nonneg m' Hm) as Hd.
  unfold fexp in Hn, Hcan.
  destruct n as [|p|p]; [eexists _, _; cbn [shr_record_of_loc shr_m]; split; [reflexivity|split; [lia | reflexivity]]| |eexists _, _; cbn [shr_record_of_loc shr_m]; split; [reflexivity|split; [lia | reflexivity]]].
  assert (Hcase : (m1 = 2 ^ Zdigits2 m')%Z /\ Zdigits2 m1 = (Zdigits2 m' + 1)%Z).
  { destruct Hm1 as [->| ->]; [lia|].
    destruct (Zdigits2_succ m' Hm) as [E|E]; [rewrite E in Hn; lia | exact E]. }
  destruct Hcase as [Em1 Ed1]. rewrite Ed1 in Hn.
  assert (Hp1 : p = 1%positive) by lia. subst p.
  assert (Hd1 : (1 <= Zdigits2 m')%Z) by lia.
  eexists _, _. split; [reflexivity|]. split; [lia|].
  cbn [iter_pos shr_record_of_loc].
  destruct (shr_1_inb {| shr_m := m1; shr_r := false; shr_s := false |} (IZR m1))
    as [_ E]; [cbn [shr_m]; lia | reflexivity |].
  rewrite E. cbn [shr_m].
  assert (Em : m1 = (2 * 2 ^ (Zdigits2 m' - 1))%Z).
  { rewrite Em1. replace (Zdigits2 m') with (Z.succ (Zdigits2 m' - 1)) at 1 by lia.
    apply Z.pow_succ_r. lia. }
  rewrite Em at 1. rewrite Z.mul_comm, Z.div_mul by lia.
  rewrite pw_add. replace (pw 1) with 2 by (unfold pw, powerRZ; simpl; lra).
  rewrite Em at 1. rewrite mult_IZR. ring.
Qed.

(** Rounding with [binary_round_aux]: a finite result is within half a unit
    of its last place of the value that was rounded. *)
Lemma binary_round_aux_error sx mx ex lx v s m e :
  (0 <= mx)%Z -> inb (shr_record_of_loc mx lx) v ->
  binary_round_aux prec emax sx mx ex lx = S754_finite s m e ->
  s = sx /\ Rabs (IZR (Zpos m) * pw e - v * pw ex) <= / 2 * pw e.
Proof.
  intros Hm H. unfold binary_round_aux.
  destruct (shr_fexp_inb mx ex lx v Hm H)
    as (mrs & e' & -> & Hm' & He & Hemin & H' & Hcan & _).
  destruct (round_nearest_even_inb mrs _ H') as [Hr Hm1].
  destruct (shr_fexp_exact (shr_m mrs) _ e' Hm' Hm1 Hemin Hcan)
    as (mrs2 & e2 & -> & He2 & Eval).
  destruct (shr_m mrs2) as [|p|p]; try discriminate.
  destruct (e2 <=? emax - prec)%Z; [|discriminate].
  intros [= <- <- <-]. split; [reflexivity|].
  rewrite Eval.
  set (m1 := round_nearest_even (shr_m mrs) (loc_of_shr_record mrs)) in *.
  pose proof (pw_pos e') as Hpe. pose proof (pw_pos ex). pose proof (pw_le e' e2 He2).
  replace (IZR m1 * pw e' - v * pw ex) with ((IZR m1 - v * pw ex / pw e') * pw e')
    by (field; lra).
  rewrite Rabs_mult, (Rabs_pos_eq (pw e')) by lra.
  nra.
Qed.

(** A positive value that rounds to zero is at most half the smallest
    positive number of the format. *)
Lemma binary_round_aux_zero sx mx ex lx v s :
  (0 < mx)%Z -> inb (shr_record_of_loc mx lx) v ->
  binary_round_aux prec emax sx mx ex lx = S754_zero s ->
  Rabs (v * pw ex) <= / 2 * pw (emin prec emax).
Proof.
  intros Hm H. unfold binary_round_aux.
  destruct (shr_fexp_inb mx ex lx v ltac:(lia) H)
    as (mrs & e' & -> & Hm' & He & Hemin & H' & Hcan & Hzero).
  destruct (round_nearest_even_inb mrs _ H') as [Hr Hm1].
  destruct (shr_fexp_exact (shr_m mrs) _ e' Hm' Hm1 Hemin Hcan)
    as (mrs2 & e2 & -> & He2 & Eval).
  set (m1 := round_nearest_even (shr_m mrs) (loc_of_shr_record mrs)) in *.
  destruct (shr_m mrs2) as [|p|p] eqn:E2;
    [|destruct (e2 <=? emax - prec)%Z; discriminate|discriminate].
  intros _. pose proof (pw_pos e') as Hpe. pose proof (pw_pos ex).
  assert (Em1 : m1 = 0%Z).
  { apply eq_IZR. nra. }
  assert (Emrs : shr_m mrs = 0%Z) by lia.
  rewrite (Hzero Hm Emrs) in *. rewrite Em1 in Hr.
  replace (v * pw ex) with (v * pw ex / pw (emin prec emax) * pw (emin prec emax))
    by (field; lra).
  rewrite Rabs_mult, (Rabs_pos_eq (pw (emin prec emax))) by lra.
  rewrite <- (Rabs_Ropp (v * pw ex / pw (emin prec emax))).
  replace (- (v * pw ex / pw (emin prec emax)))
    with (0 - v * pw ex / pw (emin prec emax)) by ring.
  nra.
Qed.

End RoundAux.

Section Operations.
Import FloatOps SpecFloat.
Local Open Scope R_scope.
Variables prec emax : Z.
Hypothesis prec_pos : (0 < prec)%Z.

(** The real number a float stands for; 0 for infinities and NaN. *)
Definition SF2R (f : spec_float) : R :=
  match f with
  | S754_finite s m e => (if s then - IZR (Zpos m) else IZR (Zpos m)) * pw e
  | _ => 0
  end.

Lemma signed_error (sx sy : bool) (a b c d : R) :
  Rabs ((if xorb sx sy then - a else a)
        - (if sx then - b else b) * (if sy then - c else c) * d)
  = Rabs (a - b * c * d).
Proof.
  destruct sx, sy; cbn [xorb];
    [f_equal; ring
    |rewrite <- (Rabs_Ropp (a - b * c * d)); f_equal; ring
    |rewrite <- (Rabs_Ropp (a - b * c * d)); f_equal; ring
    |f_equal; ring].
Qed.

(** A finite product of two finite floats is the exact product rounded. *)
Lemma SFmul_error sx mx ex sy my ey s m e :
  SFmul prec emax (S754_finite sx mx ex) (S754_finite sy my ey) = S754_finite s m e ->
  Rabs (SF2R (S754_finite s m e)
        - SF2R (S754_finite sx mx ex) * SF2R (S754_finite sy my ey))
  <= / 2 * pw e.
Proof.
  cbn [SFmul]. intros H.
  destruct (binary_round_aux_error prec emax prec_pos (xorb sx sy) (Zpos (mx * my))
              (ex + ey) loc_Exact (IZR (Zpos (mx * my))) s m e
              (Pos2Z.is_nonneg _) eq_refl H) as [-> Hb].
  cbn [SF2R].
  replace ((if xorb sx sy then - IZR (Zpos m) else IZR (Zpos m)) * pw e
           - (if sx then - IZR (Zpos mx) else IZR (Zpos mx)) * pw ex
             * ((if sy then - IZR (Zpos my) else IZR (Zpos my)) * pw ey))
    with ((if xorb sx sy then - (IZR (Zpos m) * pw e) else IZR (Zpos m) * pw e)
          - (if sx then - IZR (Zpos mx) else IZR (Zpos mx))
            * (if sy then - IZR (Zpos my) else IZR (Zpos my)) * (pw ex * pw ey))
    by (destruct sx, sy; cbn [xorb]; ring).
  rewrite signed_error, <- pw_add.
  rewrite Pos2Z.inj_mul, mult_IZR in Hb. exact Hb.
Qed.

(** A product of two finite floats that is zero was below half the
    smallest positive number. *)
Lemma SFmul_zero sx mx ex sy my ey s :
  SFmul prec emax (S754_finite sx mx ex) (S754_finite sy my ey) = S754_zero s ->
  Rabs (SF2R (S754_finite sx mx ex) * SF2R (S754_finite sy my ey))
  <= / 2 * pw (emin prec emax).
Proof.
  cbn [SFmul]. intros H.
  pose proof (binary_round_aux_zero prec emax prec_pos (xorb sx sy) (Zpos (mx * my))
                (ex + ey) loc_Exact (IZR (Zpos (mx * my))) s
                (Pos2Z.is_pos _) eq_refl H) as Hb.
  rewrite Pos2Z.inj_mul, mult_IZR, pw_add in Hb.
  cbn [SF2R].
  replace ((if sx then - IZR (Zpos mx) else IZR (Zpos mx)) * pw ex
           * ((if sy then - IZR (Zpos my) else IZR (Zpos my)) * pw ey))
    with ((if xorb sx sy then - (IZR (Zpos mx) * IZR (Zpos my) * (pw ex * pw ey))
           else IZR (Zpos mx) * IZR (Zpos my) * (pw ex * pw ey)))
    by (destruct sx, sy; cbn [xorb]; ring).
  destruct (xorb sx sy); [rewrite Rabs_Ropp|]; exact Hb.
Qed.

Lemma new_location_inb m2 q r :
  (0 <= r < m2)%Z ->
  inb (shr_record_of_loc q (new_location m2 r)) (IZR q + IZR r / IZR m2).
Proof.
  intros Hr. assert (Hm : 0 < IZR m2) by (apply IZR_lt; lia).
  assert (Hdiv : forall a b : R, 0 < b -> (a / b < / 2 <-> 2 * a < b)
                                 /\ (/ 2 < a / b <-> b < 2 * a)
                                 /\ (a / b < 1 <-> a < b) /\ (0 < a -> 0 < a / b)).
  { intros a b Hb. assert (E : a = a / b * b) by (field; lra).
    repeat split; intros;
      first [nra | apply Rmult_lt_reg_r with b; [lra | rewrite <- E; lra]]. }
  destruct (Hdiv (IZR r) (IZR m2) Hm) as (Hlt & Hgt & Hone & Hpos).
  assert (Hzero : (IZR q + IZR 0 / IZR m2) = IZR q) by (unfold Rdiv; ring).
  unfold new_location, new_location_even, new_location_odd.
  change Corelib.BinNums.IntDef.Z.even with Z.even.
  destruct (Z.even m2) eqn:Hev;
    change Corelib.BinNums.IntDef.Z.eqb with Z.eqb;
    change Corelib.BinNums.IntDef.Z.compare with Z.compare;
    change Corelib.BinNums.IntDef.Z.mul with Z.mul;
    change Corelib.BinNums.IntDef.Z.add with Z.add;
    (destruct (Z.eqb_spec r 0) as [Hz|Hr0];
     [subst r; unfold inb; cbn [shr_record_of_loc shr_r shr_s shr_m]; exact Hzero|]).
  - assert (Hrp : 0 < IZR r) by (apply IZR_lt; lia).
    assert (Hrm : IZR r < IZR m2) by (apply IZR_lt; lia).
    destruct (Z.compare_spec (2 * r) m2) as [E|E|E];
      unfold inb; cbn [shr_record_of_loc shr_r shr_s shr_m].
    + rewrite <- E, mult_IZR. field. lra.
    + apply IZR_lt in E. rewrite mult_IZR in E.
      split; [specialize (Hpos Hrp); lra | apply Hlt in E; lra].
    + apply IZR_lt in E. rewrite mult_IZR in E.
      split; [apply Hgt in E; lra | apply Hone in Hrm; lra].
  - assert (Hrp : 0 < IZR r) by (apply IZR_lt; lia).
    assert (Hrm : IZR r < IZR m2) by (apply IZR_lt; lia).
    assert (Hodd : (2 * r <> m2)%Z).
    { intros <-. rewrite Z.even_mul in Hev. discriminate. }
    destruct (Z.compare_spec (2 * r + 1) m2) as [E|E|E];
      unfold inb; cbn [shr_record_of_loc shr_r shr_s shr_m].
    + assert (E' : (2 * r < m2)%Z) by lia.
      apply IZR_lt in E'. rewrite mult_IZR in E'.
      split; [specialize (Hpos Hrp); lra | apply Hlt in E'; lra].
    + assert (E' : (2 * r < m2)%Z) by lia.
      apply IZR_lt in E'. rewrite mult_IZR in E'.
      split; [specialize (Hpos Hrp); lra | apply Hlt in E'; lra].
    + assert (E' : (m2 < 2 * r)%Z) by lia.
      apply IZR_lt in E'. rewrite mult_IZR in E'.
      split; [apply Hgt in E'; lra | apply Hone in Hrm; lra].
Qed.

(** The quotient and its location, as [SFdiv_core_binary] computes them. *)
Lemma SFdiv_core_binary_inb mx ex my ey :
  exists q e' l v,
    SFdiv_core_binary prec emax (Zpos mx) ex (Zpos my) ey = (q, e', l)
    /\ (0 <= q)%Z /\ inb (shr_record_of_loc q l) v
    /\ v * pw e' = IZR (Zpos mx) / IZR (Zpos my) * pw (ex - ey).
Proof.
  unfold SFdiv_core_binary.
  set (e' := Z.min _ _).
  assert (He : (e' <= ex - ey)%Z) by apply Z.le_min_r.
  set (s := (ex - ey - e')%Z).
  assert (Hs : (0 <= s)%Z) by (unfold s; lia).
  set (m' := match s with Zpos _ => Z.shiftl (Zpos mx) s | Z0 => Zpos mx | Zneg _ => 0%Z end).
  assert (Em : m' = (Zpos mx * 2 ^ s)%Z).
  { unfold m'. destruct s as [|p|p]; [rewrite Z.pow_0_r; lia | apply Z.shiftl_mul_pow2; lia | lia]. }
  assert (Hpow : (0 < 2 ^ s)%Z) by (apply Z.pow_pos_nonneg; lia).
  pose proof (Z_div_mod m' (Zpos my) ltac:(lia)) as Hdm.
  destruct (Z.div_eucl m' (Zpos my)) as [q r]. destruct Hdm as [Eq Hr].
  exists q, e', (new_location (Zpos my) r), (IZR q + IZR r / IZR (Zpos my)).
  split; [reflexivity|]. split; [nia|]. split; [now apply new_location_inb|].
  assert (Hmy : 0 < IZR (Zpos my)) by (apply IZR_lt; lia).
  replace (IZR q + IZR r / IZR (Zpos my)) with (IZR m' / IZR (Zpos my)).
  2:{ rewrite Eq, plus_IZR, mult_IZR. field. lra. }
  rewrite Em, mult_IZR, <- (pw_IZR s Hs).
  replace (ex - ey)%Z with (s + e')%Z by (unfold s; lia). rewrite pw_add.
  field. lra.
Qed.

(** A finite quotient of two finite floats is the exact quotient rounded. *)
Lemma SFdiv_error sx mx ex sy my ey s m e :
  SFdiv prec emax (S754_finite sx mx ex) (S754_finite sy my ey) = S754_finite s m e ->
  Rabs (SF2R (S754_finite s m e)
        - SF2R (S754_finite sx mx ex) / SF2R (S754_finite sy my ey))
  <= / 2 * pw e.
Proof.
  cbn [SFdiv].
  destruct (SFdiv_core_binary_inb mx ex my ey) as (q & e' & l & v & -> & Hq & Hin & Ev).
  intros H.
  destruct (binary_round_aux_error prec emax prec_pos _ _ _ _ v _ _ _ Hq Hin H) as [-> Hb].
  rewrite Ev in Hb. cbn [SF2R].
  assert (Hmy : 0 < IZR (Zpos my)) by (apply IZR_lt; lia).
  pose proof (pw_pos ey) as Hey.
  assert (Epw : pw (ex - ey) = pw ex / pw ey).
  { replace ex with ((ex - ey) + ey)%Z at 2 by lia. rewrite pw_add. field. lra. }
  rewrite Epw in Hb.
  replace ((if xorb sx sy then - IZR (Zpos m) else IZR (Zpos m)) * pw e
           - (if sx then - IZR (Zpos mx) else IZR (Zpos mx)) * pw ex
             / ((if sy then - IZR (Zpos my) else IZR (Zpos my)) * pw ey))
    with ((if xorb sx sy then - (IZR (Zpos m) * pw e) else IZR (Zpos m) * pw e)
          - (if sx then - IZR (Zpos mx) else IZR (Zpos mx))
            * (if sy then - / IZR (Zpos my) else / IZR (Zpos my)) * (pw ex / pw ey))
    by (destruct sx, sy; cbn [xorb]; field; lra).
  rewrite signed_error.
  replace (IZR (Zpos m) * pw e - IZR (Zpos mx) * / IZR (Zpos my) * (pw ex / pw ey))
    with (IZR (Zpos m) * pw e - IZR (Zpos mx) / IZR (Zpos my) * (pw ex / pw ey))
    by (field; lra).
  exact Hb.
Qed.

End Operations.

Section Binary64Rounding.
Import FloatOps SpecFloat.
Local Open Scope R_scope.

(** The real number a binary64 value stands for. *)
Definition float_value (f : float) : R := SF2R (Prim2SF f).

(** Normal numbers: finite, not zero, the mantissa with all its 53 digits. *)
Definition is_normal (f : float) : bool :=
  match classify f with
  | FloatClass.PNormal | FloatClass.NNormal => true
  | _ => false
  end.

Lemma prec_pos64 : (0 < prec)%Z.
Proof. reflexivity. Qed.

Lemma is_normal_SF f :
  is_normal f = true ->
  exists s m e, Prim2SF f = S754_finite s m e /\ (2 ^ 52 <= Zpos m)%Z.
Proof.
  unfold is_normal. rewrite FloatAxioms.classify_spec.
  unfold FloatAxioms.SF64classify, SFclassify.
  change Corelib.BinNums.IntDef.Z.eqb with Z.eqb.
  destruct (Prim2SF f) as [[]|[]| |[] m e]; try discriminate;
    (destruct (Z.eqb_spec (Zpos (digits2_pos m)) prec) as [E|E]; [|discriminate]);
    intros _; eexists _, m, e; (split; [reflexivity|]);
    pose proof (digits2_pos_bounds m) as Hb; rewrite E in Hb;
    change (prec - 1)%Z with 52%Z in Hb; lia.
Qed.

Lemma SF2R_abs s m e : Rabs (SF2R (S754_finite s m e)) = IZR (Zpos m) * pw e.
Proof.
  cbn [SF2R]. pose proof (pw_pos e).
  assert (0 < IZR (Zpos m)) by (apply IZR_lt; lia).
  rewrite Rabs_mult, (Rabs_pos_eq (pw e)) by lra.
  destruct s; [rewrite Rabs_Ropp|]; rewrite Rabs_pos_eq; lra.
Qed.

(** Half a unit in the last place of a normal number is at most [2^-53] of it. *)
Lemma normal_half_ulp s m e :
  (2 ^ 52 <= Zpos m)%Z -> / 2 * pw e <= pw (-53) * Rabs (SF2R (S754_finite s m e)).
Proof.
  intros H. rewrite SF2R_abs. apply IZR_le in H.
  pose proof (pw_pos e).
  assert (E : pw (-53) * IZR (2 ^ 52) = / 2).
  { rewrite <- (pw_IZR 52) by lia. rewrite <- pw_add. unfold pw, powerRZ; simpl; lra. }
  rewrite <- E. nra.
Qed.

(** A normal quotient: both operands are finite and not zero, and the
    quotient has relative error at most [2^-53]. *)
Lemma div_normal_error (a b : float) :
  is_normal (a / b) = true ->
  float_value b <> 0
  /\ Rabs (float_value (a / b) - float_value a / float_value b)
     <= pw (-53) * Rabs (float_value (a / b)).
Proof.
  intros H. destruct (is_normal_SF _ H) as (s & m & e & E & Hm).
  unfold float_value. rewrite E. rewrite FloatAxioms.div_spec in E.
  unfold FloatAxioms.SF64div in E.
  destruct (Prim2SF a) as [sa|sa| |sa ma ea], (Prim2SF b) as [sb|sb| |sb mb eb];
    try discriminate E.
  split.
  - cbn [SF2R]. pose proof (pw_pos eb).
    assert (0 < IZR (Zpos mb)) by (apply IZR_lt; lia).
    destruct sb; nra.
  - eapply Rle_trans; [exact (SFdiv_error prec emax prec_pos64 _ _ _ _ _ _ _ _ _ E)|].
    now apply normal_half_ulp.
Qed.

(** A normal product: both operands are finite, and the product has
    relative error at most [2^-53]. *)
Lemma mul_normal_error (a b : float) :
  is_normal (a * b) = true ->
  Rabs (float_value (a * b) - float_value a * float_value b)
  <= pw (-53) * Rabs (float_value (a * b)).
Proof.
  intros H. destruct (is_normal_SF _ H) as (s & m & e & E & Hm).
  unfold float_value. rewrite E. rewrite FloatAxioms.mul_spec in E.
  unfold FloatAxioms.SF64mul in E.
  destruct (Prim2SF a) as [sa|sa| |sa ma ea], (Prim2SF b) as [sb|sb| |sb mb eb];
    try discriminate E.
  eapply Rle_trans; [exact (SFmul_error prec emax prec_pos64 _ _ _ _ _ _ _ _ _ E)|].
  now apply normal_half_ulp.
Qed.

(** What a valid finite float gives: its exponent is at least [emin], and
    it is [emin] when the mantissa has fewer than 53 digits. *)
Lemma valid_finite (f : float) s m e :
  Prim2SF f = S754_finite s m e ->
  (emin prec emax <= e)%Z /\ ((Zpos m < 2 ^ 52)%Z -> e = emin prec emax).
Proof.
  intros E. pose proof (FloatAxioms.Prim2SF_valid f) as V. rewrite E in V.
  unfold valid_binary, bounded, canonical_mantissa in V.
  apply andb_prop in V. destruct V as [V _].
  change Corelib.BinNums.IntDef.Z.eqb with Z.eqb in V.
  apply Z.eqb_eq in V. unfold fexp in V.
  change Corelib.BinNums.IntDef.Z.max with Z.max in V.
  change Corelib.BinNums.IntDef.Z.sub with Z.sub in V.
  change Corelib.BinNums.IntDef.Z.add with Z.add in V.
  split; [lia|]. intros Hs.
  destruct (Z_lt_le_dec (Zpos (digits2_pos m)) prec) as [Hd|Hd]; [lia|].
  pose proof (digits2_pos_bounds m) as [Hlow _].
  assert (2 ^ 52 <= 2 ^ (Zpos (digits2_pos m) - 1))%Z.
  { apply Z.pow_le_mono_r; [lia|]. change prec with 53%Z in Hd. lia. }
  lia.
Qed.

(** Two finite floats, the first on the grid of step [2^e] of the second,
    are equal or at least [2^e] apart. *)
Lemma grid_apart sa ma ea sp mp ep :
  (ep <= ea)%Z ->
  SF2R (S754_finite sp mp ep) = SF2R (S754_finite sa ma ea)
  \/ pw ep <= Rabs (SF2R (S754_finite sp mp ep) - SF2R (S754_finite sa ma ea)).
Proof.
  intros He. cbn [SF2R].
  set (k := ((if sp then - Zpos mp else Zpos mp)
             - (if sa then - Zpos ma else Zpos ma) * 2 ^ (ea - ep))%Z).
  assert (E : (if sp then - IZR (Zpos mp) else IZR (Zpos mp)) * pw ep
              - (if sa then - IZR (Zpos ma) else IZR (Zpos ma)) * pw ea
              = IZR k * pw ep).
  { unfold k. replace ea with ((ea - ep) + ep)%Z at 1 by lia.
    rewrite pw_add, (pw_IZR (ea - ep)) by lia.
    rewrite minus_IZR, mult_IZR.
    destruct sp, sa; rewrite ?opp_IZR; ring. }
  pose proof (pw_pos ep) as Hp.
  destruct (Z.eq_dec k 0%Z) as [Hk|Hk].
  - left. rewrite Hk in E. lra.
  - right. rewrite E, Rabs_mult, (Rabs_pos_eq (pw ep)) by lra.
    assert (1 <= Rabs (IZR k)).
    { rewrite <- abs_IZR. apply IZR_le. lia. }
    nra.
Qed.

(** Dividing by [r] and multiplying by [r] again gives the number back to
    relative error [2^-51], when the quotient is a normal number and the
    product does not overflow. *)
Lemma div_mul_round_trip (a r : float) :
  is_normal (a / r) = true -> is_finite (r * (a / r)) = true ->
  Rabs (float_value (r * (a / r)) - float_value a) <= pw (-51) * Rabs (float_value a).
Proof.
  intros Hc Hp.
  destruct (div_normal_error a r Hc) as [Hr Hdiv].
  destruct (is_normal_SF _ Hc) as (sc & mc & ec & Ec & Hmc).
  assert (Ea : exists sa ma ea sr mr er,
             Prim2SF a = S754_finite sa ma ea /\ Prim2SF r = S754_finite sr mr er).
  { pose proof Ec as E. rewrite FloatAxioms.div_spec in E. unfold FloatAxioms.SF64div in E.
    destruct (Prim2SF a) as [?|?| |sa ma ea], (Prim2SF r) as [?|?| |sr mr er];
      try discriminate E. eauto 10. }
  destruct Ea as (sa & ma & ea & sr & mr & er & Ea & Er).
  assert (Eu : pw (-53) = / 9007199254740992) by (unfold pw, powerRZ; simpl; lra).
  assert (Eu' : pw (-51) = / 2251799813685248) by (unfold pw, powerRZ; simpl; lra).
  assert (Hgen : forall h : R,
             Rabs (float_value (r * (a / r)) - float_value r * float_value (a / r)) <= h ->
             h <= / 9007199254740992 * Rabs (float_value (r * (a / r)))
             \/ h <= Rabs (float_value r * float_value (a / r) - float_value a) ->
             Rabs (float_value (r * (a / r)) - float_value a)
             <= pw (-51) * Rabs (float_value a)).
  { intros h Hmul Hh.
    set (A := float_value a) in *. set (Rr := float_value r) in *.
    set (C := float_value (a / r)) in *. set (P := float_value (r * (a / r))) in *.
    rewrite Eu in *. rewrite Eu'. clear Eu Eu'.
    assert (HRr : 0 < Rabs Rr) by now apply Rabs_pos_lt.
    assert (H1 : Rabs (Rr * C - A) <= / 9007199254740992 * Rabs (Rr * C)).
    { replace (Rr * C - A) with (Rr * (C - A / Rr)) by (field; exact Hr).
      rewrite !Rabs_mult.
      pose proof (Rabs_pos (C - A / Rr)). nra. }
    pose proof (Rabs_triang_inv (Rr * C) A) as T1.
    pose proof (Rabs_triang_inv P (Rr * C)) as T2.
    pose proof (Rabs_triang (P - Rr * C) (Rr * C - A)) as T3.
    replace (P - Rr * C + (Rr * C - A)) with (P - A) in T3 by ring.
    pose proof (Rabs_pos A). pose proof (Rabs_pos P). pose proof (Rabs_pos (Rr * C)).
    destruct Hh; lra. }
  destruct (valid_finite a _ _ _ Ea) as [Hea _].
  assert (ER : float_value r = SF2R (S754_finite sr mr er))
    by (unfold float_value; now rewrite Er).
  assert (EC : float_value (a / r) = SF2R (S754_finite sc mc ec))
    by (unfold float_value; now rewrite Ec).
  destruct (is_finite_SF _ Hp) as [[s Ep]|(s & m & e & Ep)].
  - (* the product cannot be zero *)
    exfalso. pose proof Ep as E. rewrite FloatAxioms.mul_spec, Er, Ec in E.
    apply (SFmul_zero prec emax prec_pos64) in E. rewrite <- ER, <- EC in E.
    assert (HA : pw (emin prec emax) <= Rabs (float_value a)).
    { unfold float_value. rewrite Ea, SF2R_abs.
      pose proof (pw_le _ _ Hea). pose proof (pw_pos (emin prec emax)).
      assert (1 <= IZR (Zpos ma)) by (apply IZR_le; lia). nra. }
    assert (H1 : Rabs (float_value r * float_value (a / r) - float_value a)
                 <= / 9007199254740992 * Rabs (float_value r * float_value (a / r))).
    { rewrite <- Eu.
      replace (float_value r * float_value (a / r) - float_value a)
        with (float_value r * (float_value (a / r) - float_value a / float_value r))
        by (field; exact Hr).
      rewrite !Rabs_mult. pose proof (Rabs_pos (float_value r)).
      pose proof (Rabs_pos (float_value (a / r) - float_value a / float_value r)). nra. }
    pose proof (Rabs_triang (float_value a - float_value r * float_value (a / r))
                  (float_value r * float_value (a / r))) as T.
    replace (float_value a - float_value r * float_value (a / r)
             + float_value r * float_value (a / r)) with (float_value a) in T by ring.
    rewrite <- (Rabs_Ropp (float_value a - _)) in T.
    replace (- (float_value a - float_value r * float_value (a / r)))
      with (float_value r * float_value (a / r) - float_value a) in T by ring.
    pose proof (pw_pos (emin prec emax)). lra.
  - pose proof Ep as E. rewrite FloatAxioms.mul_spec, Er, Ec in E.
    apply (SFmul_error prec emax prec_pos64) in E.
    assert (Hmul : Rabs (float_value (r * (a / r)) - float_value r * float_value (a / r))
                   <= / 2 * pw e).
    { rewrite ER, EC. unfold float_value. rewrite Ep. exact E. }
    destruct (Z_lt_le_dec (Zpos m) (2 ^ 52)) as [Hsub|Hnorm].
    + (* a subnormal product: the same number, or a step away *)
      destruct (valid_finite _ _ _ _ Ep) as [_ He]. specialize (He Hsub). subst e.
      destruct (grid_apart sa ma ea s m (emin prec emax) Hea) as [Heq|Hfar].
      * assert (EPA : float_value (r * (a / r)) = float_value a).
        { unfold float_value. now rewrite Ep, Ea. }
        rewrite EPA. replace (float_value a - float_value a) with 0 by ring.
        rewrite Rabs_R0. pose proof (Rabs_pos (float_value a)).
        pose proof (pw_pos (-51)). nra.
      * apply (Hgen _ Hmul). right.
        assert (Hfar' : pw (emin prec emax)
                        <= Rabs (float_value (r * (a / r)) - float_value a)).
        { unfold float_value. now rewrite Ep, Ea. }
        pose proof (Rabs_triang
                      (float_value (r * (a / r)) - float_value r * float_value (a / r))
                      (float_value r * float_value (a / r) - float_value a)) as T.
        replace (float_value (r * (a / r)) - float_value r * float_value (a / r)
                 + (float_value r * float_value (a / r) - float_value a))
          with (float_value (r * (a / r)) - float_value a) in T by ring.
        lra.
    + apply (Hgen _ Hmul). left. rewrite <- Eu. unfold float_value at 1. rewrite Ep.
      now apply normal_half_ulp.
Qed.

End Binary64Rounding.

(** ** The round trip in binary64 *)

Section RoundTripBinary64.
Import FloatOps SpecFloat.
Local Open Scope R_scope.

(** A zero divided by a positive finite [r] and multiplied by [r] again is
    a zero. *)
Lemma div_mul_zero (a r : float) :
  signed_zero a -> is_finite r = true -> (0 <? r)%float = true ->
  same_number (r * (a / r))%float a.
Proof.
  intros Ha Hr Hpos. apply signed_zeros_same; [|exact Ha].
  destruct (SF_signed_zero a Ha) as [s Ea].
  rewrite FloatAxioms.ltb_spec in Hpos.
  destruct (is_finite_SF r Hr) as [[s' Er]|(s' & m & e & Er)].
  - rewrite Er in Hpos. vm_compute in Hpos. discriminate.
  - apply (signed_zero_SF _ (xorb s' (xorb s s'))).
    rewrite FloatAxioms.mul_spec, FloatAxioms.div_spec, Ea, Er. reflexivity.
Qed.

(** The round trip in binary64, for a position with [x > 0] and [R > 0]:
    [R], [cosphi] and [sinphi] are the evaluator's
    [sqrt (x * x + y * y)], [x / R] and [y / R]; when [cosphi] is a normal
    number and [R * cosphi] is finite, [R * cosphi] is [x] to relative error
    [2^-51]; likewise [R * sinphi] and [y]; and when [y] is a zero and [R]
    is finite, [R * sinphi] is a zero. *)
Definition RoundTripBinary64At (libm_acos : float -> float) (x y : float) : Prop :=
  let R := @polar_R (Binary64 libm_acos) x y in
  let cosphi := @polar_cosphi (Binary64 libm_acos) x y in
  let sinphi := @polar_sinphi (Binary64 libm_acos) x y in
  (0 <? x)%float = true -> (0 <? R)%float = true ->
  (R = PrimFloat.sqrt (x * x + y * y)%float /\ cosphi = (x / R)%float
   /\ sinphi = (y / R)%float)
  /\ (is_normal cosphi = true -> is_finite (R * cosphi)%float = true ->
      Rabs (float_value (R * cosphi)%float - float_value x)
      <= pw (-51) * Rabs (float_value x))
  /\ (is_normal sinphi = true -> is_finite (R * sinphi)%float = true ->
      Rabs (float_value (R * sinphi)%float - float_value y)
      <= pw (-51) * Rabs (float_value y))
  /\ (signed_zero y -> is_finite R = true -> same_number (R * sinphi)%float y).

Lemma RoundTrip_binary64 libm_acos x y : RoundTripBinary64At libm_acos x y.
Proof.
  unfold RoundTripBinary64At. intros _ HR.
  split; [repeat split|]. split; [|split].
  - apply div_mul_round_trip.
  - apply div_mul_round_trip.
  - intros Hy Hfin. now apply div_mul_zero.
Qed.

(** C9: the coordinate round trip, for a position with [x > 0] and [R > 0].
    In binary64 [R * cosphi] is [x] to relative error [2^-51] when
    [cosphi = x / R] is a normal number and the product is finite, and
    likewise [R * sinphi] and [y]; [R * sinphi] is a zero when [y] is a zero
    and [R] is finite.  In exact arithmetic [R * cosphi = x] and
    [R * sinphi = y] with no error, and [R * R = x * x + y * y]. *)
Theorem RoundTrip_tolerance :
  (forall libm_acos x y, RoundTripBinary64At libm_acos x y)
  /\ (forall x y : R, 0 < x ->
        0 < @polar_R RealArith x y
        /\ @polar_R RealArith x y * @polar_R RealArith x y = x * x + y * y
        /\ @polar_R RealArith x y * @polar_cosphi RealArith x y = x
        /\ @polar_R RealArith x y * @polar_sinphi RealArith x y = y).
Proof. split; [exact RoundTrip_binary64 | exact RoundTrip_exact]. Qed.

(** The round trip fails outside that range, with [x > 0] and [R > 0] both
    true.  Overflow: at [(x, y) = (1e200, 1)] ([1e200] is the double
    [0x1.4e718d7d7625ap+664]) the sum [x * x + y * y] overflows, [R] is
    [+infinity], [x / R] and [y / R] are [0], and [R * cosphi] and
    [R * sinphi] are NaN.  Underflow: at [(x, y) = (3 * 2^-1074, 2)], [R] is
    [2], [x / R] is rounded to [2 * 2^-1074], and [R * cosphi] is
    [4 * 2^-1074], a third more than [x]. *)
Lemma RoundTrip_binary64_out_of_range :
  ((0 <? 0x1.4e718d7d7625ap+664)%float = true
   /\ (0 <? @polar_R (Binary64 (fun v => v)) 0x1.4e718d7d7625ap+664%float 1%float)%float
      = true
   /\ @polar_R (Binary64 (fun v => v)) 0x1.4e718d7d7625ap+664%float 1%float = infinity
   /\ is_normal (@polar_cosphi (Binary64 (fun v => v)) 0x1.4e718d7d7625ap+664%float 1%float)
      = false
   /\ (@polar_R (Binary64 (fun v => v)) 0x1.4e718d7d7625ap+664%float 1%float
       * @polar_cosphi (Binary64 (fun v => v)) 0x1.4e718d7d7625ap+664%float 1%float)%float
      = nan
   /\ (@polar_R (Binary64 (fun v => v)) 0x1.4e718d7d7625ap+664%float 1%float
       * @polar_sinphi (Binary64 (fun v => v)) 0x1.4e718d7d7625ap+664%float 1%float)%float
      = nan
   /\ ~ exists libm_acos,
          @RoundTripAt (Binary64 libm_acos) 0x1.4e718d7d7625ap+664%float 1%float)
  /\ ((0 <? 0x1.8p-1073)%float = true
      /\ @polar_R (Binary64 (fun v => v)) 0x1.8p-1073%float 2%float = 2%float
      /\ is_normal (@polar_cosphi (Binary64 (fun v => v)) 0x1.8p-1073%float 2%float)
         = false
      /\ Prim2SF 0x1.8p-1073%float = S754_finite false 3 (-1074)
      /\ Prim2SF (@polar_R (Binary64 (fun v => v)) 0x1.8p-1073%float 2%float
                  * @polar_cosphi (Binary64 (fun v => v)) 0x1.8p-1073%float 2%float)%float
         = S754_finite false 4 (-1074)
      /\ ~ exists libm_acos,
             @RoundTripAt (Binary64 libm_acos) 0x1.8p-1073%float 2%float).
Proof.
  split.
  - repeat (split; [reflexivity|]).
    intros [f H]. destruct H as [H _]; [reflexivity | reflexivity |].
    vm_compute in H. discriminate.
  - repeat (split; [reflexivity|]).
    intros [f H]. destruct H as [H _]; [reflexivity | reflexivity |].
    vm_compute in H. discriminate.
Qed.

End RoundTripBinary64.

(** ** Zero angular force: the components and their collinearity *)

Section CollinearBinary64.
Import FloatOps SpecFloat.
Local Open Scope R_scope.

(** Floats that compare equal stand for the same real number. *)
Lemma SFeqb_value (f g : spec_float) : SFeqb f g = true -> SF2R f = SF2R g.
Proof.
  unfold SFeqb, SFcompare.
  change Corelib.BinNums.IntDef.Z.compare with Z.compare.
  change (Corelib.BinNums.PosDef.Pos.compare_cont Eq) with Pos.compare.
  destruct f as [sf|sf| |sf mf ef], g as [sg|sg| |sg mg eg];
    try reflexivity; try (destruct sf; discriminate); try (destruct sg; discriminate);
    try discriminate.
  destruct sf, sg; try discriminate;
    (destruct (Z.compare_spec ef eg) as [->| |]; try discriminate);
    (destruct (Pos.compare_spec mf mg) as [->| |]; try discriminate);
    reflexivity.
Qed.

Lemma same_number_value (a b : float) : same_number a b -> float_value a = float_value b.
Proof.
  intros [->|H]; [reflexivity|].
  rewrite FloatAxioms.eqb_spec in H. now apply SFeqb_value.
Qed.

(** The two components [fl (fl (x / r) * F)] and [fl (fl (y / r) * F)] are
    collinear with [(x, y)] to relative error [2^-51], when the two quotients
    and the two products are normal numbers. *)
Lemma collinear_binary64 (x y r F : float) :
  is_normal (x / r) = true -> is_normal (y / r) = true ->
  is_normal (x / r * F) = true -> is_normal (y / r * F) = true ->
  Rabs (float_value (x / r * F) * float_value y - float_value (y / r * F) * float_value x)
  <= pw (-51) * (Rabs (float_value (x / r * F) * float_value y)
                 + Rabs (float_value (y / r * F) * float_value x)).
Proof.
  intros Hc Hs Hax Hay.
  destruct (div_normal_error x r Hc) as [Hr H2].
  destruct (div_normal_error y r Hs) as [_ H4].
  pose proof (mul_normal_error (x / r) F Hax) as H1.
  pose proof (mul_normal_error (y / r) F Hay) as H3.
  set (X := float_value x) in *. set (Y := float_value y) in *.
  set (Rr := float_value r) in *. set (Fv := float_value F) in *.
  set (C := float_value (x / r)) in *. set (S := float_value (y / r)) in *.
  set (AX := float_value (x / r * F)) in *. set (AY := float_value (y / r * F)) in *.
  assert (Eu : pw (-53) = / 9007199254740992) by (unfold pw, powerRZ; simpl; lra).
  assert (Eu' : pw (-51) = / 2251799813685248) by (unfold pw, powerRZ; simpl; lra).
  rewrite Eu in *. rewrite Eu'. clear Eu Eu'.
  set (u := / 9007199254740992) in *.
  assert (Hu : 0 < u <= / 4) by (unfold u; lra).
  (* the two products, and what the rounded quotients lose *)
  assert (HCF : Rabs (C * Fv) <= (1 + u) * Rabs AX).
  { pose proof (Rabs_triang (C * Fv - AX) AX) as T.
    replace (C * Fv - AX + AX) with (C * Fv) in T by ring.
    rewrite <- (Rabs_Ropp (C * Fv - AX)) in T.
    replace (- (C * Fv - AX)) with (AX - C * Fv) in T by ring. lra. }
  assert (HSF : Rabs (S * Fv) <= (1 + u) * Rabs AY).
  { pose proof (Rabs_triang (S * Fv - AY) AY) as T.
    replace (S * Fv - AY + AY) with (S * Fv) in T by ring.
    rewrite <- (Rabs_Ropp (S * Fv - AY)) in T.
    replace (- (S * Fv - AY)) with (AY - S * Fv) in T by ring. lra. }
  assert (E : AX * Y - AY * X
              = Fv * (C - X / Rr) * Y - Fv * (S - Y / Rr) * X
                + (AX - C * Fv) * Y - (AY - S * Fv) * X) by (field; exact Hr).
  rewrite E.
  assert (G2 : Rabs (Fv * (C - X / Rr) * Y) <= u * (1 + u) * (Rabs AX * Rabs Y)).
  { rewrite !Rabs_mult. rewrite Rabs_mult in HCF.
    pose proof (Rabs_pos Fv). pose proof (Rabs_pos Y). pose proof (Rabs_pos C).
    pose proof (Rabs_pos AX). pose proof (Rabs_pos (C - X / Rr)).
    assert (Rabs Fv * Rabs (C - X / Rr) <= u * (1 + u) * Rabs AX) by nra.
    nra. }
  assert (G4 : Rabs (Fv * (S - Y / Rr) * X) <= u * (1 + u) * (Rabs AY * Rabs X)).
  { rewrite !Rabs_mult. rewrite Rabs_mult in HSF.
    pose proof (Rabs_pos Fv). pose proof (Rabs_pos X). pose proof (Rabs_pos S).
    pose proof (Rabs_pos AY). pose proof (Rabs_pos (S - Y / Rr)).
    assert (Rabs Fv * Rabs (S - Y / Rr) <= u * (1 + u) * Rabs AY) by nra.
    nra. }
  assert (G1 : Rabs ((AX - C * Fv) * Y) <= u * (Rabs AX * Rabs Y)).
  { rewrite Rabs_mult. pose proof (Rabs_pos Y). nra. }
  assert (G3 : Rabs ((AY - S * Fv) * X) <= u * (Rabs AY * Rabs X)).
  { rewrite Rabs_mult. pose proof (Rabs_pos X). nra. }
  rewrite !(Rabs_mult AX Y), !(Rabs_mult AY X).
  pose proof (Rabs_pos AX). pose proof (Rabs_pos AY).
  pose proof (Rabs_pos X). pose proof (Rabs_pos Y).
  assert (0 <= Rabs AX * Rabs Y) by nra. assert (0 <= Rabs AY * Rabs X) by nra.
  set (a1 := Fv * (C - X / Rr) * Y) in *. set (a2 := Fv * (S - Y / Rr) * X) in *.
  set (a3 := (AX - C * Fv) * Y) in *. set (a4 := (AY - S * Fv) * X) in *.
  pose proof (Rabs_triang (a1 - a2 + a3) (- a4)) as T1.
  pose proof (Rabs_triang (a1 - a2) a3) as T2.
  pose proof (Rabs_triang a1 (- a2)) as T3.
  rewrite Rabs_Ropp in T1, T3.
  replace (a1 - a2 + a3 + - a4) with (a1 - a2 + a3 - a4) in T1 by ring.
  replace (a1 + - a2) with (a1 - a2) in T3 by ring.
  unfold u in *. lra.
Qed.

End CollinearBinary64.

Section RadialBinary64.
Import FloatOps SpecFloat.

(** Radial force in binary64: with angular force laws that are constantly
    zero, [R > 0], and [1/R * sinphi] and [1/R * cosphi] finite, the sum
    [phiforce] is [0.] and the stored components are the numbers
    [(x / R) * Rforce] and [(y / R) * Rforce]; when these two and the
    quotients [x / R] and [y / R] are normal numbers, [ax * y] and [ay * x]
    agree to relative error [2^-51]. *)
Definition RadialBinary64At (libm_acos : float -> float) (t x y : float)
  (ts : list (@ForceTerm (Binary64 libm_acos))) : Prop :=
  Forall (fun tm : @ForceTerm (Binary64 libm_acos) =>
            forall R phi n ps, angular_force_fn tm R phi n ps = 0%float) ts ->
  let R := PrimFloat.sqrt (x * x + y * y)%float in
  let phi := if (y <? 0)%float
             then (libm_acos (x / R) + 2 * 0x1.921fb54442d18p+1)%float
             else libm_acos (x / R)%float in
  let Rforce := @sum_forces (Binary64 libm_acos) (@radial_force (Binary64 libm_acos) R phi) ts in
  (0 <? R)%float = true ->
  is_finite (1 / R * (y / R))%float = true ->
  is_finite (1 / R * (x / R))%float = true ->
  @sum_forces (Binary64 libm_acos) (@angular_force (Binary64 libm_acos) R phi) ts = 0%float
  /\ forall (m : @mem (Binary64 libm_acos)) q a lfa aps,
       holds_terms m lfa ts aps -> holds_position m q x y -> room_for_two m a ->
       exists (m' : @mem (Binary64 libm_acos)) (ax ay : float),
         @evalPlanarRectForce (Binary64 libm_acos) t q a (Z.of_nat (length ts)) lfa m
         = Ok tt m'
         /\ load_double a m' = Ok ax m' /\ load_double (ptr_add a 1) m' = Ok ay m'
         /\ same_number ax (x / R * Rforce)%float
         /\ same_number ay (y / R * Rforce)%float
         /\ (is_normal (x / R)%float = true -> is_normal (y / R)%float = true ->
             is_normal (x / R * Rforce)%float = true ->
             is_normal (y / R * Rforce)%float = true ->
             (Rabs (float_value ax * float_value y - float_value ay * float_value x)
              <= pw (-51) * (Rabs (float_value ax * float_value y)
                             + Rabs (float_value ay * float_value x)))%R).

Lemma Radial_binary64 libm_acos t x y ts : RadialBinary64At libm_acos t x y ts.
Proof.
  intros Hzero. cbv zeta. intros _ Hfs Hfc.
  pose proof (phiforce_zero_binary64 libm_acos ts (@polar_R (Binary64 libm_acos) x y)
                (@polar_phi (Binary64 libm_acos) x y) Hzero) as Hphi.
  split; [exact Hphi|].
  intros m q a lfa aps Hts Hq (ds & Ha & H0 & Hlen).
  eexists. exists (fst (@spec_acceleration (Binary64 libm_acos) x y ts)),
                  (snd (@spec_acceleration (Binary64 libm_acos) x y ts)).
  split; [eapply evalPlanarRectForce_run; eauto|].
  split; [now apply (stored_two_loads (D:=Binary64 libm_acos))|].
  split; [now apply (stored_two_loads (D:=Binary64 libm_acos))|].
  unfold spec_acceleration. cbv zeta. cbn [fst snd]. rewrite Hphi.
  cbn [dadd dsub dmul ddiv d1 double Binary64] in *.
  match goal with
  | |- same_number ?u ?v /\ same_number ?u' ?v' /\ _ =>
      assert (Hax : same_number u v) by apply sub_signed_zero, mul_zero_finite, Hfs;
      assert (Hay : same_number u' v') by apply add_signed_zero, mul_zero_finite, Hfc;
      split; [exact Hax|]; split; [exact Hay|];
      intros Nc Ns Nax Nay;
      rewrite (same_number_value u v Hax), (same_number_value u' v' Hay)
  end.
  now apply collinear_binary64.
Qed.

(** Radial force in exact arithmetic, with the angle written out as the code
    computes it: [phiforce = 0], the stored components are
    [(x / R) * Rforce] and [(y / R) * Rforce], and [ax * y = ay * x]. *)
Definition RadialExactAt (t x y : R) (ts : list (@ForceTerm RealArith)) : Prop :=
  Forall (fun tm : @ForceTerm RealArith =>
            forall r phi n ps, angular_force_fn tm r phi n ps = 0%R) ts ->
  let r := R_sqrt.sqrt (x * x + y * y) in
  let phi := if Rltb y 0 then (acos (x / r) + 2 * PI)%R else acos (x / r) in
  let Rforce := @sum_forces RealArith (@radial_force RealArith r phi) ts in
  (0 < r)%R ->
  @sum_forces RealArith (@angular_force RealArith r phi) ts = 0%R
  /\ forall (m : @mem RealArith) q a lfa aps,
       holds_terms m lfa ts aps -> holds_position m q x y -> room_for_two m a ->
       exists (m' : @mem RealArith) (ax ay : R),
         @evalPlanarRectForce RealArith t q a (Z.of_nat (length ts)) lfa m = Ok tt m'
         /\ load_double a m' = Ok ax m' /\ load_double (ptr_add a 1) m' = Ok ay m'
         /\ ax = (x / r * Rforce)%R /\ ay = (y / r * Rforce)%R
         /\ (ax * y = ay * x)%R.

Lemma Radial_exact t x y ts : RadialExactAt t x y ts.
Proof.
  intros Hzero. cbv zeta. intros Hr.
  exact (Radial_real t x y ts Hzero (Rltb_true _ _ Hr)).
Qed.

(** C10: for a Force Term Sequence whose angular force laws are all
    constantly zero and a position with [R > 0].  In binary64, when
    [1/R * sinphi] and [1/R * cosphi] are finite: [phiforce] is [0.] and the
    evaluator stores the numbers [ax = (x / R) * Rforce] and
    [ay = (y / R) * Rforce] (the sign of a zero result apart), and
    [ax * y] and [ay * x] agree to relative error [2^-51] when the two
    quotients and the two components are normal numbers.  In exact
    arithmetic: the same, and [ax * y = ay * x] with no error, the
    acceleration is collinear with the position. *)
Theorem Radial_zero_angular :
  (forall libm_acos t x y ts, RadialBinary64At libm_acos t x y ts)
  /\ (forall t x y ts, RadialExactAt t x y ts).
Proof. split; [exact Radial_binary64 | exact Radial_exact]. Qed.

(** The claim as stated fails in binary64.  At [(1, 7)] with [Rforce = 1]
    the products [ax * y] and [ay * x] differ in the last place,
    [0.98994949366116658] against [0.98994949366116647]; [ay * x] is [ay]
    itself, so the stored numbers are not collinear with [(1, 7)] as real
    numbers either: [7 * ax] is two units of [2^-55] above [ay].  And the
    components need [1/R * cosphi] finite: at [(+infinity, 0)], where
    [R > 0] is true, the evaluator stores NaN for [ay] while
    [(y / R) * Rforce] is [0]. *)
Lemma Radial_binary64_fails :
  (~ exists libm_acos,
       @RadialAt (Binary64 libm_acos) 0%float 1%float 7%float [b64_term libm_acos 1%float])
  /\ (float_value (1 / @polar_R (Binary64 (fun v => v)) 1 7 * (0 + 1))%float
      * float_value 7%float
      - float_value (7 / @polar_R (Binary64 (fun v => v)) 1 7 * (0 + 1))%float
        * float_value 1%float
      = 2 * pw (-55))%R
  /\ ((0 <? @polar_R (Binary64 (fun v => v)) infinity 0)%float = true
      /\ (0 / @polar_R (Binary64 (fun v => v)) infinity 0 * (0 + 1))%float = 0%float
      /\ exists m' : @mem (Binary64 (fun v => v)),
           @evalPlanarRectForce (Binary64 (fun v => v)) 0%float (mkptr 1 0) (mkptr 2 0) 1
             (mkptr 0 0) (layout [b64_term (fun v => v) 1%float] infinity 0%float)
           = Ok tt m'
           /\ load_double (mkptr 2 1) m' = Ok nan m').
Proof.
  split; [|split].
  - intros [f H]. destruct H as [_ H]; [repeat constructor | reflexivity |].
    set (ts := [b64_term f 1%float]) in *.
    destruct (H (layout ts 1%float 7%float) (mkptr 1 0) (mkptr 2 0) (mkptr 0 0)
                (layout_ptrs ts))
      as (m' & ax & ay & _ & _ & _ & -> & -> & E).
    + vm_compute. repeat split.
    + vm_compute. repeat split.
    + exists [None; None]. split; [reflexivity | split; [done | simpl; lia]].
    + vm_compute in E. discriminate.
  - unfold float_value.
    replace (Prim2SF (1 / @polar_R (Binary64 (fun v => v)) 1 7 * (0 + 1))%float)
      with (S754_finite false 5095241338020618%positive (-55)%Z) by (vm_compute; reflexivity).
    replace (Prim2SF (7 / @polar_R (Binary64 (fun v => v)) 1 7 * (0 + 1))%float)
      with (S754_finite false 8916672341536081%positive (-53)%Z) by (vm_compute; reflexivity).
    replace (Prim2SF 7%float) with (S754_finite false 7881299347898368%positive (-50)%Z)
      by (vm_compute; reflexivity).
    replace (Prim2SF 1%float) with (S754_finite false 4503599627370496%positive (-52)%Z)
      by (vm_compute; reflexivity).
    cbn [SF2R].
    assert (E50 : pw (-50) = (/ 1125899906842624)%R) by (unfold pw, powerRZ; simpl; lra).
    assert (E52 : pw (-52) = (/ 4503599627370496)%R) by (unfold pw, powerRZ; simpl; lra).
    assert (E53 : pw (-53) = (/ 9007199254740992)%R) by (unfold pw, powerRZ; simpl; lra).
    assert (E55 : pw (-55) = (/ 36028797018963968)%R) by (unfold pw, powerRZ; simpl; lra).
    rewrite E50, E52, E53, E55. lra.
  - split; [reflexivity|]. split; [reflexivity|].
    eexists. split; vm_compute; reflexivity.
Qed.

End RadialBinary64.

(** ** The origin in binary64 *)

Section Binary64Origin.

(** In binary64 a NaN operand makes the product, the sum and the difference
    NaN (the kernel's floats have a single NaN). *)
Lemma mul_nan_l (v : float) : (nan * v)%float = nan.
Proof.
  rewrite <- (FloatAxioms.SF2Prim_Prim2SF (nan * v)), FloatAxioms.mul_spec.
  reflexivity.
Qed.

Lemma add_nan_l (v : float) : (nan + v)%float = nan.
Proof.
  rewrite <- (FloatAxioms.SF2Prim_Prim2SF (nan + v)), FloatAxioms.add_spec.
  reflexivity.
Qed.

Lemma sub_nan_l (v : float) : (nan - v)%float = nan.
Proof.
  rewrite <- (FloatAxioms.SF2Prim_Prim2SF (nan - v)), FloatAxioms.sub_spec.
  reflexivity.
Qed.

(** Lines 75-84 at the origin, in binary64: [R] is [0], [x / R] and [y / R]
    are [0 / 0], and both components of the stored acceleration are NaN,
    whatever the force terms are.  The evaluator returns normally. *)
Theorem evalPlanarRectForce_origin_nan libm_acos t x y ts m q a lfa aps :
  (x = 0 \/ x = -0)%float -> (y = 0 \/ y = -0)%float ->
  @holds_terms (Binary64 libm_acos) m lfa ts aps ->
  holds_position m q x y -> room_for_two m a ->
  exists m',
    evalPlanarRectForce t q a (Z.of_nat (length ts)) lfa m = Ok tt m'
    /\ load_double a m' = Ok nan m' /\ load_double (ptr_add a 1) m' = Ok nan m'.
Proof.
  intros Hx Hy Hts Hq (ds & Ha & H0 & Hlen).
  pose proof (evalPlanarRectForce_run m t q a lfa ts aps x y ds Hts Hq Ha H0 Hlen) as Hrun.
  assert (E : @spec_acceleration (Binary64 libm_acos) x y ts = (nan, nan)).
  { unfold spec_acceleration. cbv zeta.
    assert (Hc : (x / @polar_R (Binary64 libm_acos) x y)%float = nan)
      by (destruct Hx as [-> | ->], Hy as [-> | ->]; reflexivity).
    assert (Hs : (y / @polar_R (Binary64 libm_acos) x y)%float = nan)
      by (destruct Hx as [-> | ->], Hy as [-> | ->]; reflexivity).
    cbn [dadd dsub dmul ddiv d1 double Binary64].
    rewrite Hc, Hs, !mul_nan_l, sub_nan_l, add_nan_l. reflexivity. }
  rewrite E in Hrun. cbn [fst snd] in Hrun.
  eexists. split; [exact Hrun|].
  now apply (stored_two_loads (D:=Binary64 libm_acos)).
Qed.

End Binary64Origin.

(** ** The theorems at concrete inputs *)

Section Examples.

Lemma layout_holds_one (v x y : R) :
  holds_terms (layout [real_term v] x y) (mkptr 0 0) [real_term v]
              (layout_ptrs [real_term v])
  /\ holds_position (layout [real_term v] x y) (mkptr 1 0) x y
  /\ room_for_two (layout [real_term v] x y) (mkptr 2 0).
Proof.
  split; [|split].
  - repeat split.
  - split; reflexivity.
  - exists [None; None]. split; [reflexivity | split; [done | simpl; lia]].
Qed.

(** C4 below the x axis, at [(3, -4)], for the radial force law [sin phi]:
    the law is evaluated at [acos (3/5) + 2 pi]. *)
Lemma evalPlanarRectForce_acceleration_example :
  exists m' : @mem RealArith,
    @evalPlanarRectForce RealArith 0%R (mkptr 1 0) (mkptr 2 0) 1 (mkptr 0 0)
      (layout [sine_term] 3%R (-4)%R) = Ok tt m'
    /\ load_double (mkptr 2 0) m'
       = Ok (3 / R_sqrt.sqrt (3 * 3 + -4 * -4)
             * (0 + sin (acos (3 / R_sqrt.sqrt (3 * 3 + -4 * -4)) + 2 * PI))
             - 1 / R_sqrt.sqrt (3 * 3 + -4 * -4)
               * (-4 / R_sqrt.sqrt (3 * 3 + -4 * -4)) * (0 + 0))%R m'.
Proof.
  assert (H1 : holds_terms (layout [sine_term] 3%R (-4)%R) (mkptr 0 0) [sine_term]
                           (layout_ptrs [sine_term])) by (repeat split).
  assert (H2 : holds_position (layout [sine_term] 3%R (-4)%R) (mkptr 1 0) 3%R (-4)%R)
    by (split; reflexivity).
  assert (H3 : room_for_two (layout [sine_term] 3%R (-4)%R) (mkptr 2 0))
    by (exists [None; None]; split; [reflexivity | split; [done | simpl; lia]]).
  destruct (evalPlanarRectForce_acceleration (D:=RealArith) _ 0%R _ _ _ _ _ 3%R (-4)%R
              H1 H2 H3)
    as (m' & E & L & _).
  exists m'. split; [exact E|].
  cbn [dlt d0 RealArith] in L. rewrite Rltb_true in L by lra. exact L.
Defined.

(** C7 for two calls on the same memory. *)
Lemma evalPlanarRectForce_pure_example :
  exists (m1' m2' : @mem RealArith) ax ay,
    @evalPlanarRectForce RealArith 0%R (mkptr 1 0) (mkptr 2 0) 1 (mkptr 0 0)
      (layout [real_term 2%R] 3%R 4%R) = Ok tt m1'
    /\ @evalPlanarRectForce RealArith 0%R (mkptr 1 0) (mkptr 2 0) 1 (mkptr 0 0)
         (layout [real_term 2%R] 3%R 4%R) = Ok tt m2'
    /\ load_double (mkptr 2 0) m1' = Ok ax m1' /\ load_double (mkptr 2 1) m1' = Ok ay m1'
    /\ holds_terms m1' (mkptr 0 0) [real_term 2%R] (layout_ptrs [real_term 2%R]).
Proof.
  destruct (layout_holds_one 2%R 3%R 4%R) as (H1 & H2 & H3).
  assert (Hno : Forall (fun p => pblock p <> pblock (mkptr 2 0))
                       (layout_ptrs [real_term 2%R]))
    by (repeat constructor; simpl; lia).
  destruct (evalPlanarRectForce_pure (D:=RealArith) 0%R 3%R 4%R _ _ _ _ _ _ _ _ _ _ _
              H1 H2 H3 Hno H1 H2 H3 Hno)
    as (m1' & m2' & ax & ay & E1 & E2 & L1 & L2 & _ & _ & Hts & _).
  exists m1', m2', ax, ay. auto 10.
Defined.

(** C5 for three potentials and six values. *)
Lemma setup_forces_builds_example :
  exists (m' : @mem RealArith) ss,
    @setup_forces RealArith first_param 3 [0; 0; 0]%Z [1; 2; 3; 4; 5; 6]%R empty_mem
    = Ok (mkptr 0 0, 3%Z, 6%Z) m'
    /\ heap m' !! 0%nat = Some (StructArr ss) /\ length ss = 3%nat
    /\ holds_terms m' (mkptr 0 0)
         [@mkForceTerm RealArith first_param ZeroPlanarForce 2 [1; 2]%R;
          @mkForceTerm RealArith first_param ZeroPlanarForce 2 [3; 4]%R;
          @mkForceTerm RealArith first_param ZeroPlanarForce 2 [5; 6]%R]
         [mkptr 1 0; mkptr 2 0; mkptr 3 0].
Proof.
  apply (setup_forces_builds (D:=RealArith) first_param [0; 0; 0]%Z
           [1; 2; 3; 4; 5; 6]%R empty_mem).
  - repeat constructor.
  - simpl. lia.
Defined.

(** C3 as the code has it, for three potentials and seven values. *)
Lemma setup_forces_ignores_surplus_example :
  exists m' : @mem RealArith,
    @setup_forces RealArith first_param 3 [0; 0; 0]%Z ([1; 2; 3; 4; 5; 6] ++ [7])%R empty_mem
    = Ok (mkptr 0 0, 3%Z, 6%Z) m'
    /\ holds_terms m' (mkptr 0 0)
         [@mkForceTerm RealArith first_param ZeroPlanarForce 2 [1; 2]%R;
          @mkForceTerm RealArith first_param ZeroPlanarForce 2 [3; 4]%R;
          @mkForceTerm RealArith first_param ZeroPlanarForce 2 [5; 6]%R]
         [mkptr 1 0; mkptr 2 0; mkptr 3 0].
Proof.
  apply (setup_forces_ignores_surplus (D:=RealArith) first_param [0; 0; 0]%Z
           [1; 2; 3; 4; 5; 6]%R [7%R] empty_mem).
  - repeat constructor.
  - reflexivity.
Defined.

(** C3 as stated fails: seven values for three potentials of two parameters
    each are accepted; the set-up returns normally with six values read. *)
Lemma seven_values_accepted :
  length [1; 2; 3; 4; 5; 6; 7]%R <> (2 * 3)%nat
  /\ exists m' : @mem RealArith,
       @setup_forces RealArith first_param 3 [0; 0; 0]%Z [1; 2; 3; 4; 5; 6; 7]%R empty_mem
       = Ok (mkptr 0 0, 3%Z, 6%Z) m'.
Proof.
  split; [simpl; lia|].
  destruct (setup_forces_known (D:=RealArith) first_param [0; 0; 0]%Z
              [1; 2; 3; 4; 5; 6; 7]%R empty_mem) as (m' & H & _).
  - repeat constructor.
  - simpl. lia.
  - exists m'. exact H.
Qed.

(** C1 at the single code [99]. *)
Lemma unknown_code_reaches_engine_example :
  exists m' : @mem RealArith,
    @integratePlanarOrbit RealArith first_param probe_engine [1; 0; 0; 1]%R 2
      [0; 1]%R 1 [99%Z] [] 0%R 0%R empty_mem = Fault UninitRead m'
    /\ trace m' = [EvMalloc 0; EvLeapfrog 1 (mkptr 0 0)].
Proof.
  apply (unknown_code_reaches_engine (D:=RealArith) first_param probe_engine
           [1; 0; 0; 1]%R 2 [0; 1]%R 0%R 0%R [99%Z] [] empty_mem 0 99%Z []).
  - reflexivity.
  - discriminate.
  - simpl. lia.
Defined.

(** C6 at the codes [99, 0]. *)
Lemma unknown_code_leaks_example :
  exists m' : @mem RealArith,
    @integratePlanarOrbit RealArith first_param probe_engine [1; 0; 0; 1]%R 2
      [0; 1]%R 2 [99; 0]%Z [1; 2]%R 0%R 0%R empty_mem = Fault UninitRead m'
    /\ is_Some (heap m' !! 0%nat)
    /\ (forall i, (0 <= i < 1)%nat -> is_Some (heap m' !! (0 + 1 + i)%nat))
    /\ count (is_free 0) (trace m') = count (is_free 0) (trace (@empty_mem RealArith)).
Proof.
  apply (unknown_code_leaks (D:=RealArith) first_param probe_engine
           [1; 0; 0; 1]%R 2 [0; 1]%R 0%R 0%R [99; 0]%Z [1; 2]%R empty_mem 0 99%Z [0%Z]).
  - reflexivity.
  - discriminate.
  - simpl. lia.
Defined.

(** The release of a call with the single code [0]. *)
Lemma integratePlanarOrbit_releases_once_example :
  exists m1 m' : @mem RealArith,
    @setup_forces RealArith first_param 1 [0%Z] [1; 0]%R empty_mem
    = Ok (mkptr 0 0, 1%Z, 2%Z) m1
    /\ @integratePlanarOrbit RealArith first_param probe_engine [1; 0; 0; 1]%R 2
         [0; 1]%R 1 [0%Z] [1; 0]%R 0%R 0%R empty_mem
       = Ok (probe_engine (bound_callback evalPlanarRectForce 2 1 (mkptr 0 0) m1) 2
               [1; 0; 0; 1]%R 2 [0; 1]%R 0%R 0%R) m'
    /\ heap m' = heap (@empty_mem RealArith)
    /\ trace m' = [EvMalloc 0; EvMalloc 1; EvLeapfrog 1 (mkptr 0 0); EvFree 1; EvFree 0]
    /\ NoDup [0; 1]%nat /\ Permutation [0; 1]%nat [1; 0]%nat.
Proof.
  apply (integratePlanarOrbit_releases_once (D:=RealArith) first_param probe_engine
           [1; 0; 0; 1]%R 2 [0; 1]%R 0%R 0%R [0%Z] [1; 0]%R empty_mem).
  - repeat constructor.
  - simpl. lia.
  - intros b _. reflexivity.
Defined.

(** C8 for two terms swapped, at [(3, 4)]. *)
Lemma OrderIndependent_real_example :
  @sum_forces RealArith
    (radial_force (@polar_R RealArith 3%R 4%R) (@polar_phi RealArith 3%R 4%R))
    [real_term 1%R; real_term 2%R]
  = @sum_forces RealArith
      (radial_force (@polar_R RealArith 3%R 4%R) (@polar_phi RealArith 3%R 4%R))
      [real_term 2%R; real_term 1%R].
Proof.
  apply (OrderIndependent_real 0%R 3%R 4%R [real_term 1%R; real_term 2%R]
           [real_term 2%R; real_term 1%R]).
  - apply perm_swap.
  - apply Rltb_true. unfold polar_R. cbn. apply sqrt_lt_R0. lra.
Defined.

(** C9 at [(3, 4)] and at [(3, 0)] in binary64, and at [(3, 4)] over the
    reals. *)
Lemma RoundTrip_tolerance_example :
  ((Rabs (float_value (@polar_R (Binary64 (fun v => v)) 3 4
                       * @polar_cosphi (Binary64 (fun v => v)) 3 4)%float
          - float_value 3%float)
    <= pw (-51) * Rabs (float_value 3%float))%R
   /\ (Rabs (float_value (@polar_R (Binary64 (fun v => v)) 3 4
                          * @polar_sinphi (Binary64 (fun v => v)) 3 4)%float
             - float_value 4%float)
       <= pw (-51) * Rabs (float_value 4%float))%R
   /\ same_number (@polar_R (Binary64 (fun v => v)) 3 0
                   * @polar_sinphi (Binary64 (fun v => v)) 3 0)%float 0%float)
  /\ (@polar_R RealArith 3 4 * @polar_cosphi RealArith 3 4 = 3
      /\ @polar_R RealArith 3 4 * @polar_sinphi RealArith 3 4 = 4)%R.
Proof.
  split.
  - destruct (proj1 RoundTrip_tolerance (fun v => v) 3%float 4%float eq_refl eq_refl)
      as (_ & Hx & Hy & _).
    destruct (proj1 RoundTrip_tolerance (fun v => v) 3%float 0%float eq_refl eq_refl)
      as (_ & _ & _ & Hz).
    split; [apply Hx; reflexivity|].
    split; [apply Hy; reflexivity|].
    apply Hz; [left; reflexivity | reflexivity].
  - destruct (proj2 RoundTrip_tolerance 3%R 4%R ltac:(lra)) as (_ & _ & Hc & Hs).
    split; assumption.
Defined.

(** C10 at [(1, 7)] with [Rforce = 1], in binary64 and over the reals. *)
Lemma Radial_zero_angular_example :
  (exists (m' : @mem (Binary64 (fun v => v))) ax ay,
     @evalPlanarRectForce (Binary64 (fun v => v)) 0%float (mkptr 1 0) (mkptr 2 0) 1
       (mkptr 0 0) (layout [b64_term (fun v => v) 1%float] 1%float 7%float) = Ok tt m'
     /\ load_double (mkptr 2 0) m' = Ok ax m' /\ load_double (mkptr 2 1) m' = Ok ay m'
     /\ same_number ax (1 / @polar_R (Binary64 (fun v => v)) 1 7 * (0 + 1))%float
     /\ same_number ay (7 / @polar_R (Binary64 (fun v => v)) 1 7 * (0 + 1))%float
     /\ (Rabs (float_value ax * float_value 7%float - float_value ay * float_value 1%float)
         <= pw (-51) * (Rabs (float_value ax * float_value 7%float)
                        + Rabs (float_value ay * float_value 1%float)))%R)
  /\ @sum_forces RealArith
       (angular_force (@polar_R RealArith 3%R 4%R) (@polar_phi RealArith 3%R 4%R))
       [real_term 2%R] = 0%R.
Proof.
  split.
  - destruct (proj1 Radial_zero_angular (fun v => v) 0%float 1%float 7%float
                [b64_term (fun v => v) 1%float]) as [_ H].
    + repeat constructor.
    + reflexivity.
    + reflexivity.
    + reflexivity.
    + destruct (H (layout [b64_term (fun v => v) 1%float] 1%float 7%float)
                  (mkptr 1 0) (mkptr 2 0) (mkptr 0 0)
                  (layout_ptrs [b64_term (fun v => v) 1%float]))
        as (m' & ax & ay & E & La & Lb & Sa & Sb & T).
      * vm_compute. repeat split.
      * vm_compute. repeat split.
      * exists [None; None]. split; [reflexivity | split; [done | simpl; lia]].
      * exists m', ax, ay.
        split; [exact E|]. split; [exact La|]. split; [exact Lb|].
        split; [exact Sa|]. split; [exact Sb|].
        apply T; reflexivity.
  - apply (proj2 Radial_zero_angular 0%R 3%R 4%R [real_term 2%R]).
    + repeat constructor.
    + apply sqrt_lt_R0. lra.
Defined.

(** The two ranges of the angle, at [(1, 1)] and at [(1, -1)]. *)
Lemma polar_phi_upper_range_example :
  (-1 <= 1 / @polar_R RealArith 1 1 <= 1
   /\ @polar_phi RealArith 1 1 = acos (1 / @polar_R RealArith 1 1)
   /\ 0 <= @polar_phi RealArith 1 1 <= PI)%R.
Proof. apply (polar_phi_upper_range 1%R 1%R); [left|]; lra. Defined.

Lemma polar_phi_lower_range_example :
  (2 * PI <= @polar_phi RealArith 1 (-1) <= 3 * PI)%R.
Proof. apply (polar_phi_lower_range 1%R (-1)%R). lra. Defined.

(** The set-up for the codes [0, 99, 0] and four values. *)
Lemma setup_forces_skips_unknown_example :
  exists (m' : @mem RealArith) ss,
    @setup_forces RealArith first_param 3 [0; 99; 0]%Z [1; 2; 3; 4]%R empty_mem
    = Ok (mkptr 0 0, 3%Z, 4%Z) m'
    /\ heap m' !! 0%nat = Some (StructArr ss) /\ length ss = 3%nat
    /\ ss !! 1%nat = Some indeterminate
    /\ ss !! 2%nat = Some (@mkLeapFuncArg RealArith (Some first_param)
                             (Some ZeroPlanarForce) (Some 2%Z) (Some (mkptr 2 0)))
    /\ heap m' !! 2%nat = Some (@DoubleArr RealArith [Some 3%R; Some 4%R])
    /\ trace m' = [EvMalloc 0; EvMalloc 1; EvMalloc 2].
Proof.
  destruct (setup_forces_skips_unknown (D:=RealArith) first_param [0; 99; 0]%Z
              [1; 2; 3; 4]%R empty_mem)
    as (m' & ss & Hrun & Hb & Hlen & Hskip & Hbuilt & Htr & _).
  - simpl. lia.
  - exists m', ss. split; [exact Hrun|]. split; [exact Hb|]. split; [exact Hlen|].
    split; [apply (Hskip 1%nat 99%Z); [reflexivity | discriminate]|].
    destruct (Hbuilt 2%nat eq_refl) as (H1 & H2 & _).
    split; [exact H1|]. split; [exact H2 | exact Htr].
Defined.

(** Five values for three codes [0]. *)
Lemma too_few_values_read_past_end_example :
  exists m' : @mem RealArith,
    @setup_forces RealArith first_param 3 [0; 0; 0]%Z [1; 2; 3; 4; 5]%R empty_mem
    = Fault OutOfBounds m'
    /\ @integratePlanarOrbit RealArith first_param probe_engine [1; 0; 0; 1]%R 2
         [0; 1]%R 3 [0; 0; 0]%Z [1; 2; 3; 4; 5]%R 0%R 0%R empty_mem
       = Fault OutOfBounds m'
    /\ trace m' = [EvMalloc 0; EvMalloc 1; EvMalloc 2; EvMalloc 3].
Proof.
  apply (too_few_values_read_past_end (D:=RealArith) first_param probe_engine
           [1; 0; 0; 1]%R 2 [0; 1]%R 0%R 0%R [0; 0; 0]%Z [1; 2; 3; 4; 5]%R empty_mem).
  simpl. lia.
Defined.

(** The callback after the set-up from the single code [0] with the values
    [(2, 0)], asked at [(3, 4)]. *)
Lemma callback_after_setup_example :
  exists m1 : @mem RealArith,
    @setup_forces RealArith first_param 1 [0%Z] [2; 0]%R empty_mem
    = Ok (mkptr 0 0, 1%Z, 2%Z) m1
    /\ bound_callback evalPlanarRectForce 2 1 (mkptr 0 0) m1 0%R [3; 4]%R
       = Some [fst (@spec_acceleration RealArith 3%R 4%R
                      [@mkForceTerm RealArith first_param ZeroPlanarForce 2 [2; 0]%R]);
               snd (@spec_acceleration RealArith 3%R 4%R
                      [@mkForceTerm RealArith first_param ZeroPlanarForce 2 [2; 0]%R])].
Proof.
  apply (callback_after_setup (D:=RealArith) first_param [0%Z] [2; 0]%R empty_mem
           0%R 3%R 4%R).
  - repeat constructor.
  - simpl. lia.
Defined.

(** The callback after the set-up from the codes [0, 99]. *)
Lemma callback_unknown_code_example :
  exists m1 : @mem RealArith,
    @setup_forces RealArith first_param 2 [0; 99]%Z [2; 0]%R empty_mem
    = Ok (mkptr 0 0, 2%Z, 2%Z) m1
    /\ forall t qv, bound_callback evalPlanarRectForce 2 2 (mkptr 0 0) m1 t qv = None.
Proof.
  apply (callback_unknown_code (D:=RealArith) first_param [0; 99]%Z [2; 0]%R empty_mem
           1%nat 99%Z).
  - reflexivity.
  - discriminate.
  - simpl. lia.
Defined.

Lemma layout_holds_two (v w x y : R) :
  holds_terms (layout [real_term v; real_term w] x y) (mkptr 0 0)
              ([real_term v] ++ [real_term w]) (layout_ptrs [real_term v; real_term w])
  /\ holds_position (layout [real_term v; real_term w] x y) (mkptr 1 0) x y
  /\ room_for_two (layout [real_term v; real_term w] x y) (mkptr 2 0).
Proof.
  split; [|split].
  - repeat split.
  - split; reflexivity.
  - exists [None; None]. split; [reflexivity | split; [done | simpl; lia]].
Qed.

(** The angle against the sine below the x axis, at [(3, -4)]. *)
Lemma polar_phi_against_sinphi_example :
  (cos (@polar_phi RealArith 3 (-4)) = @polar_cosphi RealArith 3 (-4)
   /\ (0 <= -4 -> sin (@polar_phi RealArith 3 (-4)) = @polar_sinphi RealArith 3 (-4))
   /\ (-4 < 0 -> sin (@polar_phi RealArith 3 (-4)) = - @polar_sinphi RealArith 3 (-4)))%R.
Proof. apply (polar_phi_against_sinphi 3%R (-4)%R). left. lra. Defined.

(** Superposition of the radial forces [1] and [2] at [(3, 4)]. *)
Lemma superposition_real_example :
  exists (m' m1' m2' : @mem RealArith) (ax ay ax1 ay1 ax2 ay2 : R),
    @evalPlanarRectForce RealArith 0%R (mkptr 1 0) (mkptr 2 0) 2 (mkptr 0 0)
      (layout [real_term 1%R; real_term 2%R] 3%R 4%R) = Ok tt m'
    /\ @evalPlanarRectForce RealArith 0%R (mkptr 1 0) (mkptr 2 0) 1 (mkptr 0 0)
         (layout [real_term 1%R] 3%R 4%R) = Ok tt m1'
    /\ @evalPlanarRectForce RealArith 0%R (mkptr 1 0) (mkptr 2 0) 1 (mkptr 0 0)
         (layout [real_term 2%R] 3%R 4%R) = Ok tt m2'
    /\ load_double (mkptr 2 0) m' = Ok ax m' /\ load_double (mkptr 2 1) m' = Ok ay m'
    /\ load_double (mkptr 2 0) m1' = Ok ax1 m1' /\ load_double (mkptr 2 1) m1' = Ok ay1 m1'
    /\ load_double (mkptr 2 0) m2' = Ok ax2 m2' /\ load_double (mkptr 2 1) m2' = Ok ay2 m2'
    /\ ax = (ax1 + ax2)%R /\ ay = (ay1 + ay2)%R.
Proof.
  destruct (layout_holds_two 1%R 2%R 3%R 4%R) as (H1 & H2 & H3).
  destruct (layout_holds_one 1%R 3%R 4%R) as (H4 & H5 & H6).
  destruct (layout_holds_one 2%R 3%R 4%R) as (H7 & H8 & H9).
  exact (superposition_real 0%R 3%R 4%R [real_term 1%R] [real_term 2%R]
           _ _ _ _ _ _ _ _ _ _ _ _ _ _ _ H1 H2 H3 H4 H5 H6 H7 H8 H9).
Defined.

(** The components of the acceleration for one term of radial force [2]
    at [(3, 4)]. *)
Lemma acceleration_components_real_example :
  exists (m' : @mem RealArith) (ax ay : R),
    @evalPlanarRectForce RealArith 0%R (mkptr 1 0) (mkptr 2 0) 1 (mkptr 0 0)
      (layout [real_term 2%R] 3%R 4%R) = Ok tt m'
    /\ load_double (mkptr 2 0) m' = Ok ax m' /\ load_double (mkptr 2 1) m' = Ok ay m'
    /\ (3 * ax + 4 * ay
        = @polar_R RealArith 3 4
          * @sum_forces RealArith
              (radial_force (@polar_R RealArith 3 4) (@polar_phi RealArith 3 4))
              [real_term 2])%R
    /\ (3 * ay - 4 * ax
        = @sum_forces RealArith
            (angular_force (@polar_R RealArith 3 4) (@polar_phi RealArith 3 4))
            [real_term 2])%R.
Proof.
  destruct (layout_holds_one 2%R 3%R 4%R) as (H1 & H2 & H3).
  destruct (acceleration_components_real 0%R 3%R 4%R [real_term 2%R] _ _ _ _ _
              ltac:(left; lra) H1 H2 H3)
    as (m' & ax & ay & E & L0 & L1 & Hr & Hp & _).
  exists m', ax, ay. auto 10.
Defined.

(** No force terms at [(3, 4)]: the sequence pointer is never read. *)
Lemma no_terms_no_acceleration_example :
  exists m' : @mem RealArith,
    @evalPlanarRectForce RealArith 0%R (mkptr 1 0) (mkptr 2 0) 0 (mkptr 7 0)
      (@layout RealArith [] 3%R 4%R) = Ok tt m'
    /\ load_double (mkptr 2 0) m' = Ok 0%R m' /\ load_double (mkptr 2 1) m' = Ok 0%R m'.
Proof.
  apply (no_terms_no_acceleration 0%R 3%R 4%R 0%Z (@layout RealArith [] 3%R 4%R)
           (mkptr 1 0) (mkptr 2 0) (mkptr 7 0)).
  - left. lra.
  - lia.
  - split; reflexivity.
  - exists [None; None]. split; [reflexivity | split; [done | simpl; lia]].
Defined.

(** The origin in binary64, with [y = -0.] and one term of radial force
    [2]. *)
Lemma evalPlanarRectForce_origin_nan_example :
  exists m' : @mem (Binary64 (fun v => v)),
    @evalPlanarRectForce (Binary64 (fun v => v)) 0%float (mkptr 1 0) (mkptr 2 0) 1
      (mkptr 0 0) (layout [b64_term (fun v => v) 2%float] 0%float (-0)%float) = Ok tt m'
    /\ load_double (mkptr 2 0) m' = Ok nan m' /\ load_double (mkptr 2 1) m' = Ok nan m'.
Proof.
  apply (evalPlanarRectForce_origin_nan (fun v => v) 0%float 0%float (-0)%float
           [b64_term (fun v => v) 2%float]
           (layout [b64_term (fun v => v) 2%float] 0%float (-0)%float)
           (mkptr 1 0) (mkptr 2 0) (mkptr 0 0)
           (layout_ptrs [b64_term (fun v => v) 2%float])).
  - now left.
  - now right.
  - vm_compute. repeat split.
  - vm_compute. repeat split.
  - exists [None; None]. split; [reflexivity | split; [done | simpl; lia]].
Defined.

End Examples.
